(** * The documentation content pipeline of the Taffy Layout docs site

    A shallow embedding of [src/features/docs/lib/docs.ts],
    [src/features/docs/lib/remark-links.ts],
    [src/features/docs/lib/navigation.ts], of the two docs page components
    and of the sitemap, with the properties of the pipeline proved over it.

    Conventions of the embedding.
    - A JavaScript string is a sequence of UTF-16 code units.  The embedding
      carries the code units below 256 as the 8-bit characters of [string];
      character classes ([\s], [\w], [.]) are the restrictions of the
      ECMAScript classes to that range.
    - A JavaScript number is a binary64 value: [NaN], an infinity or a
      finite value.  A finite value is carried exactly, as a rational.
    - Exceptions are explicit: a fallible call returns a [Completion].
    - A directory is what [readdirSync] reports of it: a tree of entries.
    - Library calls ([node:path], [github-slugger], [String.prototype.*])
      are modelled from the documented behaviour of the library, next to the
      code that calls them. *)

From Stdlib Require Import ZArith QArith Ascii String List Bool Lia Sorting.Sorted Permutation.
From stdpp Require Import base option list strings gmap pretty sorting.

Local Open Scope Z_scope.

(** ** Code units and character classes *)

Module Char.

Definition code (c : ascii) : N := N_of_ascii c.

Definition LF : ascii := "010"%char.
Definition CR : ascii := "013"%char.

Definition in_range (lo hi : N) (c : ascii) : bool :=
  ((lo <=? code c) && (code c <=? hi))%N.

(** ECMAScript [\s] (WhiteSpace and LineTerminator) below U+0100:
    TAB, LF, VT, FF, CR, SPACE and NO-BREAK SPACE. *)
Definition is_space (c : ascii) : bool :=
  in_range 9 13 c || (code c =? 32)%N || (code c =? 160)%N.

(** ECMAScript LineTerminator below U+0100; the class [.] is its complement. *)
Definition is_line_terminator (c : ascii) : bool :=
  (code c =? 10)%N || (code c =? 13)%N.

Definition is_dot (c : ascii) : bool := negb (is_line_terminator c).

(** ECMAScript [\w]: [A-Za-z0-9_]. *)
Definition is_word (c : ascii) : bool :=
  in_range 65 90 c || in_range 97 122 c || in_range 48 57 c || (code c =? 95)%N.

(** [String.prototype.toLowerCase] on one code unit below U+0100. *)
Definition to_lower (c : ascii) : ascii :=
  if in_range 65 90 c || in_range 192 214 c || in_range 216 222 c
  then ascii_of_N (code c + 32) else c.

(** [String.prototype.toUpperCase] on a [\w] code unit. *)
Definition to_upper_word (c : ascii) : ascii :=
  if in_range 97 122 c then ascii_of_N (code c - 32) else c.

End Char.

(** ** Strings, as the methods of [String.prototype] *)

Module Str.

Abbreviation len := String.length.

Fixpoint drop (n : nat) (s : string) : string :=
  match n, s with
  | O, _ => s
  | S n', String _ s' => drop n' s'
  | S _, EmptyString => EmptyString
  end.

Fixpoint take (n : nat) (s : string) : string :=
  match n, s with
  | O, _ => EmptyString
  | S n', String c s' => String c (take n' s')
  | S _, EmptyString => EmptyString
  end.

Fixpoint map (f : ascii -> ascii) (s : string) : string :=
  match s with
  | EmptyString => EmptyString
  | String c s' => String (f c) (map f s')
  end.

Fixpoint all (p : ascii -> bool) (s : string) : bool :=
  match s with
  | EmptyString => true
  | String c s' => p c && all p s'
  end.

(** Length of the longest prefix of [s] made of characters in [p]. *)
Fixpoint run (p : ascii -> bool) (s : string) : nat :=
  match s with
  | String c s' => if p c then S (run p s') else O
  | EmptyString => O
  end.

Definition is_empty (s : string) : bool :=
  match s with EmptyString => true | _ => false end.

(** [p] stands at the start of [s]. *)
Fixpoint prefix (p s : string) : bool :=
  match p, s with
  | EmptyString, _ => true
  | String a p', String b s' => Ascii.eqb a b && prefix p' s'
  | String _ _, EmptyString => false
  end.

(** [s.startsWith(p)] *)
Definition startsWith (s p : string) : bool := prefix p s.

(** [s.endsWith(p)] *)
Definition endsWith (s p : string) : bool :=
  (String.length p <=? String.length s)%nat
  && String.eqb (drop (String.length s - String.length p) s) p.

Definition toLowerCase (s : string) : string := map Char.to_lower s.

(** [s.split(sep)] for a one-character separator. *)
Fixpoint split (sep : ascii) (s : string) : list string :=
  match s with
  | EmptyString => [EmptyString]
  | String c s' =>
      if Ascii.eqb c sep then EmptyString :: split sep s'
      else match split sep s' with
           | [] => [String c EmptyString]
           | h :: t => String c h :: t
           end
  end.

(** [parts.join(sep)] *)
Definition join (sep : string) (parts : list string) : string :=
  String.concat sep parts.

(** [parts.filter(Boolean)] on an array of strings: the empty string is
    the only falsy one. *)
Definition filter_nonempty (parts : list string) : list string :=
  List.filter (fun p => negb (is_empty p)) parts.

(** [s.trim()] *)
Definition trimStart (s : string) : string := drop (run Char.is_space s) s.

Definition trimEnd (s : string) : string :=
  String.rev (trimStart (String.rev s)).

Definition trim (s : string) : string := trimEnd (trimStart s).

(** [s.indexOf(p)]: the offset of the first occurrence, as the text before
    it and the text after it. *)
Fixpoint find (p s : string) : option (string * string) :=
  if prefix p s then Some (EmptyString, drop (String.length p) s)
  else match s with
       | EmptyString => None
       | String c s' =>
           match find p s' with
           | Some (before, after) => Some (String c before, after)
           | None => None
           end
       end.

(** [s.replace(/p/g, r)] for a pattern [p] that is a non-empty literal and a
    replacement [r] free of [$]: every occurrence, left to right, without
    overlap. The [skip] counter carries the part of an occurrence already
    replaced. *)
Fixpoint replaceAll_from (skip : nat) (p r s : string) : string :=
  match s with
  | EmptyString => EmptyString
  | String c s' =>
      match skip with
      | S k => replaceAll_from k p r s'
      | O =>
          if prefix p s
          then r +:+ replaceAll_from (String.length p - 1) p r s'
          else String c (replaceAll_from O p r s')
      end
  end.

Definition replaceAll (p r s : string) : string := replaceAll_from O p r s.

(** The substitution template of [String.prototype.replace] with a string
    pattern (GetSubstitution with no captures): [$$] is a dollar sign, [$&]
    the matched text, [$`] the text before the match, [$'] the text after
    it; every other character, a [$] before anything else included, stands
    for itself. *)
Fixpoint getSubstitution (matched before after template : string) : string :=
  match template with
  | EmptyString => EmptyString
  | String c t =>
      if Ascii.eqb c "$"%char then
        match t with
        | String d t' =>
            if Ascii.eqb d "$"%char
            then String "$"%char (getSubstitution matched before after t')
            else if Ascii.eqb d "&"%char
            then matched +:+ getSubstitution matched before after t'
            else if Ascii.eqb d "`"%char
            then before +:+ getSubstitution matched before after t'
            else if Ascii.eqb d "'"%char
            then after +:+ getSubstitution matched before after t'
            else String c (getSubstitution matched before after t)
        | EmptyString => String c EmptyString
        end
      else String c (getSubstitution matched before after t)
  end.

(** [s.replace(p, r)] for a string pattern [p]: the first occurrence only,
    with the template [r] expanded. *)
Definition replace (s p r : string) : string :=
  match find p s with
  | Some (before, after) => before +:+ getSubstitution p before after r +:+ after
  | None => s
  end.

End Str.

(** ** [node:path], POSIX flavour *)

Module Path.

Definition slash : ascii := "/"%char.
Definition is_slash (c : ascii) : bool := Ascii.eqb c slash.

(** [normalizeString]: empty segments and [.] vanish, [..] removes the
    segment before it; above the start of a relative path ([allowAboveRoot])
    [..] is kept, above the root of an absolute one it is dropped.
    [acc] is the result so far, last segment first. *)
Fixpoint normalizeSegments_go (allowAboveRoot : bool) (acc segs : list string)
  : list string :=
  match segs with
  | [] => List.rev acc
  | s :: rest =>
      if String.eqb s "" || String.eqb s "." then
        normalizeSegments_go allowAboveRoot acc rest
      else if String.eqb s ".." then
        match acc with
        | top :: acc' =>
            if String.eqb top ".."
            then normalizeSegments_go allowAboveRoot
                   (if allowAboveRoot then ".." :: acc else acc) rest
            else normalizeSegments_go allowAboveRoot acc' rest
        | [] =>
            normalizeSegments_go allowAboveRoot
              (if allowAboveRoot then [".."] else []) rest
        end
      else normalizeSegments_go allowAboveRoot (s :: acc) rest
  end.

Definition normalizeSegments (allowAboveRoot : bool) (segs : list string)
  : list string :=
  normalizeSegments_go allowAboveRoot [] segs.

Definition normalizeString (path : string) (allowAboveRoot : bool) : string :=
  Str.join "/" (normalizeSegments allowAboveRoot (Str.split slash path)).

(** [path.posix.normalize] *)
Definition normalize (path : string) : string :=
  if Str.is_empty path then "."
  else
    let isAbsolute := Str.startsWith path "/" in
    let trailingSeparator := Str.endsWith path "/" in
    let body := normalizeString path (negb isAbsolute) in
    if Str.is_empty body then
      if isAbsolute then "/" else if trailingSeparator then "./" else "."
    else
      (if isAbsolute then "/" else "") +:+ body
        +:+ (if trailingSeparator then "/" else "").

(** [path.posix.join] *)
Definition join (args : list string) : string :=
  match Str.filter_nonempty args with
  | [] => "."
  | parts => normalize (Str.join "/" parts)
  end.

(** [path.posix.dirname]: trailing slashes are skipped, then the last
    component; what stands before the slash in front of it is the result. *)
Definition dirname (path : string) : string :=
  if Str.is_empty path then "."
  else
    let hasRoot := Str.startsWith path "/" in
    let r := String.rev (Str.drop 1 path) in
    let r1 := Str.drop (Str.run is_slash r) r in
    let r2 := Str.drop (Str.run (fun c => negb (is_slash c)) r1) r1 in
    match r2 with
    | EmptyString => if hasRoot then "/" else "."
    | String _ r3 =>
        if hasRoot && Str.is_empty r3 then "//"
        else Str.take (S (Str.len r3)) path
    end.

(** [path.posix.basename] without a suffix argument. *)
Definition basename (path : string) : string :=
  let r := String.rev path in
  let r1 := Str.drop (Str.run is_slash r) r in
  String.rev (Str.take (Str.run (fun c => negb (is_slash c)) r1) r1).

(** [path.posix.resolve]: arguments are taken from the right until an
    absolute one is met, the working directory standing before the first. *)
Fixpoint resolve_go (rargs : list string) (resolvedPath : string)
  : string * bool :=
  match rargs with
  | [] => (resolvedPath, false)
  | p :: rest =>
      if Str.is_empty p then resolve_go rest resolvedPath
      else if Str.startsWith p "/" then (p +:+ "/" +:+ resolvedPath, true)
      else resolve_go rest (p +:+ "/" +:+ resolvedPath)
  end.

Definition resolve (cwd : string) (args : list string) : string :=
  let '(resolvedPath, resolvedAbsolute) :=
    resolve_go (List.rev (cwd :: args)) "" in
  let body := normalizeString resolvedPath (negb resolvedAbsolute) in
  if resolvedAbsolute then "/" +:+ body
  else if Str.is_empty body then "." else body.

(** The segments of a resolved path. *)
Definition segments (path : string) : list string :=
  Str.filter_nonempty (Str.split slash path).

Fixpoint strip_common (from to : list string) : list string * list string :=
  match from, to with
  | f :: from', t :: to' =>
      if String.eqb f t then strip_common from' to' else (from, to)
  | _, _ => (from, to)
  end.

(** [path.posix.relative]: both paths are resolved, their common leading
    segments are dropped, and the result climbs out of what is left of
    [from] before it descends into what is left of [to]. *)
Definition relative (cwd from to : string) : string :=
  if String.eqb from to then ""
  else
    let from' := resolve cwd [from] in
    let to' := resolve cwd [to] in
    if String.eqb from' to' then ""
    else
      let '(up, down) := strip_common (segments from') (segments to') in
      Str.join "/" (List.map (fun _ => "..") up ++ down).

End Path.

(** ** Regular-expression replacements used by the sources

    Each function is the leftmost-match semantics of one shape of regular
    expression, with its backtracking written out. *)

Module Re.

(** The counts a greedy quantifier tries: [hi], [hi - 1], ..., [lo]. *)
Fixpoint greedy (hi lo : nat) : list nat :=
  if (hi <? lo)%nat then []
  else match hi with
       | O => [O]
       | S hi' => hi :: greedy hi' lo
       end.

(** The counts a lazy quantifier tries: [lo], [lo + 1], ..., [lo + n - 1]. *)
Fixpoint lazy (lo n : nat) : list nat :=
  match n with
  | O => []
  | S n' => lo :: lazy (S lo) n'
  end.

(** The first alternative that succeeds, in the order of the attempts. *)
Fixpoint first_success {A B : Type} (f : A -> option B) (attempts : list A)
  : option B :=
  match attempts with
  | [] => None
  | a :: rest =>
      match f a with
      | Some b => Some b
      | None => first_success f rest
      end
  end.

(** [s.replace(/R$/, "")] without the [g] flag: the leftmost position whose
    whole remainder is matched by [R] is where the string is cut. *)
Fixpoint remove_suffix (R : string -> bool) (s : string) : string :=
  if R s then EmptyString
  else match s with
       | EmptyString => EmptyString
       | String c s' => String c (remove_suffix R s')
       end.

(** A literal under the [i] flag: below U+0100 two code units of which one
    is an ASCII letter have the same canonical form exactly when they have
    the same lower case. *)
Definition eqb_ci (s lit : string) : bool :=
  String.eqb (Str.toLowerCase s) (Str.toLowerCase lit).

(** [/\.mdx?$/i]: a dot, [md], then [x] if it is there, then the end. *)
Definition md_extension (s : string) : bool :=
  eqb_ci s ".mdx" || eqb_ci s ".md".

(** [/\.(md|mdx)$/i]: a dot, then [md] or else [mdx], then the end. *)
Definition md_or_mdx_extension (s : string) : bool :=
  eqb_ci s ".md" || eqb_ci s ".mdx".

(** [/\/index$/] *)
Definition slash_index (s : string) : bool := String.eqb s "/index".

(** [/\s+#$/]: one or more white-space characters, as many as possible
    first, then [#], then the end. *)
Definition spaces_hash (s : string) : bool :=
  match first_success
          (fun n => if String.eqb (Str.drop n s) "#" then Some n else None)
          (greedy (Str.run Char.is_space s) 1) with
  | Some _ => true
  | None => false
  end.

(** [s.replace(/^\//, "")] *)
Definition remove_leading_slash (s : string) : string :=
  match s with
  | String c s' => if Ascii.eqb c "/"%char then s' else s
  | EmptyString => s
  end.

End Re.

(** ** [remark-links.ts]: the link rewriter *)

Module RemarkLinks.

(** [isExternal] *)
Definition isExternal (url : string) : bool :=
  Str.startsWith url "http://" ||
  Str.startsWith url "https://" ||
  Str.startsWith url "mailto:" ||
  Str.startsWith url "tel:" ||
  Str.startsWith url "#" ||
  Str.startsWith url "/".

(** The options of [remarkRewriteLinks]; an absent [isIndex] is [false]. *)
Record Options := {
  basePath : string;
  slug : list string;
  isIndex : bool
}.

(** A [link] node of the Markdown tree, as far as the plugin reads it. *)
Record LinkNode := { url : option string }.

(** A JavaScript string used as a condition: the empty string is falsy. *)
Definition truthy (s : string) : bool := negb (Str.is_empty s).

Definition or_else (s d : string) : string := if truthy s then s else d.

Definition docPath (options : Options) : string :=
  "/" +:+ Str.join "/" (slug options).

Definition currentDir (options : Options) : string :=
  if isIndex options
  then or_else (docPath options) "/"
  else Path.dirname (or_else (docPath options) "/").

(** The body of the visitor once the two early returns are passed. *)
Definition rewriteUrl (options : Options) (node_url : string) : string :=
  let basePath := or_else (basePath options) "" in
  let resolved := Path.normalize (Path.join [currentDir options; node_url]) in
  let clean := Re.remove_suffix Re.md_extension resolved in
  let clean :=
    if Str.endsWith clean "/index"
    then Re.remove_suffix Re.slash_index clean
    else clean in
  let suffix := Re.remove_leading_slash clean in
  if truthy suffix then basePath +:+ "/" +:+ suffix
  else or_else basePath "/".

(** The visitor that [remarkRewriteLinks] applies to every [link] node. *)
Definition visitLink (options : Options) (node : LinkNode) : LinkNode :=
  match url node with
  | None => node
  | Some u =>
      if negb (truthy u) then node
      else if isExternal u then node
      else {| url := Some (rewriteUrl options u) |}
  end.

(** A node of the Markdown tree: its type, what the plugin reads of it, and
    its children. *)
#[local] Unset Elimination Schemes.
Inductive Node := {
  node_type : string;
  node_link : LinkNode;
  node_children : list Node
}.
#[local] Set Elimination Schemes.

(** [remarkRewriteLinks(options)]: [visit(tree, "link", ...)] calls the
    visitor on every node of type [link], at every depth. *)
Fixpoint remarkRewriteLinks (options : Options) (tree : Node) : Node :=
  match tree with
  | Build_Node type link children =>
      Build_Node type
        (if String.eqb type "link" then visitLink options link else link)
        (List.map (remarkRewriteLinks options) children)
  end.

End RemarkLinks.

(** ** Exceptions and the file system *)

Inductive JsError :=
| ENOENT (path : string)   (** no such file or directory *)
| EISDIR (path : string)   (** the path names a directory *)
| LibraryError (message : string).

Inductive Completion (A : Type) :=
| Normal (value : A)
| Throw (error : JsError).
Arguments Normal {A} value.
Arguments Throw {A} error.

Global Instance Completion_ret : MRet Completion := @Normal.

Global Instance Completion_bind : MBind Completion :=
  fun A B (k : A -> Completion B) (c : Completion A) =>
    match c with
    | Normal a => k a
    | Throw e => Throw e
    end.

Inductive FsEntry :=
| File (contents : string)
| Directory.

(** A file system maps the absolute, normalized paths that exist to what
    they hold. *)
Abbreviation FileSystem := (gmap string FsEntry).

Module Fs.

(** [fs.existsSync] *)
Definition existsSync (fs : FileSystem) (path : string) : bool :=
  match fs !! path with
  | Some _ => true
  | None => false
  end.

(** [fs.readFileSync(path, "utf8")] *)
Definition readFileSync (fs : FileSystem) (path : string) : Completion string :=
  match fs !! path with
  | Some (File contents) => Normal contents
  | Some Directory => Throw (EISDIR path)
  | None => Throw (ENOENT path)
  end.

End Fs.

(** ** [lib/locales.ts] and [lib/constants.ts] *)

Inductive Locale := en | zh | ja.

Global Instance Locale_eq_dec : EqDecision Locale.
Proof. solve_decision. Defined.

Definition DEFAULT_LOCALE : Locale := en.

Definition LOCALE_KEYS : list Locale := [en; zh; ja].

Definition localeList : list Locale := LOCALE_KEYS.

Definition localeKey (locale : Locale) : string :=
  match locale with
  | en => "en"
  | zh => "zh"
  | ja => "ja"
  end.

(** [isLocale] narrows a string to a key of [LOCALES]: [value in LOCALES],
    the property names that every object inherits left aside. *)
Definition isLocale (value : string) : option Locale :=
  List.find (fun l => String.eqb (localeKey l) value) LOCALE_KEYS.

Definition localeDir (locale : Locale) : string :=
  match locale with
  | en => "docs"
  | zh => "docs/i18n/zh-CN"
  | ja => "docs/i18n/ja-JP"
  end.

Definition localeBasePath (locale : Locale) : string :=
  if decide (locale = DEFAULT_LOCALE) then "" else "/" +:+ localeKey locale.

(** ** Numbers

    The sidebar takes the numbers of the front matter as they are, tests
    them with [!==] and subtracts them to read the sign of the difference.
    The two zeros, which [===] does not tell apart and whose differences
    are zero, are one value. *)

Inductive number :=
| NaN
| Infinity (negative : bool)
| Finite (value : Q).

Module Number.

Definition of_Z (z : Z) : number := Finite (inject_Z z).

(** How [a] stands to [b]; [NaN] stands in no order to any number, itself
    included. *)
Definition compare (a b : number) : option comparison :=
  match a, b with
  | NaN, _ | _, NaN => None
  | Infinity s, Infinity t =>
      Some (if s then if t then Eq else Lt else if t then Gt else Eq)
  | Infinity s, Finite _ => Some (if s then Lt else Gt)
  | Finite _, Infinity t => Some (if t then Gt else Lt)
  | Finite p, Finite q => Some (p ?= q)%Q
  end.

(** [a === b]; [a !== b] is its negation. *)
Definition strict_eq (a b : number) : bool :=
  match compare a b with
  | Some Eq => true
  | _ => false
  end.

(** [a < b] *)
Definition lt (a b : number) : bool :=
  match compare a b with
  | Some Lt => true
  | _ => false
  end.

(** [a <= b] *)
Definition le (a b : number) : bool :=
  match compare a b with
  | Some Lt | Some Eq => true
  | _ => false
  end.

(** [a - b]. The difference of two finite numbers is rounded to a binary64
    value: to a finite value of the same sign, which is zero for equal
    numbers only since the format has the subnormal values, or, when it is
    too large, to the infinity of that sign. The exact difference stands
    for it: its sign is what a sort reads of it. *)
Definition sub (a b : number) : number :=
  match a, b with
  | NaN, _ | _, NaN => NaN
  | Infinity s, Infinity t => if Bool.eqb s t then NaN else Infinity s
  | Infinity s, Finite _ => Infinity s
  | Finite _, Infinity t => Infinity (negb t)
  | Finite p, Finite q => Finite (p - q)%Q
  end.

End Number.

(** An integer literal of the source is the number of that value. *)
Coercion Number.of_Z : Z >-> number.

Definition DEFAULT_ORDER : number := 9999.

(** ** [github-slugger] *)

Module GithubSlugger.

(** The characters that the package's [regex] removes, below U+0100:
    everything but letters, digits, the underscore, the hyphen and the
    space. *)
Definition removed (c : ascii) : bool :=
  Char.in_range 0 31 c || Char.in_range 33 44 c ||
  (Char.code c =? 46)%N || (Char.code c =? 47)%N ||
  Char.in_range 58 64 c || Char.in_range 91 94 c || (Char.code c =? 96)%N ||
  Char.in_range 123 169 c || Char.in_range 171 180 c ||
  Char.in_range 182 185 c || Char.in_range 187 191 c ||
  (Char.code c =? 215)%N || (Char.code c =? 247)%N.

Fixpoint strip (s : string) : string :=
  match s with
  | EmptyString => EmptyString
  | String c s' => if removed c then strip s' else String c (strip s')
  end.

(** The stateless [slug(value)]:
    [value.toLowerCase().replace(regex, '').replace(/ /g, '-')]. *)
Definition slugify (value : string) : string :=
  Str.replaceAll " " "-" (strip (Str.toLowerCase value)).

(** The state of a slugger: [this.occurrences]. *)
Abbreviation Occurrences := (gmap string nat).

Definition reset : Occurrences := ∅.

Definition numbered (originalSlug : string) (n : nat) : string :=
  originalSlug +:+ "-" +:+ pretty n.

(** The [while] loop of [slug]: as long as [result] is taken, the counter of
    the original slug is incremented and appended. [fuel] bounds the number
    of iterations. *)
Fixpoint slug_loop (fuel : nat) (occurrences : Occurrences)
    (originalSlug result : string) : option (string * Occurrences) :=
  match occurrences !! result with
  | None => Some (result, <[result := O]> occurrences)
  | Some _ =>
      match fuel with
      | O => None
      | S fuel' =>
          let n := S (occurrences !!! originalSlug) in
          slug_loop fuel' (<[originalSlug := n]> occurrences) originalSlug
            (numbered originalSlug n)
      end
  end.

(** [slugger.slug(value)]. One iteration more than there are recorded slugs
    always reaches the end of the loop ([SluggerFacts.slug_spec]); the value
    taken otherwise is never used. *)
Definition slug (occurrences : Occurrences) (value : string)
  : string * Occurrences :=
  let originalSlug := slugify value in
  match slug_loop (S (size occurrences)) occurrences originalSlug originalSlug with
  | Some r => r
  | None => (originalSlug, occurrences)
  end.

End GithubSlugger.

(** ** [docs.ts]: the data model *)

(** What the code reads of a front matter. [fm_sidebar_position] is the
    [sidebar_position] that [typeof] finds to be a number, as it finds
    [NaN] and the infinities too. *)
Record FrontMatterData := {
  fm_title : option string;
  fm_sidebar_label : option string;
  fm_sidebar_position : option number
}.

Record DocMeta := {
  meta_title : string;
  meta_slug : list string;
  meta_order : number;
  meta_isIndex : bool
}.

Record TocItem := {
  toc_id : string;
  toc_text : string;
  toc_level : nat
}.

Record DocData := {
  doc_title : string;
  doc_slug : list string;
  doc_content : string;
  doc_data : FrontMatterData;
  doc_toc : list TocItem;
  doc_isIndex : bool
}.

#[local] Unset Elimination Schemes.
Inductive NavItem := {
  nav_title : string;
  nav_href : option string;
  nav_order : number;
  nav_children : option (list NavItem);
  nav_segment : option string
}.
#[local] Set Elimination Schemes.

(** ** [docs.ts]: titles and the table of contents *)

Module Toc.

Definition hash : ascii := "#"%char.
Definition is_hash (c : ascii) : bool := Ascii.eqb c hash.

(** [content.split(/\r?\n/)]: a line ends at a line feed, and a carriage
    return right before it belongs to the separator. *)
Fixpoint split_lines (content : string) : list string :=
  match content with
  | EmptyString => [EmptyString]
  | String c rest =>
      let cons_char tail :=
        match tail with
        | [] => [String c EmptyString]
        | h :: t => String c h :: t
        end in
      if Ascii.eqb c Char.LF then EmptyString :: split_lines rest
      else if Ascii.eqb c Char.CR then
        match rest with
        | String d rest' =>
            if Ascii.eqb d Char.LF then EmptyString :: split_lines rest'
            else cons_char (split_lines rest)
        | EmptyString => cons_char (split_lines rest)
        end
      else cons_char (split_lines rest)
  end.

(** [/^(#{2,3})\s+(.+)$/.exec(line)]: three hashes or else two at the start
    of the line, then white space, as much as possible first, then at least
    one character up to the end of the line, none of them a line
    terminator. The result is [match[1].length] and [match[2]]. *)
Definition heading (line : string) : option (nat * string) :=
  Re.first_success
    (fun hashes =>
       let marker := Str.take hashes line in
       if (Str.len marker =? hashes)%nat && Str.all is_hash marker then
         let rest := Str.drop hashes line in
         Re.first_success
           (fun spaces =>
              let text := Str.drop spaces rest in
              if negb (Str.is_empty text) && Str.all Char.is_dot text
              then Some (hashes, text) else None)
           (Re.greedy (Str.run Char.is_space rest) 1)
       else None)
    (Re.greedy 3 2).

(** [/^#\s+(.+)$/m] tried at one position: a hash, white space, as much as
    possible first, then the rest of the line, which must not be empty. *)
Definition title_here (s : string) : option string :=
  match s with
  | String c rest =>
      if is_hash c then
        Re.first_success
          (fun spaces =>
             let tail := Str.drop spaces rest in
             let n := Str.run Char.is_dot tail in
             if (1 <=? n)%nat then Some (Str.take n tail) else None)
          (Re.greedy (Str.run Char.is_space rest) 1)
      else None
  | EmptyString => None
  end.

(** The search of [/^#\s+(.+)$/m] through the content: under the [m] flag
    [^] holds at the start and after every line terminator. *)
Fixpoint title_search (line_start : bool) (s : string) : option string :=
  match (if line_start then title_here s else None) with
  | Some t => Some t
  | None =>
      match s with
      | EmptyString => None
      | String c s' => title_search (Char.is_line_terminator c) s'
      end
  end.

(** [extractTitle] *)
Definition extractTitle (content : string) : option string :=
  match title_search true content with
  | Some t => Some (Str.trim t)
  | None => None
  end.

(** [unescapeTitle] *)
Definition unescapeTitle (value : string) : string :=
  Str.replaceAll "&amp;" "&"
    (Str.replaceAll "&gt;" ">"
      (Str.replaceAll "&lt;" "<"
        (Str.replaceAll "\]" "]"
          (Str.replaceAll "\[" "["
            (Str.replaceAll "\>" ">"
              (Str.replaceAll "\<" "<" value)))))).

(** One iteration of the loop of [extractToc]: the slugger and the items
    collected so far, and what they are after [line]. *)
Definition extractToc_step (state : GithubSlugger.Occurrences * list TocItem)
    (line : string) : GithubSlugger.Occurrences * list TocItem :=
  let '(slugger, items) := state in
  match heading line with
  | None => state
  | Some (level, raw) =>
      let textRaw := Str.trim (Re.remove_suffix Re.spaces_hash raw) in
      let text := unescapeTitle textRaw in
      let '(id, slugger') := GithubSlugger.slug slugger text in
      (slugger', items ++ [{| toc_id := id; toc_text := text; toc_level := level |}])
  end.

(** [extractToc] *)
Definition extractToc (content : string) : list TocItem :=
  let slugger := GithubSlugger.reset in
  let items := [] in
  let lines := split_lines content in
  snd (List.fold_left extractToc_step lines (slugger, items)).

End Toc.

(** ** [docs.ts]: slugs, documents and include directives *)

(** A line that [console.warn] printed: the message and the error. *)
Record ConsoleWarning := {
  warn_message : string;
  warn_error : JsError
}.

Module Include.

(** [/<!--\s*INCLUDE\s+(.+?)\s*-->/] tried at the start of [s]: the opening
    [<!--], white space (as much as possible first), [INCLUDE], at least
    one white-space character (as many as possible first), a capture of at
    least one character that is no line terminator (as few as possible
    first), white space again and the closing [-->]. The result is
    [match[0]] and [match[1]]. *)
Definition directive_here (s : string) : option (string * string) :=
  if negb (Str.startsWith s "<!--") then None
  else
    let r1 := Str.drop 4 s in
    Re.first_success (fun a =>
      let r2 := Str.drop a r1 in
      if negb (Str.startsWith r2 "INCLUDE") then None
      else
        let r3 := Str.drop 7 r2 in
        Re.first_success (fun b =>
          let r4 := Str.drop b r3 in
          Re.first_success (fun m =>
            let r5 := Str.drop m r4 in
            Re.first_success (fun c =>
              let r6 := Str.drop c r5 in
              if Str.startsWith r6 "-->"
              then Some (Str.take (4 + a + 7 + b + m + c + 3) s, Str.take m r4)
              else None)
              (Re.greedy (Str.run Char.is_space r5) 0))
            (Re.lazy 1 (Str.run Char.is_dot r4)))
          (Re.greedy (Str.run Char.is_space r3) 1))
      (Re.greedy (Str.run Char.is_space r1) 0).

(** The matches that the [exec] loop of the [g]-flagged expression walks
    through, left to right in [content]; [skip] is what is left of the
    match before [lastIndex]. *)
Fixpoint directives_from (skip : nat) (content : string)
  : list (string * string) :=
  match content with
  | EmptyString => []
  | String _ rest =>
      match skip with
      | S k => directives_from k rest
      | O =>
          match directive_here content with
          | Some m => m :: directives_from (Str.len (fst m) - 1) rest
          | None => directives_from O rest
          end
      end
  end.

Definition directives (content : string) : list (string * string) :=
  directives_from O content.

End Include.

Section Docs.

(** [process.cwd()], the file system and [gray-matter]'s [matter], which
    splits a source into its frontmatter and its body. *)
Variable cwd : string.
Variable fs : FileSystem.
Variable matter : string -> Completion (FrontMatterData * string).

(** [docsRoot] *)
Definition docsRoot (locale : Locale) : string :=
  Path.resolve cwd [cwd; "taffy-layout"; localeDir locale].

(** [readFileSyncSafe] *)
Definition readFileSyncSafe (filePath : string) : Completion string :=
  Fs.readFileSync fs filePath.

(** [slugFromFile] *)
Definition slugFromFile (root filePath : string) : list string :=
  let rel := Str.replaceAll "\" "/" (Path.relative cwd root filePath) in
  let withoutExt := Re.remove_suffix Re.md_or_mdx_extension rel in
  let parts := Str.filter_nonempty (Str.split Path.slash withoutExt) in
  match last parts with
  | Some final => if String.eqb final "index" then List.removelast parts else parts
  | None => parts
  end.

(** [/\b\w/g] with the upper-casing callback: a word character is replaced
    when no word character stands before it. *)
Fixpoint capitalize_words (after_word : bool) (s : string) : string :=
  match s with
  | EmptyString => EmptyString
  | String c s' =>
      String (if Char.is_word c && negb after_word then Char.to_upper_word c else c)
             (capitalize_words (Char.is_word c) s')
  end.

(** [titleFromSlug] *)
Definition titleFromSlug (slug : list string) : string :=
  let fallback := List.last slug "Home" in
  capitalize_words false
    (Str.replaceAll "_" " " (Str.replaceAll "-" " " fallback)).

(** [docHref] *)
Definition docHref (locale : Locale) (slug : list string) : string :=
  let base := localeBasePath locale +:+ "/docs" in
  match slug with
  | [] => base
  | _ => base +:+ "/" +:+ Str.join "/" slug
  end.

(** [resolveDocPath]: the candidates, in the order in which they are tried. *)
Definition docCandidates (locale : Locale) (slug : list string) : list string :=
  let root := docsRoot locale in
  let slugPath := Str.join "/" slug in
  let base := Path.join [root; slugPath] in
  [ Path.join [base; "index.md"];
    Path.join [base; "index.mdx"];
    base +:+ ".md";
    base +:+ ".mdx" ].

Definition resolveDocPath (locale : Locale) (slug : list string) : option string :=
  List.find (Fs.existsSync fs) (docCandidates locale slug).

(** [getLocaleWarning]. Text beyond U+00FF is carried in its UTF-8 bytes. *)
Definition getLocaleWarning (locale : Locale) : option string :=
  if decide (locale = DEFAULT_LOCALE) then None
  else
    let warning :=
      match locale with
      | en => ""
      | zh => "> **注意：** Changelog 仅提供英文版本以保持准确性和一致性。"
      | ja => "> **注意：** Changelog は英語版のみ提供されています。"
      end in
    if RemarkLinks.truthy warning then Some warning else None.

(** [try { ... } catch (error) { ... }] *)
Definition try_catch {A : Type} (body : Completion A)
    (handler : JsError -> Completion A) : Completion A :=
  match body with
  | Normal a => Normal a
  | Throw e => handler e
  end.

(** The body of the [while] loop of [processIncludeDirectives] for one
    match: [result] and the console before, and after. *)
Definition include_step (currentFilePath : string)
    (state : string * list ConsoleWarning) (m : string * string)
  : Completion (string * list ConsoleWarning) :=
  let '(result, console) := state in
  let includePath := Str.trim (snd m) in
  let resolvedPath :=
    Path.resolve cwd [Path.dirname currentFilePath; includePath] in
  try_catch
    (includedContent ← readFileSyncSafe resolvedPath;
     mret (Str.replace result (fst m) includedContent, console))
    (fun error =>
       mret (result,
             console ++ [{| warn_message := "Failed to include file: " +:+ resolvedPath;
                            warn_error := error |}])).

Fixpoint include_loop (currentFilePath : string)
    (matches : list (string * string)) (state : string * list ConsoleWarning)
  : Completion (string * list ConsoleWarning) :=
  match matches with
  | [] => mret state
  | m :: rest =>
      state' ← include_step currentFilePath state m;
      include_loop currentFilePath rest state'
  end.

(** [processIncludeDirectives], with what it printed on the console. *)
Definition processIncludeDirectives (content currentFilePath : string)
  : Completion (string * list ConsoleWarning) :=
  include_loop currentFilePath (Include.directives content) (content, []).

(** [a || b] where [a] is an optional string: [undefined] and the empty
    string are falsy. *)
Definition or_string (a : option string) (b : string) : string :=
  match a with
  | Some s => if RemarkLinks.truthy s then s else b
  | None => b
  end.

Definition isChangelogSlug (slug : list string) : bool :=
  match slug with
  | [s] => String.eqb s "changelog"
  | _ => false
  end.

Definition isIndexFile (filePath : string) : bool :=
  Str.startsWith (Str.toLowerCase (Path.basename filePath)) "index.".

Definition resolveTitle (data : FrontMatterData) (content : string)
    (slug : list string) : string :=
  let titleRaw :=
    or_string (fm_title data)
      (or_string (fm_sidebar_label data)
         (or_string (Toc.extractTitle content) (titleFromSlug slug))) in
  Toc.unescapeTitle titleRaw.

(** [getDoc]; the result [None] is the [null] of the source. What
    [processIncludeDirectives] printed stays on the console. *)
Definition getDoc (locale : Locale) (slug : list string)
  : Completion (option DocData) :=
  let isChangelog := isChangelogSlug slug in
  if isChangelog then
    let filePath := Path.resolve cwd [cwd; "taffy-layout"; "CHANGELOG.md"] in
    source ← readFileSyncSafe filePath;
    let data := {| fm_title := Some "Changelog"; fm_sidebar_label := None;
                   fm_sidebar_position := None |} in
    let content :=
      if decide (locale = DEFAULT_LOCALE) then source
      else match getLocaleWarning locale with
           | Some warning =>
               warning +:+ String Char.LF (String Char.LF "---")
                 +:+ String Char.LF (String Char.LF source)
           | None => source
           end in
    mret (Some {| doc_title := resolveTitle data content slug;
                  doc_slug := slug;
                  doc_content := content;
                  doc_data := data;
                  doc_toc := Toc.extractToc content;
                  doc_isIndex := isIndexFile filePath |})
  else
    match resolveDocPath locale slug with
    | None => mret None
    | Some filePath =>
        source ← readFileSyncSafe filePath;
        parsed ← matter source;
        let data := fst parsed in
        let content := snd parsed in
        processed ← processIncludeDirectives content filePath;
        let processedContent := fst processed in
        mret (Some {| doc_title := resolveTitle data content slug;
                      doc_slug := slug;
                      doc_content := processedContent;
                      doc_data := data;
                      doc_toc := Toc.extractToc processedContent;
                      doc_isIndex := isIndexFile filePath |})
    end.

End Docs.

(** ** [docs.ts]: the sidebar *)

Section Sidebar.

(** [String.prototype.localeCompare]: negative, zero or positive. *)
Variable localeCompare : string -> string -> Z.

(** The comparator handed to [items.sort]. *)
Definition compareNav (a b : NavItem) : number :=
  if negb (Number.strict_eq (nav_order a) (nav_order b))
  then Number.sub (nav_order a) (nav_order b)
  else Number.of_Z (localeCompare (nav_title a) (nav_title b)).

(** [SortCompare] of [Array.prototype.sort]: what the comparator answers,
    and zero when it answers [NaN]. *)
Definition SortCompare (x y : NavItem) : number :=
  match compareNav x y with
  | NaN => 0
  | v => v
  end.

(** [Array.prototype.sort] with a consistent comparator is the stable sort:
    an element goes before the first element that it does not follow. With
    a comparator that is not consistent, as one that answers [NaN] may be,
    the language leaves the order to the engine. V8 first looks for the
    run that the list starts with, comparing each element with the one
    before it, and is done when the run is the whole list: a list in which
    the comparison of any two neighbours, either way, answers zero comes
    back as it is, from V8 and from the sort here. *)
Fixpoint sort_insert (x : NavItem) (sorted : list NavItem) : list NavItem :=
  match sorted with
  | [] => [x]
  | y :: rest =>
      if Number.le (SortCompare x y) 0 then x :: sorted
      else y :: sort_insert x rest
  end.

Fixpoint array_sort (items : list NavItem) : list NavItem :=
  match items with
  | [] => []
  | x :: rest => sort_insert x (array_sort rest)
  end.

(** [sortTree] on the children of one node. *)
Fixpoint sortNode (item : NavItem) : NavItem :=
  match item with
  | Build_NavItem title href order children segment =>
      Build_NavItem title href order
        (match children with
         | Some items => Some (array_sort (List.map sortNode items))
         | None => None
         end)
        segment
  end.

(** [sortTree]: the list is sorted and so is every list of children below
    it. The comparator reads the title and the order of an item, which the
    recursion keeps, so that sorting the children first gives the list that
    the source gets by sorting them afterwards
    ([NavFacts.sortTree_sort_first]). *)
Definition sortTree (items : list NavItem) : list NavItem :=
  array_sort (List.map sortNode items).

Variable locale : Locale.

Definition ensure_children (item : NavItem) : NavItem :=
  match nav_children item with
  | Some _ => item
  | None =>
      {| nav_title := nav_title item; nav_href := nav_href item;
         nav_order := nav_order item; nav_children := Some [];
         nav_segment := nav_segment item |}
  end.

Definition set_children (item : NavItem) (children : list NavItem) : NavItem :=
  {| nav_title := nav_title item; nav_href := nav_href item;
     nav_order := nav_order item; nav_children := Some children;
     nav_segment := nav_segment item |}.

Definition new_section (segment : string) : NavItem :=
  {| nav_title := titleFromSlug [segment]; nav_href := None;
     nav_order := DEFAULT_ORDER; nav_children := Some [];
     nav_segment := Some segment |}.

(** [current.children.find(...)] followed by the mutation of what it found:
    the first item that satisfies [p] is replaced by its image. *)
Fixpoint update_first (p : NavItem -> bool) (f : NavItem -> NavItem)
    (items : list NavItem) : option (list NavItem) :=
  match items with
  | [] => None
  | x :: rest =>
      if p x then Some (f x :: rest)
      else match update_first p f rest with
           | Some rest' => Some (x :: rest')
           | None => None
           end
  end.

Definition has_segment (segment : string) (child : NavItem) : bool :=
  match nav_segment child with
  | Some s => String.eqb s segment
  | None => false
  end.

(** What the loop body does with [current] once the segments are walked:
    an index document claims the node, any other document becomes a leaf
    among its children. *)
Definition place (doc : DocMeta) (current : NavItem) : NavItem :=
  if meta_isIndex doc then
    {| nav_title := meta_title doc;
       nav_href := Some (docHref locale (meta_slug doc));
       nav_order := meta_order doc;
       nav_children := nav_children current;
       nav_segment := nav_segment current |}
  else
    set_children current
      (default [] (nav_children current) ++
       [{| nav_title := meta_title doc;
           nav_href := Some (docHref locale (meta_slug doc));
           nav_order := meta_order doc;
           nav_children := None;
           nav_segment := last (meta_slug doc) |}]).

(** [doc.slug.forEach(...)] from the segment at hand on, and what follows
    it, as the new value of [current]'s subtree. *)
Fixpoint walk (doc : DocMeta) (segments : list string) (current : NavItem)
  : NavItem :=
  match segments with
  | [] => place doc current
  | segment :: rest =>
      let current := ensure_children current in
      let isLeaf := match rest with [] => true | _ => false end in
      if isLeaf && negb (meta_isIndex doc) then place doc current
      else
        let children := default [] (nav_children current) in
        match update_first (has_segment segment) (walk doc rest) children with
        | Some children' => set_children current children'
        | None =>
            set_children current
              (children ++ [walk doc rest (new_section segment)])
        end
  end.

Definition sidebar_root : NavItem :=
  {| nav_title := "root"; nav_href := None; nav_order := 0;
     nav_children := Some []; nav_segment := None |}.

Definition home_item (doc : DocMeta) : NavItem :=
  {| nav_title := meta_title doc;
     nav_href := Some (if decide (locale = DEFAULT_LOCALE) then "/"
                       else localeBasePath locale +:+ "/");
     nav_order := meta_order doc;
     nav_children := None;
     nav_segment := Some "" |}.

(** One iteration of [for (const doc of docs)]: [root] and [home]. *)
Definition sidebar_step (state : NavItem * option NavItem) (doc : DocMeta)
  : NavItem * option NavItem :=
  let '(root, home) := state in
  if bool_decide (head (meta_slug doc) = Some "intro") then state
  else if bool_decide (meta_slug doc = []) && meta_isIndex doc
  then (root, Some (home_item doc))
  else (walk doc (meta_slug doc) root, home).

(** [getSidebar], from what [getDocMetaList(locale)] resolved to. *)
Definition getSidebar (docs : list DocMeta) : list NavItem :=
  let '(root, home) := List.fold_left sidebar_step docs (sidebar_root, None) in
  let navItems := sortTree (default [] (nav_children root)) in
  match home with
  | Some h => h :: navItems
  | None => navItems
  end.

End Sidebar.

(** ** The docs pages: [app/docs/[[...slug]]/page.tsx] and
       [app/[locale]/docs/[[...slug]]/page.tsx] *)

(** [getUi(locale).missingTranslation]. Text beyond U+00FF is carried in its
    UTF-8 bytes. *)
Definition missingTranslation (locale : Locale) : string :=
  match locale with
  | en => "This page is not yet translated. Showing English."
  | zh => "该页面暂无翻译，已显示英文版本。"
  | ja => "このページの翻訳はまだありません。英語版を表示しています。"
  end.

(** The options of [renderMdx]. *)
Record RenderOptions := {
  render_basePath : string;
  render_slug : list string;
  render_isIndex : bool;
  render_useMarkdownOnly : bool
}.

(** The props of [DocShell]; [shell_notice] is [None] for [undefined]. *)
Record DocShellProps (ReactNode : Type) := {
  shell_locale : Locale;
  shell_toc : list TocItem;
  shell_slug : list string;
  shell_notice : option string;
  shell_children : ReactNode
}.
Arguments shell_locale {ReactNode} _.
Arguments shell_toc {ReactNode} _.
Arguments shell_slug {ReactNode} _.
Arguments shell_notice {ReactNode} _.
Arguments shell_children {ReactNode} _.

(** What a page component comes to: [notFound()] and [redirect()] leave the
    component, an exception fails it, and otherwise a [DocShell] element is
    returned, inside a [div] that carries the search filter on the default
    page. *)
Inductive PageOutcome (ReactNode : Type) :=
| NotFound
| Redirect (url : string)
| Failed (error : JsError)
| Shell (pagefindFilter : option string) (props : DocShellProps ReactNode).
Arguments NotFound {ReactNode}.
Arguments Redirect {ReactNode} url.
Arguments Failed {ReactNode} error.
Arguments Shell {ReactNode} pagefindFilter props.

Section Pages.

Variable ReactNode : Type.

(** [getDoc] and [renderMdx], as the pages call them. *)
Variable getDoc : Locale -> list string -> Completion (option DocData).
Variable renderMdx : string -> RenderOptions -> Completion ReactNode.

Definition isIntroSlug (slug : list string) : bool :=
  match slug with
  | [s] => String.eqb s "intro"
  | _ => false
  end.

(** [slug.length ? slug : ["intro"]] *)
Definition resolveSlug (slug : list string) : list string :=
  match slug with
  | [] => ["intro"]
  | _ => slug
  end.

Definition isApiSlug (resolvedSlug : list string) : bool :=
  bool_decide (head resolvedSlug = Some "api").

(** [await] of a call that may throw, inside a page. *)
Definition await {A : Type} (c : Completion A)
    (k : A -> PageOutcome ReactNode) : PageOutcome ReactNode :=
  match c with
  | Normal a => k a
  | Throw e => Failed e
  end.

(** [Page] of the default locale; an absent [slug] parameter is [None]. *)
Definition DefaultPage (slug_param : option (list string))
  : PageOutcome ReactNode :=
  let slug := default [] slug_param in
  if isIntroSlug slug then Redirect "/docs"
  else
    let resolvedSlug := resolveSlug slug in
    await (getDoc DEFAULT_LOCALE resolvedSlug) (fun doc =>
    match doc with
    | None => NotFound
    | Some doc =>
        let isApi := isApiSlug resolvedSlug in
        await (renderMdx (doc_content doc)
                 {| render_basePath := "/docs";
                    render_slug := resolvedSlug;
                    render_isIndex := doc_isIndex doc;
                    render_useMarkdownOnly := isApi |}) (fun content =>
        Shell (Some "lang:en")
          {| shell_locale := DEFAULT_LOCALE;
             shell_toc := doc_toc doc;
             shell_slug := resolvedSlug;
             shell_notice := None;
             shell_children := content |})
    end).

(** [primaryDoc || fallbackDoc] *)
Definition or_doc (a b : option DocData) : option DocData :=
  match a with
  | Some _ => a
  | None => b
  end.

(** [Page] of the other locales. *)
Definition LocalePage (locale_param : string) (slug_param : option (list string))
  : PageOutcome ReactNode :=
  match isLocale locale_param with
  | None => NotFound
  | Some locale =>
      if decide (locale = DEFAULT_LOCALE) then NotFound
      else
        let slug := default [] slug_param in
        if isIntroSlug slug then Redirect ("/" +:+ locale_param +:+ "/docs")
        else
          let resolvedSlug := resolveSlug slug in
          let isApi := isApiSlug resolvedSlug in
          await (getDoc locale resolvedSlug) (fun primaryDoc =>
          await (getDoc DEFAULT_LOCALE resolvedSlug) (fun fallbackDoc =>
          let doc := if isApi then fallbackDoc else or_doc primaryDoc fallbackDoc in
          match doc with
          | None => NotFound
          | Some doc =>
              let notice :=
                if isApi || (bool_decide (primaryDoc = None)
                             && negb (bool_decide (fallbackDoc = None)))
                then Some (missingTranslation locale) else None in
              let basePath := "/" +:+ locale_param +:+ "/docs" in
              await (renderMdx (doc_content doc)
                       {| render_basePath := basePath;
                          render_slug := resolvedSlug;
                          render_isIndex := doc_isIndex doc;
                          render_useMarkdownOnly := isApi |}) (fun content =>
              Shell None
                {| shell_locale := locale;
                   shell_toc := doc_toc doc;
                   shell_slug := resolvedSlug;
                   shell_notice := notice;
                   shell_children := content |})
          end))
  end.

End Pages.

(** ** [docs.ts]: the list of documents *)

(** [MD_EXTENSIONS] of [lib/constants.ts] *)
Definition MD_EXTENSIONS : list string := [".md"; ".mdx"].

(** [isIgnoredPath] *)
Definition isIgnoredPath (locale : Locale) (relativePath : string) : bool :=
  let normalized := Str.toLowerCase relativePath in
  if String.eqb normalized "readme.md" ||
     String.eqb normalized "readme.mdx" ||
     Str.endsWith normalized "/readme.md" ||
     Str.endsWith normalized "/readme.mdx"
  then true
  else if decide (locale = DEFAULT_LOCALE) then
    if Str.startsWith relativePath "i18n/" then true
    else if Str.startsWith relativePath "public/" then true
    else false
  else false.

(** An entry that [fs.readdirSync(dir, { withFileTypes: true })] reports,
    with what it reports in turn for a directory. A symbolic link, a socket
    and the like are neither a file nor a directory. *)
#[local] Unset Elimination Schemes.
Inductive Dirent :=
| DirentFile (name : string)
| DirentDirectory (name : string) (entries : list Dirent)
| DirentOther (name : string).
#[local] Set Elimination Schemes.

Definition dirent_name (entry : Dirent) : string :=
  match entry with
  | DirentFile name => name
  | DirentDirectory name _ => name
  | DirentOther name => name
  end.

(** [CHANGELOG_TITLES], as [getDocMetaList] repeats them. Text beyond U+00FF
    is carried in its UTF-8 bytes. *)
Definition changelogTitles (locale : Locale) : string :=
  match locale with
  | en => "Changelog"
  | zh => "更新日志"
  | ja => "変更ログ"
  end.

Section DocList.

Variable cwd : string.
Variable fs : FileSystem.
Variable matter : string -> Completion (FrontMatterData * string).

(** The body of the loop of [walk] in [listDocFiles] for one entry of
    [current], and what it pushes on [results]. *)
Fixpoint listDocFiles_entry (locale : Locale) (root current : string)
    (entry : Dirent) : list string :=
  let entryPath := Path.join [current; dirent_name entry] in
  let rel := Str.replaceAll "\" "/" (Path.relative cwd root entryPath) in
  match entry with
  | DirentDirectory _ entries =>
      if isIgnoredPath locale (rel +:+ "/") then []
      else List.flat_map (listDocFiles_entry locale root entryPath) entries
  | DirentFile name =>
      if isIgnoredPath locale rel then []
      else if List.existsb (fun ext => Str.endsWith (Str.toLowerCase name) ext)
                MD_EXTENSIONS
      then [entryPath]
      else []
  | DirentOther _ => []
  end.

(** [walk(current)] *)
Definition listDocFiles_walk (locale : Locale) (root current : string)
    (entries : list Dirent) : list string :=
  List.flat_map (listDocFiles_entry locale root current) entries.

(** [listDocFiles], from what [readdirSync] reports at the root of the
    locale and below it. *)
Definition listDocFiles (locale : Locale) (tree : list Dirent) : list string :=
  let root := docsRoot cwd locale in
  listDocFiles_walk locale root root tree.

(** [getAllDocSlugs] *)
Definition getAllDocSlugs (locale : Locale) (tree : list Dirent)
  : list (list string) :=
  let root := docsRoot cwd locale in
  List.map (fun filePath => slugFromFile cwd root filePath)
    (listDocFiles locale tree).

(** The callback that [getDocMetaList] maps over the files. *)
Definition docMeta (locale : Locale) (root filePath : string)
  : Completion DocMeta :=
  source ← readFileSyncSafe fs filePath;
  parsed ← matter source;
  let data := fst parsed in
  let content := snd parsed in
  let slug := slugFromFile cwd root filePath in
  let isIndex := isIndexFile filePath in
  let title := resolveTitle data content slug in
  let order :=
    match fm_sidebar_position data with
    | Some position => position
    | None => DEFAULT_ORDER
    end in
  if isChangelogSlug slug then
    mret {| meta_title := or_string (Some (changelogTitles locale)) "Changelog";
            meta_slug := slug;
            meta_order := order;
            meta_isIndex := isIndex |}
  else
    mret {| meta_title := title; meta_slug := slug; meta_order := order;
            meta_isIndex := isIndex |}.

(** [getDocMetaList] *)
Definition getDocMetaList (locale : Locale) (tree : list Dirent)
  : Completion (list DocMeta) :=
  let root := docsRoot cwd locale in
  mapM (docMeta locale root) (listDocFiles locale tree).

End DocList.

(** ** [features/docs/lib/navigation.ts] *)

(** The labels of [UiStrings] that the navigation reads. *)
Record UiStrings := {
  ui_docs : string;
  ui_api : string;
  ui_benchmark : string;
  ui_playground : string
}.

(** [NavGroup] of [types/navigation.ts]; the key is the segment of the
    group, which the source casts to a string. *)
Record NavGroup := {
  group_key : option string;
  group_title : string;
  group_href : string
}.

Record NavigationData := {
  groups : list NavItem;
  activeGroup : NavItem;
  navGroups : list NavGroup;
  sidebarItems : list NavItem
}.

Module Navigation.

(** [remapHref]; [None] is [undefined]. *)
Definition remapHref (locale : Locale) (href : option string) : option string :=
  match href with
  | None => href
  | Some h =>
      if negb (RemarkLinks.truthy h) then href
      else if decide (locale = DEFAULT_LOCALE) then href
      else if Str.startsWith h "/docs" then Some (localeBasePath locale +:+ h)
      else href
  end.

(** [remapNavItem] *)
Fixpoint remapNavItem (locale : Locale) (item : NavItem) : NavItem :=
  match item with
  | Build_NavItem title href order children segment =>
      Build_NavItem title (remapHref locale href) order
        (match children with
         | Some items => Some (List.map (remapNavItem locale) items)
         | None => None
         end)
        segment
  end.

(** [{ ...item, title }] *)
Definition with_title (item : NavItem) (title : string) : NavItem :=
  {| nav_title := title; nav_href := nav_href item;
     nav_order := nav_order item; nav_children := nav_children item;
     nav_segment := nav_segment item |}.

Definition segment_is (segment : string) (item : NavItem) : bool :=
  bool_decide (nav_segment item = Some segment).

(** [item.segment && item.segment !== "api"] *)
Definition isDocumentationItem (item : NavItem) : bool :=
  match nav_segment item with
  | Some segment => RemarkLinks.truthy segment && negb (String.eqb segment "api")
  | None => false
  end.

(** [group.children?.[0]?.href] *)
Definition firstChildHref (group : NavItem) : option string :=
  match nav_children group with
  | Some (child :: _) => nav_href child
  | _ => None
  end.

Definition navGroup (group : NavItem) : NavGroup :=
  {| group_key := nav_segment group;
     group_title := nav_title group;
     group_href := or_string (nav_href group) (or_string (firstChildHref group) "#") |}.

(** [buildNavigationGroups]. The active group is an object, which is truthy,
    so that [sidebarItems] is the list of that one group. *)
Definition buildNavigationGroups (locale : Locale)
    (items defaultItems : list NavItem) (ui : UiStrings) (slug : list string)
  : NavigationData :=
  let apiSource := List.find (segment_is "api") defaultItems in
  let apiGroup :=
    match apiSource with
    | Some source => Some (with_title (remapNavItem locale source) (ui_api ui))
    | None => None
    end in
  let documentationChildren := List.filter isDocumentationItem items in
  let documentationGroup :=
    {| nav_title := ui_docs ui;
       nav_href := Some (localeBasePath locale +:+ "/docs");
       nav_order := 0;
       nav_children := Some documentationChildren;
       nav_segment := Some "docs" |} in
  let groups :=
    documentationGroup ::
    option_list apiGroup ++
    [ {| nav_title := ui_benchmark ui;
         nav_href := Some (localeBasePath locale +:+ "/benchmark");
         nav_order := 10;
         nav_children := Some [];
         nav_segment := Some "benchmark" |};
      {| nav_title := ui_playground ui;
         nav_href := Some (localeBasePath locale +:+ "/playground");
         nav_order := 11;
         nav_children := Some [];
         nav_segment := Some "playground" |} ] in
  let activeGroupKey :=
    if bool_decide (head slug = Some "api") then "api" else "docs" in
  let activeGroup :=
    match List.find (segment_is activeGroupKey) groups with
    | Some group => group
    | None => documentationGroup
    end in
  {| groups := groups;
     activeGroup := activeGroup;
     navGroups := List.map navGroup groups;
     sidebarItems := [activeGroup] |}.

End Navigation.

(** ** [lib/locales.ts]: the locale of a location *)

(** [getCurrentLocale], from [window.location.pathname]; without a window
    the path is [None]. *)
Definition getCurrentLocale (pathname : option string) : Locale :=
  match pathname with
  | None => DEFAULT_LOCALE
  | Some pathname =>
      let segments := Str.filter_nonempty (Str.split Path.slash pathname) in
      match head segments with
      | Some possibleLocale =>
          match isLocale possibleLocale with
          | Some locale => locale
          | None => DEFAULT_LOCALE
          end
      | None => DEFAULT_LOCALE
      end
  end.

(** ** The static parameters of the docs pages and the sitemap *)

(** A parameter object of the localized page. *)
Record LocaleParams := {
  param_locale : Locale;
  param_slug : list string
}.

(** An entry of the sitemap; the time is in milliseconds. *)
Record SitemapEntry := {
  sitemap_url : string;
  sitemap_lastModified : Z;
  sitemap_changeFrequency : string;
  sitemap_priority : QArith_base.Q
}.

Definition BASE_URL : string := "https://taffylayout.com".

Section StaticParams.

(** [getAllDocSlugs], as the pages and the sitemap call it, and the clock
    that [new Date()] reads, by the number of readings before. *)
Variable getAllDocSlugs : Locale -> Completion (list (list string)).
Variable clock : nat -> Z.

(** The callback of [combined.forEach]: the keys seen and [params]. *)
Definition pushUnseen (locale : Locale)
    (state : gset string * list LocaleParams) (slug : list string)
  : gset string * list LocaleParams :=
  let '(seen, params) := state in
  let key := Str.join "/" slug in
  if decide (key ∈ seen) then state
  else ({[ key ]} ∪ seen,
        params ++ [{| param_locale := locale; param_slug := slug |}]).

(** The callback of [locales.forEach]. *)
Definition pushLocale (defaultSlugs : list (list string))
    (params : list LocaleParams) (entry : Locale * list (list string))
  : list LocaleParams :=
  let '(locale, slugs) := entry in
  let combined := slugs ++ defaultSlugs in
  let seen : gset string := ∅ in
  let params := snd (List.fold_left (pushUnseen locale) combined (seen, params)) in
  params ++ [{| param_locale := locale; param_slug := [] |}].

(** [generateStaticParams] of the localized page *)
Definition localeStaticParams : Completion (list LocaleParams) :=
  let locales :=
    List.filter (fun locale => negb (bool_decide (locale = DEFAULT_LOCALE)))
      localeList in
  defaultSlugs ← getAllDocSlugs DEFAULT_LOCALE;
  localeSlugs ← mapM getAllDocSlugs locales;
  mret (List.fold_left (pushLocale defaultSlugs)
          (List.combine locales localeSlugs) []).

(** The entry of one document. *)
Definition sitemapDoc (locale : Locale) (readings : nat) (slug : list string)
  : SitemapEntry :=
  let basePath := localeBasePath locale in
  let path := Str.join "/" slug in
  let suffix := if String.eqb path "intro" then "" else "/" +:+ path in
  {| sitemap_url := BASE_URL +:+ basePath +:+ "/docs" +:+ suffix;
     sitemap_lastModified := clock readings;
     sitemap_changeFrequency := "weekly";
     sitemap_priority := QArith_base.Qmake 4 5 |}.

(** The entry of the home page of one locale. *)
Definition sitemapHome (locale : Locale) (readings : nat) : SitemapEntry :=
  let basePath := localeBasePath locale in
  {| sitemap_url := BASE_URL +:+ or_string (Some basePath) "/";
     sitemap_lastModified := clock readings;
     sitemap_changeFrequency := "weekly";
     sitemap_priority := QArith_base.Qmake 1 1 |}.

(** [sitemap.push] in a loop: each entry reads the clock once more. *)
Definition pushAll {A : Type} (entry : nat -> A -> SitemapEntry)
    (sitemap : list SitemapEntry) (items : list A) : list SitemapEntry :=
  List.fold_left
    (fun sitemap item => sitemap ++ [entry (List.length sitemap) item])
    items sitemap.

(** The second loop of [sitemap], from the locale at hand on. *)
Fixpoint sitemapDocs (locales : list Locale) (sitemap : list SitemapEntry)
  : Completion (list SitemapEntry) :=
  match locales with
  | [] => mret sitemap
  | locale :: rest =>
      slugs ← getAllDocSlugs locale;
      sitemapDocs rest (pushAll (sitemapDoc locale) sitemap slugs)
  end.

(** [sitemap] *)
Definition sitemap : Completion (list SitemapEntry) :=
  let homes :=
    pushAll (fun readings locale => sitemapHome locale readings) [] localeList in
  sitemapDocs localeList homes.

End StaticParams.

(** ** The link rewriter, in the words of its specification *)

Module LinkSpec.

Definition not_slash (c : ascii) : bool := negb (Path.is_slash c).

(** A slug segment: not empty, and without a slash. *)
Definition segment_ok (segment : string) : Prop :=
  segment <> "" /\ Str.all not_slash segment = true.

(** The path of a slug. *)
Definition slug_path (slug : list string) : string :=
  "/" +:+ Str.join "/" slug.

(** The directory of the document: its own slug path when it is an index
    page, else the parent of that path. *)
Definition directory (slug : list string) (isIndex : bool) : string :=
  if isIndex then slug_path slug else Path.dirname (slug_path slug).

(** A trailing [.md] or [.mdx], in any case, is cut. *)
Definition strip_markdown_extension (path : string) : string :=
  if Str.endsWith (Str.toLowerCase path) ".mdx"
  then Str.take (Str.len path - 4) path
  else if Str.endsWith (Str.toLowerCase path) ".md"
  then Str.take (Str.len path - 3) path
  else path.

(** A trailing [/index] is cut. *)
Definition collapse_index (path : string) : string :=
  if Str.endsWith path "/index" then Str.take (Str.len path - 6) path
  else path.

(** The base path goes in front; an empty path is the base path itself,
    or [/] without a base path. *)
Definition prefix_base (basePath path : string) : string :=
  if Str.is_empty path || String.eqb path "/"
  then (if Str.is_empty basePath then "/" else basePath)
  else basePath +:+ path.

Definition rewrite (options : RemarkLinks.Options) (url : string) : string :=
  let dir := directory (RemarkLinks.slug options) (RemarkLinks.isIndex options) in
  prefix_base (RemarkLinks.basePath options)
    (collapse_index
       (strip_markdown_extension
          (Path.normalize (Path.join [dir; url])))).

End LinkSpec.

(** ** The slug deriver, in the words of its specification *)

Module SlugSpec.

(** A segment of a normalized path: not empty, without a slash, and
    neither [.] nor [..]. *)
Definition proper (segment : string) : Prop :=
  LinkSpec.segment_ok segment /\ segment <> "." /\ segment <> "..".

(** The absolute path made of the segments. *)
Definition absolute (segments : list string) : string :=
  "/" +:+ Str.join "/" segments.

(** A path separator: the slash, and the backslash of Windows paths. *)
Definition is_separator (c : ascii) : bool :=
  Ascii.eqb c "/"%char || Ascii.eqb c "\"%char.

(** The relative path, split on path separators. *)
Fixpoint split_path (rel : string) : list string :=
  match rel with
  | EmptyString => [EmptyString]
  | String c rest =>
      if is_separator c then EmptyString :: split_path rest
      else match split_path rest with
           | [] => [String c EmptyString]
           | h :: t => String c h :: t
           end
  end.

(** [f] on the last element of a list. *)
Fixpoint map_last (f : string -> string) (parts : list string) : list string :=
  match parts with
  | [] => []
  | [p] => [f p]
  | p :: rest => p :: map_last f rest
  end.

(** The final segment goes exactly when it is literally [index]. *)
Definition drop_index (parts : list string) : list string :=
  if bool_decide (last parts = Some "index") then List.removelast parts
  else parts.

(** The slug of a root-relative path: split, extension stripped, empty
    segments left out, a final [index] dropped. *)
Definition deriveSlug (rel : string) : list string :=
  drop_index
    (Str.filter_nonempty
       (map_last LinkSpec.strip_markdown_extension (split_path rel))).

(** The same without leaving the empty segments out. *)
Definition deriveSlug_keeping_empty (rel : string) : list string :=
  drop_index (map_last LinkSpec.strip_markdown_extension (split_path rel)).

End SlugSpec.

(** ** The table of contents, in the words of its specification *)

Module TocSpec.

(** The text of a heading: a closing [#] trimmed, escapes undone. *)
Definition heading_text (raw : string) : string :=
  Toc.unescapeTitle (Str.trim (Re.remove_suffix Re.spaces_hash raw)).

(** The level and the text of a line that is a level-2 or level-3 heading. *)
Definition heading_of_line (line : string) : option (nat * string) :=
  match Toc.heading line with
  | Some (level, raw) => Some (level, heading_text raw)
  | None => None
  end.

(** The headings of a body, in source order. *)
Definition headings (body : string) : list (nat * string) :=
  omap heading_of_line (Toc.split_lines body).

(** The id of [item] after the ids [earlier]: the slug of its text when that
    is still free, else that slug with a numeric suffix; never an id that is
    already taken. *)
Definition fresh_id (earlier : list string) (item : TocItem) : Prop :=
  let base := GithubSlugger.slugify (toc_text item) in
  (toc_id item ∉ earlier) /\
  (((base ∉ earlier) /\ toc_id item = base) \/
   ((base ∈ earlier) /\
    exists n, (1 <= n)%nat /\ toc_id item = GithubSlugger.numbered base n)).

(** Every item got its id from the slugger, in order. *)
Inductive Slugged : list TocItem -> Prop :=
| Slugged_nil : Slugged []
| Slugged_snoc items item :
    Slugged items ->
    fresh_id (List.map toc_id items) item ->
    Slugged (items ++ [item]).

Definition level_text (item : TocItem) : nat * string :=
  (toc_level item, toc_text item).

(** What holds of the slugger and the items between two lines: the slugger
    has recorded the ids of the items, no more and no less. *)
Definition step_inv (state : GithubSlugger.Occurrences * list TocItem) : Prop :=
  dom (fst state) = list_to_set (List.map toc_id (snd state)) /\
  Slugged (snd state).

(** [n] hash signs. *)
Fixpoint hashes (n : nat) : string :=
  match n with
  | O => EmptyString
  | S n' => String Toc.hash (hashes n')
  end.

End TocSpec.

(** ** The sidebar, in the words of its specification *)

Module NavSpec.

Section Order.

Variable localeCompare : string -> string -> Z.

(** [a] may stand before [b]: ascending by order, then by title. *)
Definition before (a b : NavItem) : Prop :=
  Number.lt (nav_order a) (nav_order b) = true \/
  (Number.strict_eq (nav_order a) (nav_order b) = true /\
   localeCompare (nav_title a) (nav_title b) <= 0).

(** Every list of children at and below the item is sorted. *)
#[local] Unset Elimination Schemes.
Inductive DeepSorted : NavItem -> Prop :=
| DeepSorted_intro item :
    (forall children,
       nav_children item = Some children ->
       Sorted before children /\ Forall DeepSorted children) ->
    DeepSorted item.
#[local] Set Elimination Schemes.

(** A comparator is consistent when swapping its arguments swaps the sign
    of its result. *)
Definition antisymmetric : Prop :=
  forall a b, Z.sgn (localeCompare b a) = - Z.sgn (localeCompare a b).

End Order.

(** The order of the item and of every item below it is a number that
    stands in the order of the numbers: it is not [NaN]. *)
#[local] Unset Elimination Schemes.
Inductive Comparable : NavItem -> Prop :=
| Comparable_intro item :
    nav_order item <> NaN ->
    (forall children,
       nav_children item = Some children -> Forall Comparable children) ->
    Comparable item.
#[local] Set Elimination Schemes.

(** The item has a link or at least one child. *)
Definition claimed (item : NavItem) : Prop :=
  nav_href item <> None \/
  exists child rest, nav_children item = Some (child :: rest).

(** The item and every item below it has a link or at least one child. *)
#[local] Unset Elimination Schemes.
Inductive Valid : NavItem -> Prop :=
| Valid_intro item :
    claimed item ->
    (forall children, nav_children item = Some children -> Forall Valid children) ->
    Valid item.
#[local] Set Elimination Schemes.

(** The document that becomes the home node. *)
Definition is_home (doc : DocMeta) : bool :=
  bool_decide (meta_slug doc = []) && meta_isIndex doc.

(** The home node of a list of documents: the last such document wins. *)
Definition home_of (locale : Locale) (docs : list DocMeta) : option NavItem :=
  match last (List.filter is_home docs) with
  | Some doc => Some (home_item locale doc)
  | None => None
  end.

End NavSpec.

(** ** Include directives, in the words of their specification *)

Module IncludeSpec.

Section Targets.

Variable cwd : string.
Variable fs : FileSystem.
Variable sourceFilePath : string.

(** The file that a directive names: its path, resolved against the
    directory of the including file. *)
Definition target (directive : string * string) : string :=
  Path.resolve cwd [Path.dirname sourceFilePath; Str.trim (snd directive)].

Definition readable (directive : string * string) : bool :=
  match Fs.readFileSync fs (target directive) with
  | Normal _ => true
  | Throw _ => false
  end.

Definition unreadable (directive : string * string) : bool :=
  negb (readable directive).

(** The warning that reports a directive whose file cannot be read. *)
Definition failure_warning (directive : string * string) : ConsoleWarning :=
  {| warn_message := "Failed to include file: " +:+ target directive;
     warn_error :=
       match Fs.readFileSync fs (target directive) with
       | Throw e => e
       | Normal _ => ENOENT (target directive)
       end |}.

End Targets.

End IncludeSpec.

(** ** Sample inputs *)

Module Sample.

Definition nl : string := String Char.LF EmptyString.

Definition cwd : string := "/site".

(** A [matter] for sources without frontmatter. *)
Definition plain_matter (source : string) : Completion (FrontMatterData * string) :=
  Normal ({| fm_title := None; fm_sidebar_label := None;
             fm_sidebar_position := None |}, source).

Definition empty_fs : FileSystem := ∅.

(** A comparison of titles by code units. *)
Definition compare_code_units (a b : string) : Z :=
  match String.compare a b with
  | Lt => -1
  | Eq => 0
  | Gt => 1
  end.

Definition item (title : string) (order : number) : NavItem :=
  {| nav_title := title; nav_href := Some ("/docs/" +:+ title);
     nav_order := order; nav_children := None; nav_segment := Some title |}.

(** The document of a page at the top of the docs, with the order that its
    front matter gives it. *)
Definition page (title : string) (order : number) : DocMeta :=
  {| meta_title := title; meta_slug := [title]; meta_order := order;
     meta_isIndex := false |}.

(** Pages at the top of the docs, one of them at a position between two
    integers, a home page whose order is [NaN], and a section with its
    index page and a page in it. *)
Definition pages : list DocMeta :=
  [ page "Zebra" 9999; page "Banana" (Finite (5 # 2)); page "Apple" 2;
    {| meta_title := "Home"; meta_slug := []; meta_order := NaN;
       meta_isIndex := true |};
    {| meta_title := "Guides"; meta_slug := ["guides"]; meta_order := 1;
       meta_isIndex := true |};
    {| meta_title := "Setup"; meta_slug := ["guides"; "setup"];
       meta_order := Infinity true; meta_isIndex := false |} ].


(** A body whose only heading line stands inside a code fence. *)
Definition fenced_heading : string :=
  "```" +:+ nl +:+ "## Example" +:+ nl +:+ "```".

(** A page that includes [snippet.md], which stands next to it. *)
Definition page_path : string := "/site/taffy-layout/docs/page.md".

Definition page_content : string :=
  "A" +:+ nl +:+ "<!-- INCLUDE snippet.md -->" +:+ nl +:+ "B".

(** A page with a directive for a file that is not there, which is closed
    by the end of a directive for the snippet only, and with the directive
    for the snippet once more on the line after it. *)
Definition nested_content : string :=
  "A" +:+ nl +:+ "<!-- INCLUDE missing.md <!-- INCLUDE snippet.md -->" +:+ nl
  +:+ "<!-- INCLUDE snippet.md -->" +:+ nl +:+ "B".

Definition snippet_fs (snippet : string) : FileSystem :=
  {[ "/site/taffy-layout/docs/snippet.md" := File snippet ]}.

(** The document [guides/setup], not an index page, under [/docs]. *)
Definition setup_options : RemarkLinks.Options :=
  {| RemarkLinks.basePath := "/docs";
     RemarkLinks.slug := ["guides"; "setup"];
     RemarkLinks.isIndex := false |}.

Definition link (u : string) : RemarkLinks.LinkNode :=
  {| RemarkLinks.url := Some u |}.

(** Only the default locale has [api/foo]. *)
Definition api_fs : FileSystem :=
  {[ "/site/taffy-layout/docs/api/foo.md" := File "# Foo" ]}.

(** Only the default locale has [intro]. *)
Definition intro_fs : FileSystem :=
  {[ "/site/taffy-layout/docs/intro.md" := File "# Intro" ]}.

(** A renderer that hands the source back. *)
Definition render_source (source : string) (options : RenderOptions)
  : Completion string :=
  Normal source.

End Sample.

(** ** Escaped titles *)

Module TitleSpec.

Definition backslash : ascii := "\"%char.

(** A backslash goes before each of the characters in [escaped]. *)
Fixpoint escape (escaped : list ascii) (s : string) : string :=
  match s with
  | EmptyString => EmptyString
  | String c s' =>
      if List.existsb (fun e => Ascii.eqb e c) escaped
      then String backslash (String c (escape escaped s'))
      else String c (escape escaped s')
  end.

(** The escaping of Markdown for angle and square brackets. *)
Definition markdown_escape (s : string) : string :=
  escape ["<"; ">"; "["; "]"]%char s.

(** The character references of HTML for the ampersand and the angle
    brackets, each of them switched on or off. *)
Fixpoint encode (amp lt gt : bool) (s : string) : string :=
  match s with
  | EmptyString => EmptyString
  | String c s' =>
      if Ascii.eqb "&"%char c && amp then "&amp;" +:+ encode amp lt gt s'
      else if Ascii.eqb "<"%char c && lt then "&lt;" +:+ encode amp lt gt s'
      else if Ascii.eqb ">"%char c && gt then "&gt;" +:+ encode amp lt gt s'
      else String c (encode amp lt gt s')
  end.

Definition html_escape (s : string) : string := encode true true true s.

(** The string has none of the characters [c]. *)
Definition free_of (c : ascii) (s : string) : bool :=
  Str.all (fun d => negb (Ascii.eqb c d)) s.

End TitleSpec.

(** ** The list of documents, in terms of the files of a directory tree *)

Module ListingSpec.

(** The string has no slash. *)
Definition slash_free (s : string) : Prop :=
  Str.all LinkSpec.not_slash s = true.

(** The names that a listing reports, at every depth. *)
Fixpoint names_entry (entry : Dirent) : list string :=
  match entry with
  | DirentFile name => [name]
  | DirentDirectory name entries => name :: List.flat_map names_entry entries
  | DirentOther name => [name]
  end.

Definition names (tree : list Dirent) : list string :=
  List.flat_map names_entry tree.

(** The files of a listing, each as the names that lead to it, in the order
    of a walk that descends into a directory where it meets it. *)
Fixpoint files_entry (entry : Dirent) : list (list string) :=
  match entry with
  | DirentFile name => [[name]]
  | DirentDirectory name entries =>
      List.map (cons name) (List.flat_map files_entry entries)
  | DirentOther _ => []
  end.

Definition files (tree : list Dirent) : list (list string) :=
  List.flat_map files_entry tree.

(** The path of a file relative to the root, with forward slashes. *)
Definition relativePath (segments : list string) : string :=
  Str.replaceAll "\" "/" (Str.join "/" segments).

(** The name has one of the Markdown extensions, in any case. *)
Definition isMarkdown (name : string) : bool :=
  Str.endsWith (Str.toLowerCase name) ".md" ||
  Str.endsWith (Str.toLowerCase name) ".mdx".

(** The name is that of a README, in any case. *)
Definition isReadme (name : string) : bool :=
  String.eqb (Str.toLowerCase name) "readme.md" ||
  String.eqb (Str.toLowerCase name) "readme.mdx".

(** A file is a document of the locale when its path is not ignored and its
    name is that of a Markdown file. *)
Definition listed (locale : Locale) (segments : list string) : bool :=
  negb (isIgnoredPath locale (relativePath segments)) &&
  isMarkdown (List.last segments "").

(** The backslash of a Windows path becomes a slash. *)
Definition unbackslash (c : ascii) : ascii :=
  if Ascii.eqb "\" c then "/"%char else c.

(** What the walk pushes for the files [found] below the directories [dirs]
    of the root [rsegs]. *)
Definition pushed (locale : Locale) (rsegs dirs : list string)
    (found : list (list string)) : list string :=
  List.map (fun segs => SlugSpec.absolute (rsegs ++ dirs ++ segs))
    (List.filter (fun segs => listed locale (dirs ++ segs)) found).

(** The directory of a locale, in segments. *)
Definition localeSegments (locale : Locale) : list string :=
  match locale with
  | en => ["docs"]
  | zh => ["docs"; "i18n"; "zh-CN"]
  | ja => ["docs"; "i18n"; "ja-JP"]
  end.

(** The root of a locale under a working directory, in segments. *)
Definition rootSegments (cwd : list string) (locale : Locale) : list string :=
  cwd ++ "taffy-layout" :: localeSegments locale.

End ListingSpec.

(** ** A sample site *)

Module Site.

(** The working directory [/site], in segments. *)
Definition cwd_segments : list string := ["site"].

(** What [readdirSync] reports at the root of the default locale. *)
Definition tree : list Dirent :=
  [ DirentFile "index.md";
    DirentFile "README.md";
    DirentFile "intro.md";
    DirentFile "logo.png";
    DirentDirectory "guides" [DirentFile "setup.mdx"; DirentFile "Readme.MD"];
    DirentDirectory "i18n"
      [DirentDirectory "zh-CN" [DirentFile "intro.md"]];
    DirentOther "current" ].

(** The files of the default locale. *)
Definition fs : FileSystem :=
  {[ "/site/taffy-layout/docs/index.md" := File "# Taffy";
     "/site/taffy-layout/docs/intro.md" := File "# Introduction";
     "/site/taffy-layout/docs/guides/setup.mdx" := File "# Setup" ]}.

(** A site whose page [api/foo] is translated. *)
Definition api_translated_fs : FileSystem :=
  {[ "/site/taffy-layout/docs/api/foo.md" := File "# Foo";
     "/site/taffy-layout/docs/i18n/zh-CN/api/foo.md" := File "# Foo (zh)" ]}.

(** A site whose page [guides/setup] is translated. *)
Definition translated_fs : FileSystem :=
  {[ "/site/taffy-layout/docs/guides/setup.md" := File "# Setup";
     "/site/taffy-layout/docs/i18n/zh-CN/guides/setup.md" := File "# Setup (zh)" ]}.

End Site.

(** ** Static parameters and sitemap entries, in terms of the slugs *)

Module ParamsSpec.

(** The key of a slug in the set of the slugs seen. *)
Definition key (slug : list string) : string := Str.join "/" slug.

(** The slugs whose key is not among [seen] and not that of a slug before
    them in the list. *)
Fixpoint unseen (seen : gset string) (slugs : list (list string))
  : list (list string) :=
  match slugs with
  | [] => []
  | slug :: rest =>
      if decide (key slug ∈ seen) then unseen seen rest
      else slug :: unseen ({[ key slug ]} ∪ seen) rest
  end.

(** [slug] stands at the position [i] of [slugs], and no slug before that
    position has its key. *)
Definition first_at (slugs : list (list string)) (i : nat)
    (slug : list string) : Prop :=
  slugs !! i = Some slug /\
  forall j earlier,
    (j < i)%nat -> slugs !! j = Some earlier -> key earlier <> key slug.

(** [kept] holds the slugs of [slugs] that are the first of their key, each
    from its position in [slugs] and in the order of these positions, and
    it holds nothing else. *)
Definition first_occurrences (slugs kept : list (list string)) : Prop :=
  exists positions : list nat,
    StronglySorted lt positions /\
    Forall2 (first_at slugs) positions kept /\
    forall i slug, first_at slugs i slug -> i ∈ positions.

(** The address of a document: that of its link in the sidebar, with the
    introduction at the root of the docs and a slash after the root for the
    empty slug. *)
Definition docUrl (locale : Locale) (slug : list string) : string :=
  BASE_URL +:+
  (if bool_decide (slug = ["intro"]) then docHref locale []
   else if bool_decide (slug = []) then docHref locale [] +:+ "/"
   else docHref locale slug).

(** The address of the home page of a locale. *)
Definition homeUrl (locale : Locale) : string :=
  match locale with
  | en => BASE_URL +:+ "/"
  | zh => BASE_URL +:+ "/zh"
  | ja => BASE_URL +:+ "/ja"
  end.

End ParamsSpec.

(** ** The links of a Markdown tree *)

Module LinkTreeSpec.

(** The addresses of the links of a tree, in the order of the document. *)
Fixpoint link_urls (tree : RemarkLinks.Node) : list string :=
  match tree with
  | RemarkLinks.Build_Node type link children =>
      (if String.eqb type "link" then option_list (RemarkLinks.url link) else [])
      ++ List.flat_map link_urls children
  end.

(** An address that the rewriter leaves as it is: the empty one, and one
    that leaves the site, names an anchor or starts at the root. *)
Definition settled (u : string) : Prop :=
  u = "" \/ RemarkLinks.isExternal u = true.

(** The base path is empty or starts at the root. *)
Definition rooted (options : RemarkLinks.Options) : Prop :=
  RemarkLinks.basePath options = "" \/
  Str.startsWith (RemarkLinks.basePath options) "/" = true.

End LinkTreeSpec.

(** ** The links of the sidebar *)

Module NavTreeSpec.

(** The links of an item and of the items below it. *)
Fixpoint hrefs (item : NavItem) : list string :=
  match item with
  | Build_NavItem _ href _ children _ =>
      option_list href ++
      match children with
      | Some items => List.flat_map hrefs items
      | None => []
      end
  end.

Definition all_hrefs (items : list NavItem) : list string :=
  List.flat_map hrefs items.

(** The document lies under [intro]. *)
Definition is_intro (doc : DocMeta) : bool :=
  bool_decide (head (meta_slug doc) = Some "intro").

(** The document gets a place in the tree: it is neither under [intro] nor
    the home document. *)
Definition placed (doc : DocMeta) : bool :=
  negb (is_intro doc) && negb (NavSpec.is_home doc).

Section Located.

Variable locale : Locale.

(** The item stands at [path], the segments that lead to it: a link that it
    has is the link of the slug [path], and each item below it stands at
    the path that its own segment extends. *)
#[local] Unset Elimination Schemes.
Inductive Located : list string -> NavItem -> Prop :=
| Located_intro path item :
    (forall href, nav_href item = Some href -> href = docHref locale path) ->
    (forall items,
       nav_children item = Some items ->
       Forall (fun child =>
                 Located (path ++ option_list (nav_segment child)) child) items) ->
    Located path item.
#[local] Set Elimination Schemes.

End Located.

End NavTreeSpec.

(** ** The candidates of a slug, in segments *)

Module CandidateSpec.

(** A segment of a path that has no backslash either. *)
Definition plain (segment : string) : Prop :=
  SlugSpec.proper segment /\ TitleSpec.free_of TitleSpec.backslash segment = true.

(** The paths below the root that may hold the document of a slug that is
    not empty, in the order in which they are tried. *)
Definition candidates (slug : list string) : list (list string) :=
  [ slug ++ ["index.md"];
    slug ++ ["index.mdx"];
    List.removelast slug ++ [List.last slug "" +:+ ".md"];
    List.removelast slug ++ [List.last slug "" +:+ ".mdx"] ].

End CandidateSpec.

(** * Properties *)

(** ** Lists and options *)

Lemma find_none_all {A} (p : A -> bool) (l : list A) :
  (forall x, In x l -> p x = false) -> List.find p l = None.
Proof.
  induction l as [|x l IH]; intros H; simpl; [done|].
  rewrite (H x (or_introl eq_refl)). apply IH. intros y Hy. apply H. by right.
Qed.


(** ** Strings *)

#[local] Arguments String.append !s1 s2.
#[local] Arguments Ascii.eqb !a !b : simpl nomatch.

Module StrFacts.

Lemma append_nil_r (s : string) : s +:+ "" = s.
Proof. induction s; simpl; congruence. Qed.

Lemma append_assoc (a b c : string) : (a +:+ b) +:+ c = a +:+ (b +:+ c).
Proof. induction a; simpl; congruence. Qed.

Lemma len_app (a b : string) : Str.len (a +:+ b) = (Str.len a + Str.len b)%nat.
Proof. induction a; simpl; congruence. Qed.

Lemma rev_app_spec (s acc : string) :
  String.rev_app s acc = String.rev s +:+ acc.
Proof.
  unfold String.rev. revert acc.
  induction s as [|c s IH]; intros acc; simpl; [done|].
  rewrite IH, (IH (String c "")), append_assoc. reflexivity.
Qed.

Lemma rev_cons (c : ascii) (s : string) :
  String.rev (String c s) = String.rev s +:+ String c "".
Proof. unfold String.rev at 1. simpl. apply rev_app_spec. Qed.

Lemma rev_app (a b : string) :
  String.rev (a +:+ b) = String.rev b +:+ String.rev a.
Proof.
  induction a as [|c a IH]; simpl.
  - by rewrite append_nil_r.
  - rewrite !rev_cons, IH, append_assoc. reflexivity.
Qed.

Lemma len_rev (s : string) : Str.len (String.rev s) = Str.len s.
Proof.
  induction s as [|c s IH]; [done|].
  rewrite rev_cons, len_app, IH. simpl. lia.
Qed.

Lemma rev_involutive (s : string) : String.rev (String.rev s) = s.
Proof.
  induction s as [|c s IH]; [done|].
  rewrite rev_cons, rev_app, IH. reflexivity.
Qed.

Lemma all_app p (a b : string) :
  Str.all p (a +:+ b) = Str.all p a && Str.all p b.
Proof. induction a as [|c a IH]; simpl; [done|]. by rewrite IH, andb_assoc. Qed.

Lemma all_rev p (s : string) : Str.all p (String.rev s) = Str.all p s.
Proof.
  induction s as [|c s IH]; [done|].
  rewrite rev_cons, all_app, IH. simpl. rewrite andb_true_r. apply andb_comm.
Qed.

Lemma run_app_all p (a b : string) :
  Str.all p a = true -> Str.run p (a +:+ b) = (Str.len a + Str.run p b)%nat.
Proof.
  induction a as [|c a IH]; simpl; [done|].
  intros [Hc Ha]%andb_true_iff. rewrite Hc, (IH Ha). reflexivity.
Qed.

Lemma drop_app_len (a b : string) : Str.drop (Str.len a) (a +:+ b) = b.
Proof. induction a; simpl; congruence. Qed.

Lemma take_app_len (a b : string) : Str.take (Str.len a) (a +:+ b) = a.
Proof. induction a; simpl; congruence. Qed.

Lemma is_empty_true (s : string) : Str.is_empty s = true <-> s = "".
Proof. destruct s; simpl; split; congruence. Qed.

Lemma is_empty_app (a b : string) :
  Str.is_empty (a +:+ b) = Str.is_empty a && Str.is_empty b.
Proof. by destruct a. Qed.

Lemma is_empty_rev (s : string) : Str.is_empty (String.rev s) = Str.is_empty s.
Proof.
  destruct s as [|c s]; [done|]. rewrite rev_cons, is_empty_app. simpl.
  apply andb_false_r.
Qed.

Lemma join_snoc (sep : string) (init : list string) (a : string) :
  Str.join sep (init ++ [a]) =
  match init with
  | [] => a
  | _ => Str.join sep init +:+ sep +:+ a
  end.
Proof.
  induction init as [|x init IH]; [done|].
  simpl. destruct init as [|y init]; [done|].
  simpl in *. rewrite IH. by rewrite !append_assoc.
Qed.


Lemma len_drop (n : nat) (s : string) : Str.len (Str.drop n s) = (Str.len s - n)%nat.
Proof. revert s. induction n; intros [|c s]; simpl; auto. Qed.

Lemma len_map f (s : string) : Str.len (Str.map f s) = Str.len s.
Proof. induction s; simpl; congruence. Qed.

Lemma map_drop f (n : nat) (s : string) :
  Str.map f (Str.drop n s) = Str.drop n (Str.map f s).
Proof. revert s. induction n; intros [|c s]; simpl; auto. Qed.

Lemma remove_suffix_ext (R R' : string -> bool) (s : string) :
  (forall t, R t = R' t) -> Re.remove_suffix R s = Re.remove_suffix R' s.
Proof.
  intros H. induction s as [|c s IH]; simpl; rewrite <- H; [done|].
  by rewrite IH.
Qed.

Lemma remove_suffix_first (R : string -> bool) (s : string) (i : nat) :
  R (Str.drop i s) = true ->
  (forall j, (j < i)%nat -> R (Str.drop j s) = false) ->
  Re.remove_suffix R s = Str.take i s.
Proof.
  revert s. induction i as [|i IH]; intros s Hi Hlt.
  - simpl in Hi. destruct s; simpl; by rewrite Hi.
  - pose proof (Hlt O ltac:(lia)) as H0. simpl in H0.
    destruct s as [|c s]; simpl.
    + by rewrite H0.
    + rewrite H0. f_equal. apply IH; [done|].
      intros j Hj. apply (Hlt (S j)). lia.
Qed.

Lemma remove_suffix_never (R : string -> bool) (s : string) :
  (forall j, (j <= Str.len s)%nat -> R (Str.drop j s) = false) ->
  Re.remove_suffix R s = s.
Proof.
  induction s as [|c s IH]; intros H;
    pose proof (H O ltac:(simpl; lia)) as H0; simpl in H0 |- *; rewrite H0; [done|].
  f_equal. apply IH. intros j Hj. apply (H (S j)). simpl. lia.
Qed.

Lemma eqb_ci_len (s lit : string) :
  Re.eqb_ci s lit = true -> Str.len s = Str.len lit.
Proof.
  unfold Re.eqb_ci. intros H%String.eqb_eq.
  apply (f_equal Str.len) in H. unfold Str.toLowerCase in H.
  by rewrite !len_map in H.
Qed.

Lemma endsWith_lower (s lit : string) :
  Str.toLowerCase lit = lit ->
  Str.endsWith (Str.toLowerCase s) lit =
  (Str.len lit <=? Str.len s)%nat && Re.eqb_ci (Str.drop (Str.len s - Str.len lit) s) lit.
Proof.
  intros Hlit. unfold Str.endsWith, Re.eqb_ci. rewrite Hlit.
  unfold Str.toLowerCase.
  by rewrite len_map, map_drop.
Qed.

Lemma md_extension_at (s : string) (j : nat) :
  Re.md_extension (Str.drop j s) = true ->
  (j = Str.len s - 4 /\ 4 <= Str.len s
   /\ Re.eqb_ci (Str.drop (Str.len s - 4) s) ".mdx" = true)%nat \/
  (j = Str.len s - 3 /\ 3 <= Str.len s
   /\ Re.eqb_ci (Str.drop (Str.len s - 3) s) ".md" = true)%nat.
Proof.
  unfold Re.md_extension. intros [E|E]%orb_true_iff;
    pose proof (eqb_ci_len _ _ E) as L; rewrite len_drop in L;
    change (Str.len ".mdx") with 4%nat in L;
    change (Str.len ".md") with 3%nat in L.
  - left. assert (j = Str.len s - 4)%nat as -> by lia. repeat split; [lia|done].
  - right. assert (j = Str.len s - 3)%nat as -> by lia. repeat split; [lia|done].
Qed.

Lemma remove_md_extension (s : string) :
  Re.remove_suffix Re.md_extension s = LinkSpec.strip_markdown_extension s.
Proof.
  unfold LinkSpec.strip_markdown_extension.
  rewrite !endsWith_lower by done.
  change (Str.len ".mdx") with 4%nat. change (Str.len ".md") with 3%nat.
  destruct ((4 <=? Str.len s)%nat
            && Re.eqb_ci (Str.drop (Str.len s - 4) s) ".mdx") eqn:HA.
  { apply andb_true_iff in HA as [H4%Nat.leb_le Hx].
    apply remove_suffix_first; [unfold Re.md_extension; by rewrite Hx|].
    intros j Hj. apply not_true_is_false. intros E.
    apply md_extension_at in E as [(-> & _)|(-> & _)]; lia. }
  destruct ((3 <=? Str.len s)%nat
            && Re.eqb_ci (Str.drop (Str.len s - 3) s) ".md") eqn:HB.
  { apply andb_true_iff in HB as [H3%Nat.leb_le Hm].
    apply remove_suffix_first;
      [unfold Re.md_extension; by rewrite Hm, orb_true_r|].
    intros j Hj. apply not_true_is_false. intros E.
    apply md_extension_at in E as [(-> & H4 & Hx)|(-> & _)]; [|lia].
    apply Nat.leb_le in H4. by rewrite H4, Hx in HA. }
  apply remove_suffix_never. intros j _. apply not_true_is_false. intros E.
  apply md_extension_at in E as [(-> & H4 & Hx)|(-> & H3 & Hm)].
  - apply Nat.leb_le in H4. by rewrite H4, Hx in HA.
  - apply Nat.leb_le in H3. by rewrite H3, Hm in HB.
Qed.

Lemma remove_md_or_mdx_extension (s : string) :
  Re.remove_suffix Re.md_or_mdx_extension s
  = LinkSpec.strip_markdown_extension s.
Proof.
  rewrite <- remove_md_extension. apply remove_suffix_ext.
  intros t. apply orb_comm.
Qed.

Lemma remove_slash_index (s : string) :
  Str.endsWith s "/index" = true ->
  Re.remove_suffix Re.slash_index s = Str.take (Str.len s - 6) s.
Proof.
  unfold Str.endsWith. change (Str.len "/index") with 6%nat.
  intros [H6%Nat.leb_le E]%andb_true_iff.
  apply remove_suffix_first; [done|].
  intros j Hj. apply not_true_is_false. unfold Re.slash_index.
  intros H%String.eqb_eq. apply (f_equal Str.len) in H.
  rewrite len_drop in H. simpl in H. lia.
Qed.

End StrFacts.
(** ** Documents that do not exist *)

Lemma isChangelogSlug_false (slug : list string) :
  slug <> ["changelog"] -> isChangelogSlug slug = false.
Proof.
  intros H. destruct slug as [|s [|? ?]]; simpl; try done.
  destruct (String.eqb_spec s "changelog"); [subst; done|done].
Qed.

(** C8. For every locale and every slug other than [["changelog"]], when
    none of the candidate files of the slug exists under the content root
    of the locale, [getDoc] returns [null]; it does not throw. The
    candidates of [api/foo] in [zh] are [api/foo/index.md],
    [api/foo/index.mdx], [api/foo.md] and [api/foo.mdx] under the content
    root of [zh]. *)
Theorem getDoc_missing_is_null :
  (forall cwd fs matter (locale : Locale) (slug : list string),
     slug <> ["changelog"] ->
     (forall candidate, In candidate (docCandidates cwd locale slug) ->
        Fs.existsSync fs candidate = false) ->
     getDoc cwd fs matter locale slug = Normal None) /\
  docCandidates Sample.cwd zh ["api"; "foo"]
  = [ "/site/taffy-layout/docs/i18n/zh-CN/api/foo/index.md";
      "/site/taffy-layout/docs/i18n/zh-CN/api/foo/index.mdx";
      "/site/taffy-layout/docs/i18n/zh-CN/api/foo.md";
      "/site/taffy-layout/docs/i18n/zh-CN/api/foo.mdx" ].
Proof.
  split; [|reflexivity].
  intros cwd fs matter locale slug Hslug Hnone. unfold getDoc.
  rewrite (isChangelogSlug_false _ Hslug).
  unfold resolveDocPath. rewrite (find_none_all _ _ Hnone). reflexivity.
Qed.

Lemma getDoc_missing_is_null_witness :
  getDoc Sample.cwd Sample.empty_fs Sample.plain_matter zh ["api"; "foo"]
  = Normal None.
Proof.
  apply (proj1 getDoc_missing_is_null).
  - discriminate.
  - intros candidate _. reflexivity.
Defined.
(** ** Locale fallback in the docs pages *)

Lemma isIntroSlug_false (slug : list string) :
  slug <> ["intro"] -> isIntroSlug slug = false.
Proof.
  intros H. destruct slug as [|s [|? ?]]; simpl; try done.
  destruct (String.eqb_spec s "intro"); [subst; done|done].
Qed.

Lemma isLocale_localeKey (locale : Locale) :
  isLocale (localeKey locale) = Some locale.
Proof. by destruct locale. Qed.

Lemma DefaultPage_notice_unset {ReactNode} getDoc renderMdx slug_param
    filter (props : DocShellProps ReactNode) :
  DefaultPage ReactNode getDoc renderMdx slug_param = Shell filter props ->
  shell_notice props = None.
Proof.
  unfold DefaultPage, await.
  destruct (isIntroSlug _); [discriminate|].
  destruct (getDoc _ _) as [[doc|]|]; try discriminate.
  destruct (renderMdx _ _); [|discriminate].
  intros [= _ <-]. reflexivity.
Qed.

(** C1, as amended. For every locale other than the default one and every
    slug other than [["intro"]] (which the page redirects) whose resolved
    form, the empty slug standing for [["intro"]], has a document in the
    default locale and none in the requested one, the locale page renders
    the content of the default-locale document and hands the
    missing-translation notice, a text that is not empty, to the shell;
    whatever the default-locale page renders for that slug carries no
    notice. *)
Theorem LocalePage_falls_back {ReactNode} getDoc renderMdx
    (locale : Locale) (slug_param : option (list string))
    (fallbackDoc : DocData) (content : ReactNode) :
  let slug := default [] slug_param in
  let resolvedSlug := resolveSlug slug in
  locale <> DEFAULT_LOCALE ->
  slug <> ["intro"] ->
  getDoc locale resolvedSlug = Normal None ->
  getDoc DEFAULT_LOCALE resolvedSlug = Normal (Some fallbackDoc) ->
  renderMdx (doc_content fallbackDoc)
    {| render_basePath := "/" +:+ localeKey locale +:+ "/docs";
       render_slug := resolvedSlug;
       render_isIndex := doc_isIndex fallbackDoc;
       render_useMarkdownOnly := isApiSlug resolvedSlug |} = Normal content ->
  LocalePage ReactNode getDoc renderMdx (localeKey locale) slug_param
  = Shell None
      {| shell_locale := locale;
         shell_toc := doc_toc fallbackDoc;
         shell_slug := resolvedSlug;
         shell_notice := Some (missingTranslation locale);
         shell_children := content |}
  /\ missingTranslation locale <> ""
  /\ (forall filter props,
        DefaultPage ReactNode getDoc renderMdx slug_param = Shell filter props ->
        shell_notice props = None).
Proof.
  intros slug resolvedSlug Hlocale Hintro Hprimary Hfallback Hrender.
  split; [|split; [by destruct locale|
                   intros filter props; apply DefaultPage_notice_unset]].
  unfold LocalePage. rewrite isLocale_localeKey.
  destruct (decide (locale = DEFAULT_LOCALE)) as [|_]; [done|].
  fold slug. rewrite (isIntroSlug_false _ Hintro). fold resolvedSlug.
  rewrite Hprimary, Hfallback.
  destruct (isApiSlug resolvedSlug); simpl in Hrender |- *;
    rewrite Hrender; reflexivity.
Qed.

Lemma LocalePage_falls_back_witness :
  exists fallbackDoc,
    getDoc Sample.cwd Sample.api_fs Sample.plain_matter en ["api"; "foo"]
    = Normal (Some fallbackDoc) /\
    LocalePage string (getDoc Sample.cwd Sample.api_fs Sample.plain_matter)
      Sample.render_source "zh" (Some ["api"; "foo"])
    = Shell None
        {| shell_locale := zh;
           shell_toc := doc_toc fallbackDoc;
           shell_slug := ["api"; "foo"];
           shell_notice := Some (missingTranslation zh);
           shell_children := doc_content fallbackDoc |}.
Proof.
  eexists. split; [vm_compute; reflexivity|].
  apply (LocalePage_falls_back
           (getDoc Sample.cwd Sample.api_fs Sample.plain_matter)
           Sample.render_source zh (Some ["api"; "foo"])).
  - discriminate.
  - discriminate.
  - vm_compute. reflexivity.
  - vm_compute. reflexivity.
  - reflexivity.
Defined.

(** C1, the input at which the claim as first stated fails: [["intro"]] has
    a document in the default locale and none in [zh], and the [zh] page
    redirects to the root of its docs instead of rendering it. *)
Lemma LocalePage_intro_redirects :
  (exists fallbackDoc,
     getDoc Sample.cwd Sample.intro_fs Sample.plain_matter en ["intro"]
     = Normal (Some fallbackDoc)) /\
  getDoc Sample.cwd Sample.intro_fs Sample.plain_matter zh ["intro"]
  = Normal None /\
  LocalePage string (getDoc Sample.cwd Sample.intro_fs Sample.plain_matter)
    Sample.render_source "zh" (Some ["intro"])
  = Redirect "/zh/docs" /\
  ~ (exists filter props,
       LocalePage string (getDoc Sample.cwd Sample.intro_fs Sample.plain_matter)
         Sample.render_source "zh" (Some ["intro"])
       = Shell filter props).
Proof.
  split; [eexists; vm_compute; reflexivity|].
  split; [vm_compute; reflexivity|].
  split; [reflexivity|].
  intros (filter & props & H). discriminate H.
Qed.

(** ** The link rewriter *)

Module LinkFacts.
Import StrFacts RemarkLinks.

Lemma join_nonempty (sep : string) (segs : list string) :
  segs <> [] -> Forall (fun s => s <> "") segs -> Str.join sep segs <> "".
Proof.
  intros Hne Hall. destruct segs as [|a segs]; [done|].
  apply Forall_cons in Hall as [Ha _].
  destruct a as [|c a]; [done|]. unfold Str.join. simpl.
  destruct segs; simpl; discriminate.
Qed.

Import LinkSpec (not_slash).

Lemma startsWith_slash (s : string) : Str.startsWith ("/" +:+ s) "/" = true.
Proof. by destruct s. Qed.

(** The scan of [dirname] from the right end: over a last component [x]
    that is followed by nothing and preceded by [t]. *)
Lemma dirname_scan (x t : string) :
  x <> "" -> Str.all not_slash x = true ->
  Str.run not_slash t = O ->
  let r := String.rev x +:+ t in
  let r1 := Str.drop (Str.run Path.is_slash r) r in
  Str.drop (Str.run not_slash r1) r1 = t.
Proof.
  intros Hne Hns Ht r r1.
  assert (Hr1 : r1 = r).
  { unfold r1. replace (Str.run Path.is_slash r) with O; [done|].
    unfold r. destruct (String.rev x) as [|c rx] eqn:Erx.
    - apply (f_equal String.rev) in Erx. by rewrite rev_involutive in Erx.
    - pose proof (all_rev not_slash x) as Hr.
      rewrite Erx, Hns in Hr. simpl in Hr.
      apply andb_true_iff in Hr as [Hc _]. apply negb_true_iff in Hc.
      simpl. by rewrite Hc. }
  rewrite Hr1. unfold r.
  rewrite run_app_all by (by rewrite all_rev).
  rewrite Ht, Nat.add_0_r. apply drop_app_len.
Qed.

Lemma dirname_slug (slug : list string) :
  Forall LinkSpec.segment_ok slug ->
  Path.dirname ("/" +:+ Str.join "/" slug)
  = "/" +:+ Str.join "/" (List.removelast slug).
Proof.
  intros Hok. destruct slug as [|x slug'] using rev_ind; [done|].
  clear IHslug'. rewrite removelast_last.
  apply Forall_app in Hok as [Hinit Hx].
  apply Forall_cons in Hx as [[Hne Hns] _].
  rewrite join_snoc.
  destruct slug' as [|y slug''].
  - unfold Path.dirname. rewrite startsWith_slash. simpl Str.is_empty.
    cbv iota. change (Str.drop 1 ("/" +:+ x)) with x.
    pose proof (dirname_scan x "" Hne Hns eq_refl) as Hscan.
    cbv zeta in Hscan. rewrite append_nil_r in Hscan.
    fold not_slash. rewrite Hscan. reflexivity.
  - set (init := y :: slug'') in *.
    assert (Hinit' : Str.join "/" init <> "").
    { apply join_nonempty; [done|]. eapply Forall_impl; [exact Hinit|].
      by intros ? [? _]. }
    remember (Str.join "/" init) as J eqn:EJ. clear EJ.
    unfold Path.dirname. rewrite startsWith_slash. simpl Str.is_empty.
    cbv iota.
    change (Str.drop 1 ("/" +:+ J +:+ "/" +:+ x))
      with (J +:+ "/" +:+ x).
    rewrite <- append_assoc, rev_app, rev_app.
    change (String.rev "/") with "/".
    pose proof (dirname_scan x ("/" +:+ String.rev J)
                  Hne Hns eq_refl) as Hscan.
    cbv zeta in Hscan. fold not_slash. rewrite Hscan.
    change ("/" +:+ String.rev J)
      with (String "/" (String.rev J)). cbv iota.
    rewrite is_empty_rev.
    destruct (Str.is_empty J) eqn:Eempty.
    { by apply is_empty_true in Eempty. }
    simpl andb. cbv iota. rewrite len_rev.
    change (Str.take (S (Str.len J))
              ("/" +:+ (J +:+ "/") +:+ x))
      with ("/" +:+ Str.take (Str.len J)
                      ((J +:+ "/") +:+ x)).
    f_equal. rewrite append_assoc. apply take_app_len.
Qed.

Lemma normalize_absolute (p : string) :
  Str.startsWith p "/" = true -> Str.startsWith (Path.normalize p) "/" = true.
Proof.
  intros H. unfold Path.normalize. rewrite H.
  destruct p as [|c p]; [done|]. simpl Str.is_empty. cbv iota.
  destruct (Str.is_empty _); [done|]. simpl negb.
  apply startsWith_slash.
Qed.

Lemma join_two (dir u : string) :
  dir <> "" -> u <> "" ->
  Path.join [dir; u] = Path.normalize (dir +:+ "/" +:+ u).
Proof. intros Hd Hu. by destruct dir, u. Qed.

Lemma starts_with_slash_inv (s : string) :
  Str.startsWith s "/" = true -> exists t, s = String "/" t.
Proof.
  destruct s as [|c s]; [done|]. unfold Str.startsWith. simpl.
  destruct (Ascii.eqb_spec "/" c) as [<-|]; [intros _; eauto|done].
Qed.

(** What is left of an absolute path once its extension and a final
    [/index] are cut is empty or still starts with a slash. *)
Lemma clean_shape (resolved : string) :
  Str.startsWith resolved "/" = true ->
  let clean := Re.remove_suffix Re.md_extension resolved in
  let clean' := if Str.endsWith clean "/index"
                then Re.remove_suffix Re.slash_index clean else clean in
  clean' = "" \/ exists t, clean' = String "/" t.
Proof.
  intros [t ->]%starts_with_slash_inv clean clean'.
  assert (Hclean : clean = String "/" (Re.remove_suffix Re.md_extension t)) by done.
  unfold clean'. rewrite Hclean.
  destruct (Str.endsWith _ "/index"); [|eauto].
  simpl. destruct (Re.slash_index _); eauto.
Qed.

Lemma prefix_shape (basePath clean : string) :
  clean = "" \/ (exists t, clean = String "/" t) ->
  (let suffix := Re.remove_leading_slash clean in
   if truthy suffix then or_else basePath "" +:+ "/" +:+ suffix
   else or_else (or_else basePath "") "/")
  = LinkSpec.prefix_base basePath clean.
Proof.
  assert (Hbase : or_else basePath "" = basePath) by (by destruct basePath).
  rewrite Hbase. unfold LinkSpec.prefix_base, or_else, truthy.
  intros [->|[t ->]]; simpl.
  - by destruct basePath.
  - destruct t as [|c t]; simpl; [by destruct basePath|done].
Qed.

Lemma dirname_absolute (p : string) :
  Str.startsWith p "/" = true -> Str.startsWith (Path.dirname p) "/" = true.
Proof.
  intros H. unfold Path.dirname. rewrite H.
  destruct (starts_with_slash_inv p H) as [t ->].
  simpl Str.is_empty. cbv iota.
  destruct (Str.drop _ _) as [|c r3]; [done|].
  by destruct (true && Str.is_empty r3).
Qed.

Lemma currentDir_directory (options : Options) :
  currentDir options = LinkSpec.directory (slug options) (isIndex options).
Proof. reflexivity. Qed.

Lemma directory_absolute (slug : list string) (isIndex : bool) :
  Str.startsWith (LinkSpec.directory slug isIndex) "/" = true.
Proof.
  unfold LinkSpec.directory, LinkSpec.slug_path.
  destruct isIndex; [apply startsWith_slash|].
  apply dirname_absolute, startsWith_slash.
Qed.

Lemma rewriteUrl_spec (options : Options) (u : string) :
  u <> "" ->
  rewriteUrl options u = LinkSpec.rewrite options u.
Proof.
  intros Hu. unfold rewriteUrl, LinkSpec.rewrite.
  rewrite currentDir_directory.
  pose proof (directory_absolute (slug options) (isIndex options)) as Hdir.
  set (dir := LinkSpec.directory _ _) in *.
  set (resolved := Path.normalize (Path.join [dir; u])).
  assert (Habs : Str.startsWith resolved "/" = true).
  { unfold resolved. apply normalize_absolute.
    rewrite join_two; [|by destruct dir|done].
    apply normalize_absolute.
    destruct (starts_with_slash_inv dir Hdir) as [t ->].
    apply startsWith_slash. }
  rewrite (prefix_shape _ _ (clean_shape resolved Habs)).
  f_equal. rewrite remove_md_extension. unfold LinkSpec.collapse_index.
  destruct (Str.endsWith _ "/index") eqn:E; [|done].
  by apply remove_slash_index.
Qed.

End LinkFacts.

(** C3, as amended. For every link node whose URL is not empty and does not
    start with [http://], [https://], [mailto:], [tel:], [#] or [/], the
    rewriter resolves the URL against the directory of the document (its own
    slug path for an index page, else the parent of that path, which for a
    slug of proper segments is the path of the slug without its last
    segment), normalizes [.] and [..], cuts a trailing [.md] or [.mdx] and a
    trailing [/index], and puts the base path in front; a URL that starts
    with one of these prefixes is left as it is, and so is the empty URL.
    For the document
    [guides/setup] under [/docs], [../intro.md] becomes [/docs/intro] and
    [./advanced.md] becomes [/docs/guides/advanced], while
    [https://example.com] and [#anchor] do not change. *)
Theorem visitLink_rewrites :
  (forall options u,
     u <> "" ->
     RemarkLinks.isExternal u = false ->
     RemarkLinks.visitLink options (Sample.link u)
     = Sample.link (LinkSpec.rewrite options u)) /\
  (forall slug,
     Forall LinkSpec.segment_ok slug ->
     LinkSpec.directory slug false
     = LinkSpec.slug_path (List.removelast slug)) /\
  (forall options u,
     RemarkLinks.isExternal u = true ->
     RemarkLinks.visitLink options (Sample.link u) = Sample.link u) /\
  (forall options,
     RemarkLinks.visitLink options (Sample.link "") = Sample.link "") /\
  RemarkLinks.visitLink Sample.setup_options (Sample.link "../intro.md")
  = Sample.link "/docs/intro" /\
  RemarkLinks.visitLink Sample.setup_options (Sample.link "./advanced.md")
  = Sample.link "/docs/guides/advanced" /\
  RemarkLinks.visitLink Sample.setup_options (Sample.link "https://example.com")
  = Sample.link "https://example.com" /\
  RemarkLinks.visitLink Sample.setup_options (Sample.link "#anchor")
  = Sample.link "#anchor".
Proof.
  split; [|split; [|split; [|split; [done|repeat split; reflexivity]]]].
  - intros options u Hu Hext. unfold RemarkLinks.visitLink. simpl.
    destruct u as [|c u]; [done|]. simpl RemarkLinks.truthy. cbv iota.
    simpl negb. cbv iota. rewrite Hext.
    by rewrite LinkFacts.rewriteUrl_spec.
  - intros slug Hok. by apply LinkFacts.dirname_slug.
  - intros options u Hext. unfold RemarkLinks.visitLink. simpl.
    rewrite Hext. by destruct (negb _).
Qed.

Lemma visitLink_rewrites_witness :
  RemarkLinks.visitLink Sample.setup_options (Sample.link "../intro.md")
  = Sample.link (LinkSpec.rewrite Sample.setup_options "../intro.md").
Proof.
  apply (proj1 visitLink_rewrites).
  - discriminate.
  - reflexivity.
Defined.

(** C3, the input at which the claim as first stated fails: the empty URL
    starts with none of the prefixes, and the rewriter leaves it as it is,
    where resolving it would give the directory of the document. *)
Lemma visitLink_keeps_empty_url :
  RemarkLinks.isExternal "" = false /\
  RemarkLinks.visitLink Sample.setup_options (Sample.link "") = Sample.link "" /\
  LinkSpec.rewrite Sample.setup_options "" = "/docs/guides" /\
  RemarkLinks.visitLink Sample.setup_options (Sample.link "")
  <> Sample.link (LinkSpec.rewrite Sample.setup_options "").
Proof. repeat split; try reflexivity. discriminate. Qed.

(** ** Include directives *)

Module IncludeFacts.
Import IncludeSpec.

Lemma include_step_readable cwd fs file result console m :
  readable cwd fs file m = true ->
  exists contents,
    Fs.readFileSync fs (target cwd file m) = Normal contents /\
    include_step cwd fs file (result, console) m
    = Normal (Str.replace result (fst m) contents, console).
Proof.
  unfold readable, include_step, readFileSyncSafe, target.
  destruct (Fs.readFileSync fs _) as [contents|e]; [|discriminate].
  intros _. exists contents. split; reflexivity.
Qed.

Lemma include_step_unreadable cwd fs file result console m :
  unreadable cwd fs file m = true ->
  include_step cwd fs file (result, console) m
  = Normal (result, console ++ [failure_warning cwd fs file m]).
Proof.
  unfold unreadable, readable, failure_warning, include_step,
    readFileSyncSafe, target.
  destruct (Fs.readFileSync fs _) as [contents|e]; [discriminate|].
  reflexivity.
Qed.

Lemma include_loop_cons cwd fs file m ms state :
  include_loop cwd fs file (m :: ms) state
  = include_step cwd fs file state m ≫= include_loop cwd fs file ms.
Proof. reflexivity. Qed.

(** The loop returns; the directives whose file cannot be read add their
    warnings and nothing else, so that the text is the one that the other
    directives alone produce. *)
Lemma include_loop_split cwd fs file ms result console :
  exists result',
    include_loop cwd fs file ms (result, console)
    = Normal (result',
              console ++ List.map (failure_warning cwd fs file)
                           (List.filter (unreadable cwd fs file) ms)) /\
    include_loop cwd fs file (List.filter (readable cwd fs file) ms) (result, [])
    = Normal (result', []).
Proof.
  revert result console.
  induction ms as [|m ms IH]; intros result console.
  - exists result. simpl. by rewrite app_nil_r.
  - rewrite include_loop_cons. cbn [List.filter]. unfold unreadable at 1.
    destruct (readable cwd fs file m) eqn:Hm; cbn [negb].
    + rewrite include_loop_cons.
      destruct (include_step_readable cwd fs file result console m Hm)
        as (contents & Hread & ->).
      destruct (include_step_readable cwd fs file result [] m Hm)
        as (contents' & Hread' & ->).
      assert (contents' = contents) as -> by congruence.
      apply IH.
    + rewrite include_step_unreadable by (unfold unreadable; by rewrite Hm).
      destruct (IH result (console ++ [failure_warning cwd fs file m]))
        as (result' & H1 & H2).
      exists result'. split; [|done].
      cbn [mbind Completion_bind]. rewrite H1. cbn [List.map].
      by rewrite <- app_assoc.
Qed.

End IncludeFacts.

(** X29. For every content, [processIncludeDirectives] returns; each
    directive whose file is missing or cannot be read is reported by a
    warning, in the order of the directives, and changes nothing, so that
    the result is what the other directives alone produce, and the content
    itself when no directive can be expanded. For the page [A], directive,
    [B] with the snippet missing the content comes back as it was, with one
    warning. *)
Theorem processIncludeDirectives_survives_failures :
  (forall cwd fs content sourceFilePath,
     let directives := Include.directives content in
     let failed :=
       List.filter (IncludeSpec.unreadable cwd fs sourceFilePath) directives in
     let expanded :=
       List.filter (IncludeSpec.readable cwd fs sourceFilePath) directives in
     exists result,
       processIncludeDirectives cwd fs content sourceFilePath
       = Normal (result,
                 List.map (IncludeSpec.failure_warning cwd fs sourceFilePath)
                   failed) /\
       include_loop cwd fs sourceFilePath expanded (content, [])
       = Normal (result, []) /\
       (expanded = [] -> result = content)) /\
  processIncludeDirectives Sample.cwd Sample.empty_fs Sample.page_content
    Sample.page_path
  = Normal (Sample.page_content,
            [{| warn_message :=
                  "Failed to include file: /site/taffy-layout/docs/snippet.md";
                warn_error := ENOENT "/site/taffy-layout/docs/snippet.md" |}]).
Proof.
  split; [|reflexivity].
  intros cwd fs content file directives failed expanded.
  destruct (IncludeFacts.include_loop_split cwd fs file directives content [])
    as (result & H1 & H2).
  exists result. split; [exact H1|]. split; [exact H2|].
  intros Hnone. fold expanded in H2. rewrite Hnone in H2. simpl in H2.
  by injection H2.
Qed.

(** C5. The page [A], a directive for [missing.md] that the end of a
    directive for [snippet.md] closes, that directive once more, [B], with
    the snippet [X] next to the page and [missing.md] not there. The call
    returns and warns of the file that is missing. The snippet then takes
    the place of the first occurrence of the text of its directive, which
    is the end of the directive that failed: that directive is not in the
    result any more, its beginning still is, and the directive of the
    snippet stays where it was. *)
Theorem processIncludeDirectives_cuts_failing_directive :
  Include.directives Sample.nested_content
  = [("<!-- INCLUDE missing.md <!-- INCLUDE snippet.md -->",
      "missing.md <!-- INCLUDE snippet.md");
     ("<!-- INCLUDE snippet.md -->", "snippet.md")] /\
  exists result,
    processIncludeDirectives Sample.cwd (Sample.snippet_fs "X")
      Sample.nested_content Sample.page_path
    = Normal (result,
              [{| warn_message :=
                    "Failed to include file: " +:+
                    "/site/taffy-layout/docs/missing.md <!-- INCLUDE snippet.md";
                  warn_error :=
                    ENOENT
                      "/site/taffy-layout/docs/missing.md <!-- INCLUDE snippet.md"
               |}]) /\
    result
    = "A" +:+ Sample.nl +:+ "<!-- INCLUDE missing.md X" +:+ Sample.nl
      +:+ "<!-- INCLUDE snippet.md -->" +:+ Sample.nl +:+ "B" /\
    Str.find "<!-- INCLUDE missing.md <!-- INCLUDE snippet.md -->" result
    = None /\
    Str.find "<!-- INCLUDE missing.md" result
    = Some ("A" +:+ Sample.nl,
            " X" +:+ Sample.nl +:+ "<!-- INCLUDE snippet.md -->"
            +:+ Sample.nl +:+ "B").
Proof.
  split; [vm_compute; reflexivity|].
  eexists. split; [vm_compute; reflexivity|].
  split; [reflexivity|]. split; vm_compute; reflexivity.
Qed.

(** C4. The page [A], directive, [B] with a snippet [X] next to it becomes
    [A], [X], [B]; with a snippet that holds two dollar signs it becomes
    [A], one dollar sign, [B], not the raw contents of the snippet: the
    included text goes through the substitution patterns of
    [String.prototype.replace]. *)
Theorem processIncludeDirectives_expands_dollars :
  processIncludeDirectives Sample.cwd (Sample.snippet_fs "X")
    Sample.page_content Sample.page_path
  = Normal ("A" +:+ Sample.nl +:+ "X" +:+ Sample.nl +:+ "B", []) /\
  processIncludeDirectives Sample.cwd (Sample.snippet_fs "$$")
    Sample.page_content Sample.page_path
  = Normal ("A" +:+ Sample.nl +:+ "$" +:+ Sample.nl +:+ "B", []) /\
  processIncludeDirectives Sample.cwd (Sample.snippet_fs "$$")
    Sample.page_content Sample.page_path
  <> Normal ("A" +:+ Sample.nl +:+ "$$" +:+ Sample.nl +:+ "B", []).
Proof. repeat split; try (vm_compute; reflexivity). vm_compute. discriminate. Qed.

(** ** The slug deriver *)

Module SlugFacts.
Import StrFacts LinkSpec SlugSpec.

Lemma split_no_sep (sep : ascii) (a : string) :
  Str.all (fun c => negb (Ascii.eqb c sep)) a = true ->
  Str.split sep a = [a].
Proof.
  induction a as [|c a IH]; [done|]. simpl.
  intros [Hc Ha]%andb_true_iff. apply negb_true_iff in Hc.
  by rewrite Hc, (IH Ha).
Qed.

Lemma split_app_sep (sep : ascii) (a rest : string) :
  Str.all (fun c => negb (Ascii.eqb c sep)) a = true ->
  Str.split sep (a +:+ String sep rest) = a :: Str.split sep rest.
Proof.
  induction a as [|c a IH]; simpl.
  - intros _. by rewrite Ascii.eqb_refl.
  - intros [Hc Ha]%andb_true_iff. apply negb_true_iff in Hc.
    by rewrite Hc, (IH Ha).
Qed.

Lemma split_join (l : list string) :
  l <> [] -> Forall segment_ok l ->
  Str.split Path.slash (Str.join "/" l) = l.
Proof.
  induction l as [|a l IH]; [done|]. intros _ Hall.
  apply Forall_cons in Hall as [[_ Ha] Hl].
  destruct l as [|b l].
  - simpl. by apply split_no_sep.
  - change (Str.join "/" (a :: b :: l))
      with (a +:+ String Path.slash (Str.join "/" (b :: l))).
    rewrite split_app_sep by done. f_equal. by apply IH.
Qed.

Lemma filter_nonempty_id (l : list string) :
  Forall (fun s => s <> "") l -> Str.filter_nonempty l = l.
Proof.
  induction l as [|a l IH]; [done|]. intros [Ha Hl]%Forall_cons.
  unfold Str.filter_nonempty in *. simpl. destruct a; [done|].
  simpl. by rewrite IH.
Qed.

Lemma proper_nonempty (l : list string) :
  Forall proper l -> Forall (fun s => s <> "") l.
Proof. intros H. eapply Forall_impl; [exact H|]. by intros s [[? _] _]. Qed.

Lemma proper_ok (l : list string) :
  Forall proper l -> Forall segment_ok l.
Proof. intros H. eapply Forall_impl; [exact H|]. by intros s [? _]. Qed.

Lemma segments_absolute (l : list string) :
  Forall proper l -> Path.segments (absolute l) = l.
Proof.
  intros Hl. unfold Path.segments, absolute.
  change (Str.split Path.slash ("/" +:+ Str.join "/" l))
    with ("" :: Str.split Path.slash (Str.join "/" l)).
  destruct l as [|a l]; [done|].
  rewrite split_join by (done || by apply proper_ok).
  change (Str.filter_nonempty ("" :: a :: l)) with (Str.filter_nonempty (a :: l)).
  apply filter_nonempty_id. by apply proper_nonempty.
Qed.

Lemma normalizeSegments_go_empty (allow : bool) (acc l : list string) :
  Path.normalizeSegments_go allow acc ("" :: l)
  = Path.normalizeSegments_go allow acc l.
Proof. reflexivity. Qed.

Lemma split_join_slash (l : list string) :
  Forall segment_ok l ->
  Str.split Path.slash (Str.join "/" l +:+ "/")
  = match l with [] => [""] | _ => l end ++ [""].
Proof.
  induction l as [|a l IH]; intros Hl; [done|].
  apply Forall_cons in Hl as [[Hne Ha] Hl].
  destruct l as [|b l].
  - change (Str.join "/" [a] +:+ "/") with (a +:+ String Path.slash "").
    by rewrite split_app_sep.
  - change (Str.join "/" (a :: b :: l) +:+ "/")
      with ((a +:+ String Path.slash (Str.join "/" (b :: l))) +:+ "/").
    rewrite append_assoc.
    change (String Path.slash (Str.join "/" (b :: l)) +:+ "/")
      with (String Path.slash (Str.join "/" (b :: l) +:+ "/")).
    rewrite split_app_sep by done. by rewrite (IH Hl).
Qed.

Lemma resolve_absolute (cwd : string) (l : list string) :
  Forall proper l -> Path.resolve cwd [absolute l] = absolute l.
Proof.
  intros Hl. unfold Path.resolve.
  change (List.rev [cwd; absolute l]) with [absolute l; cwd].
  unfold Path.resolve_go, absolute at 1 2.
  change (Str.is_empty ("/" +:+ Str.join "/" l)) with false. cbv iota.
  change (Str.startsWith ("/" +:+ Str.join "/" l) "/") with true. cbv iota.
  fold (absolute l). unfold absolute at 2. f_equal.
  unfold Path.normalizeString, absolute. f_equal.
  change (("/" +:+ Str.join "/" l) +:+ "/" +:+ "")
    with (String Path.slash ((Str.join "/" l) +:+ "/" +:+ "")).
  change ("/" +:+ "") with "/".
  change (Str.split Path.slash (String Path.slash (Str.join "/" l +:+ "/")))
    with ("" :: Str.split Path.slash (Str.join "/" l +:+ "/")).
  rewrite (split_join_slash l (proper_ok l Hl)).
  unfold Path.normalizeSegments. rewrite normalizeSegments_go_empty.
  destruct l as [|a l]; [done|].
  generalize dependent (a :: l). intros l0 Hl0.
  assert (forall acc, Path.normalizeSegments_go false acc (l0 ++ [""])
                      = List.rev acc ++ l0) as ->; [|done].
  induction l0 as [|b l0 IH]; intros acc.
  - simpl. by rewrite app_nil_r.
  - apply Forall_cons in Hl0 as [[[Hne _] [Hdot Hdots]] Hl0].
    apply String.eqb_neq in Hne, Hdot, Hdots.
    simpl. rewrite Hne, Hdot, Hdots. simpl. rewrite IH by done.
    simpl. by rewrite <- app_assoc.
Qed.

Lemma strip_common_prefix (l segs : list string) :
  Path.strip_common l (l ++ segs) = ([], segs).
Proof.
  induction l as [|a l IH]; simpl; [by destruct segs|].
  by rewrite String.eqb_refl.
Qed.

Lemma absolute_inj (l1 l2 : list string) :
  Forall proper l1 -> Forall proper l2 -> absolute l1 = absolute l2 -> l1 = l2.
Proof.
  intros H1 H2 E. apply (f_equal Path.segments) in E.
  by rewrite !segments_absolute in E.
Qed.

(** The path of a file under a root, relative to the root. *)
Lemma relative_under (cwd : string) (rsegs segs : list string) :
  Forall proper rsegs -> Forall proper segs -> segs <> [] ->
  Path.relative cwd (absolute rsegs) (absolute (rsegs ++ segs))
  = Str.join "/" segs.
Proof.
  intros Hr Hs Hne. unfold Path.relative.
  assert (Hall : Forall proper (rsegs ++ segs)) by (by apply Forall_app).
  assert (Hneq : absolute rsegs <> absolute (rsegs ++ segs)).
  { intros E%absolute_inj; [|done..].
    rewrite <- (app_nil_r rsegs) in E at 1. by apply app_inv_head in E. }
  apply String.eqb_neq in Hneq. rewrite Hneq.
  rewrite !resolve_absolute by done. rewrite Hneq.
  rewrite !segments_absolute by done.
  by rewrite strip_common_prefix.
Qed.

Lemma split_path_replace (s : string) :
  Str.split Path.slash (Str.replaceAll "\" "/" s) = split_path s.
Proof.
  unfold Str.replaceAll. induction s as [|c s IH]; [done|].
  cbn [Str.replaceAll_from Str.prefix split_path]. unfold is_separator.
  destruct (Ascii.eqb_spec "\" c) as [<-|Hc].
  - simpl. f_equal. exact IH.
  - assert (Ascii.eqb c "\" = false) as -> by (apply Ascii.eqb_neq; congruence).
    rewrite orb_false_r. cbn [andb Str.split].
    change (Ascii.eqb c Path.slash) with (Ascii.eqb c "/").
    destruct (Ascii.eqb c "/"); [f_equal; exact IH|].
    change (Str.replaceAll_from O "\" "/" s)
      with (Str.replaceAll_from O "\" "/" s) in IH.
    by rewrite IH.
Qed.

Lemma split_not_nil (sep : ascii) (s : string) : Str.split sep s <> [].
Proof.
  destruct s as [|c s]; [done|]. simpl.
  destruct (Ascii.eqb c sep); [done|]. by destruct (Str.split sep s).
Qed.

Lemma split_singleton (sep : ascii) (s h : string) :
  Str.split sep s = [h] ->
  h = s /\ Str.all (fun c => negb (Ascii.eqb c sep)) s = true.
Proof.
  revert h. induction s as [|c s IH]; intros h; simpl.
  - by intros [= <-].
  - destruct (Ascii.eqb c sep) eqn:Hc.
    + intros [= _ E]. by apply split_not_nil in E.
    + destruct (Str.split sep s) as [|h' t] eqn:Hs; [by apply split_not_nil in Hs|].
      intros [= <- ->]. destruct (IH h' eq_refl) as [-> ->]. done.
Qed.

Lemma split_remove_suffix (R : string -> bool) (s : string) :
  (forall t, R t = true -> Str.all not_slash t = true) ->
  Str.split Path.slash (Re.remove_suffix R s)
  = map_last (Re.remove_suffix R) (Str.split Path.slash s).
Proof.
  intros HR. induction s as [|c s IH].
  - simpl. by destruct (R "").
  - cbn [Re.remove_suffix]. destruct (R (String c s)) eqn:HRs.
    + rewrite (split_no_sep Path.slash (String c s)) by (exact (HR _ HRs)).
      simpl. by rewrite HRs.
    + cbn [Str.split]. rewrite IH.
      destruct (Ascii.eqb c Path.slash) eqn:Hc.
      * destruct (Str.split Path.slash s) eqn:Hs; [by apply split_not_nil in Hs|].
        reflexivity.
      * destruct (Str.split Path.slash s) as [|h [|h' t]] eqn:Hs;
          [by apply split_not_nil in Hs| |reflexivity].
        apply split_singleton in Hs as [-> _]. simpl. by rewrite HRs.
Qed.

Lemma not_slash_lower (t : string) :
  Str.all not_slash (Str.toLowerCase t) = true -> Str.all not_slash t = true.
Proof.
  induction t as [|c t IH]; [done|]. simpl.
  intros [Hc Ht]%andb_true_iff. rewrite (IH Ht), andb_true_r.
  unfold not_slash, Path.is_slash in *.
  destruct (Ascii.eqb_spec c Path.slash) as [->|]; [exact Hc|done].
Qed.

Lemma extension_no_slash (t : string) :
  Re.md_or_mdx_extension t = true -> Str.all not_slash t = true.
Proof.
  unfold Re.md_or_mdx_extension, Re.eqb_ci.
  intros [E|E]%orb_true_iff; apply String.eqb_eq in E;
    apply not_slash_lower; by rewrite E.
Qed.

Lemma map_last_ext (f g : string -> string) (l : list string) :
  (forall s, f s = g s) -> map_last f l = map_last g l.
Proof.
  intros H. induction l as [|a l IH]; [done|].
  destruct l as [|b l]; [simpl; by rewrite H|].
  change (map_last f (a :: b :: l)) with (a :: map_last f (b :: l)).
  change (map_last g (a :: b :: l)) with (a :: map_last g (b :: l)).
  by rewrite IH.
Qed.

Lemma slugFromFile_spec (cwd root filePath : string) :
  slugFromFile cwd root filePath
  = deriveSlug (Path.relative cwd root filePath).
Proof.
  unfold slugFromFile, deriveSlug.
  rewrite (split_remove_suffix _ _ extension_no_slash).
  rewrite split_path_replace.
  rewrite (map_last_ext _ _ _ remove_md_or_mdx_extension).
  unfold drop_index.
  destruct (last _) as [final|] eqn:Hlast.
  - destruct (String.eqb_spec final "index") as [->|Hne].
    + by rewrite bool_decide_eq_true_2.
    + rewrite bool_decide_eq_false_2; [done|]. congruence.
  - by rewrite bool_decide_eq_false_2.
Qed.

End SlugFacts.

(** C6, as amended. For every root and file path, [slugFromFile] is the
    root-relative path split on path separators, with a trailing [.md] or
    [.mdx] stripped, the empty segments left out, and the final segment
    dropped exactly when it is literally [index]; for a file under the root
    the root-relative path is made of the segments below the root; hence
    [x/y/index.md], [x/y/index.mdx] and [x/y.md] under any root all give
    [["x"; "y"]], and the index file of the root gives the empty list. *)
Theorem slugFromFile_derives_slug :
  (forall cwd root filePath,
     slugFromFile cwd root filePath
     = SlugSpec.deriveSlug (Path.relative cwd root filePath)) /\
  (forall cwd rsegs segs,
     Forall SlugSpec.proper rsegs -> Forall SlugSpec.proper segs -> segs <> [] ->
     Path.relative cwd (SlugSpec.absolute rsegs) (SlugSpec.absolute (rsegs ++ segs))
     = Str.join "/" segs) /\
  (forall cwd rsegs,
     Forall SlugSpec.proper rsegs ->
     let root := SlugSpec.absolute rsegs in
     slugFromFile cwd root (SlugSpec.absolute (rsegs ++ ["x"; "y"; "index.md"]))
     = ["x"; "y"] /\
     slugFromFile cwd root (SlugSpec.absolute (rsegs ++ ["x"; "y"; "index.mdx"]))
     = ["x"; "y"] /\
     slugFromFile cwd root (SlugSpec.absolute (rsegs ++ ["x"; "y.md"]))
     = ["x"; "y"] /\
     slugFromFile cwd root (SlugSpec.absolute (rsegs ++ ["index.md"]))
     = []).
Proof.
  split; [exact SlugFacts.slugFromFile_spec|].
  split; [exact SlugFacts.relative_under|].
  intros cwd rsegs Hr root. unfold slugFromFile, root.
  rewrite !SlugFacts.relative_under;
    try done; try (repeat constructor; discriminate).
Qed.

Lemma slugFromFile_derives_slug_witness :
  slugFromFile Sample.cwd "/site/taffy-layout/docs"
    "/site/taffy-layout/docs/x/y/index.md"
  = ["x"; "y"] /\
  Path.relative Sample.cwd "/site/taffy-layout/docs"
    "/site/taffy-layout/docs/x/y/index.md"
  = "x/y/index.md".
Proof.
  destruct slugFromFile_derives_slug as (_ & Hrel & Hexamples).
  assert (Hroot : Forall SlugSpec.proper ["site"; "taffy-layout"; "docs"])
    by (repeat constructor; discriminate).
  split.
  - apply (Hexamples Sample.cwd ["site"; "taffy-layout"; "docs"] Hroot).
  - apply (Hrel Sample.cwd ["site"; "taffy-layout"; "docs"]
             ["x"; "y"; "index.md"]);
      [exact Hroot|repeat constructor; discriminate|discriminate].
Defined.

(** C6, the input at which the claim as first stated fails: the file [.md]
    in the directory [x]. Its last segment is empty once the extension is
    stripped; it is not [index], and [slugFromFile] drops it all the same. *)
Lemma slugFromFile_drops_empty_segment :
  Path.relative Sample.cwd "/site/taffy-layout/docs"
    "/site/taffy-layout/docs/x/.md" = "x/.md" /\
  SlugSpec.deriveSlug_keeping_empty "x/.md" = ["x"; ""] /\
  slugFromFile Sample.cwd "/site/taffy-layout/docs"
    "/site/taffy-layout/docs/x/.md" = ["x"] /\
  slugFromFile Sample.cwd "/site/taffy-layout/docs"
    "/site/taffy-layout/docs/x/.md"
  <> SlugSpec.deriveSlug_keeping_empty
       (Path.relative Sample.cwd "/site/taffy-layout/docs"
          "/site/taffy-layout/docs/x/.md").
Proof. repeat split; try reflexivity. vm_compute. discriminate. Qed.

(** ** The slugger *)

Module SluggerFacts.
Import GithubSlugger.

Lemma numbered_inj (orig : string) (n m : nat) :
  numbered orig n = numbered orig m -> n = m.
Proof.
  unfold numbered. intros E.
  apply (inj (String.append orig)) in E.
  apply (inj (String.append "-")) in E.
  by apply (inj pretty) in E.
Qed.

Lemma numbered_neq (orig : string) (n : nat) : numbered orig n <> orig.
Proof.
  unfold numbered. intros E. apply (f_equal String.length) in E.
  rewrite StrFacts.len_app in E. simpl in E. lia.
Qed.

Lemma slug_loop_unfold (fuel : nat) (occ : Occurrences) (orig result : string) :
  slug_loop fuel occ orig result
  = match occ !! result with
    | None => Some (result, <[result := O]> occ)
    | Some _ =>
        match fuel with
        | O => None
        | S fuel' =>
            slug_loop fuel' (<[orig := S (occ !!! orig)]> occ) orig
              (numbered orig (S (occ !!! orig)))
        end
    end.
Proof. by destruct fuel. Qed.

(** The loop from a numbered candidate on: the first free one is the
    result. *)
Lemma slug_loop_numbered (k : nat) :
  forall (fuel : nat) (occ : Occurrences) (orig : string) (c : nat),
    occ !! orig = Some c ->
    (forall j, (j < k)%nat -> numbered orig (c + j) ∈ dom occ) ->
    numbered orig (c + k) ∉ dom occ ->
    (k <= fuel)%nat ->
    slug_loop fuel occ orig (numbered orig c)
    = Some (numbered orig (c + k),
            <[numbered orig (c + k) := O]> (<[orig := (c + k)%nat]> occ)).
Proof.
  induction k as [|k IH]; intros fuel occ orig c Hc Hin Hout Hfuel.
  - rewrite Nat.add_0_r in *. apply not_elem_of_dom in Hout.
    rewrite slug_loop_unfold, Hout. by rewrite (insert_id occ orig c).
  - destruct fuel as [|fuel]; [lia|].
    pose proof (Hin O ltac:(lia)) as H0. rewrite Nat.add_0_r in H0.
    apply elem_of_dom in H0 as [v Hv]. rewrite slug_loop_unfold, Hv.
    rewrite (lookup_total_correct occ orig c Hc).
    rewrite (IH fuel (<[orig := S c]> occ) orig (S c)).
    + replace (S c + k)%nat with (c + S k)%nat by lia.
      by rewrite insert_insert_eq.
    + apply lookup_insert_eq.
    + intros j Hj. rewrite dom_insert_L. apply elem_of_union_r.
      replace (S c + j)%nat with (c + S j)%nat by lia. apply Hin. lia.
    + rewrite dom_insert_L. intros [E%elem_of_singleton|E]%elem_of_union.
      * by apply numbered_neq in E.
      * apply Hout. by replace (c + S k)%nat with (S c + k)%nat by lia.
    + lia.
Qed.

(** Either the first [n] candidates are all taken, or there is a first
    free one among them. *)
Lemma first_free_candidate (occ : Occurrences) (orig : string) (c n : nat) :
  (forall j, (j < n)%nat -> numbered orig (c + j) ∈ dom occ) \/
  (exists k, (k < n)%nat /\
             (forall j, (j < k)%nat -> numbered orig (c + j) ∈ dom occ) /\
             numbered orig (c + k) ∉ dom occ).
Proof.
  induction n as [|n [IH|(k & Hk & Hin & Hout)]].
  - left. intros j Hj. lia.
  - destruct (decide (numbered orig (c + n) ∈ dom occ)) as [Hn|Hn].
    + left. intros j Hj. destruct (decide (j = n)) as [->|]; [done|].
      apply IH. lia.
    + right. exists n. split; [lia|]. by split.
  - right. exists k. split; [lia|]. by split.
Qed.

(** The candidates cannot all be taken: they are distinct, and the
    original slug is taken too. *)
Lemma candidates_run_out (occ : Occurrences) (orig : string) (c : nat) :
  orig ∈ dom occ ->
  ~ (forall j, (j < size occ)%nat -> numbered orig (c + j) ∈ dom occ).
Proof.
  intros Horig Hall.
  set (l := orig :: List.map (fun j => numbered orig (c + j)) (seq 0 (size occ))).
  assert (Hnodup : NoDup l).
  { unfold l. apply NoDup_cons. split.
    - intros (j & E & _)%list_elem_of_fmap. symmetry in E.
      by apply numbered_neq in E.
    - apply NoDup_fmap_2_strong; [|apply NoDup_seq].
      intros i j _ _ E. apply numbered_inj in E. lia. }
  assert (Hsub : list_to_set l ⊆ dom occ).
  { intros x Hx%elem_of_list_to_set. unfold l in Hx.
    apply elem_of_cons in Hx as [->|(j & -> & Hj)%list_elem_of_fmap]; [done|].
    apply Hall. apply elem_of_seq in Hj. lia. }
  apply subseteq_size in Hsub.
  rewrite size_list_to_set in Hsub by done.
  rewrite size_dom in Hsub. unfold l in Hsub. simpl in Hsub.
  rewrite length_map, length_seq in Hsub. lia.
Qed.

(** [slug] reaches the end of its loop, and what it returns. *)
Lemma slug_spec (occ : Occurrences) (value : string) :
  let orig := slugify value in
  exists id occ',
    slug occ value = (id, occ') /\
    slug_loop (S (size occ)) occ orig orig = Some (id, occ') /\
    (id ∉ dom occ) /\
    (dom occ' = {[id]} ∪ dom occ) /\
    (((orig ∉ dom occ) /\ id = orig) \/
     ((orig ∈ dom occ) /\ exists n, (1 <= n)%nat /\ id = numbered orig n)).
Proof.
  intros orig. unfold slug. fold orig.
  destruct (occ !! orig) as [c|] eqn:Hc.
  - assert (Horig : orig ∈ dom occ) by (apply elem_of_dom; eauto).
    set (occ1 := <[orig := S c]> occ).
    assert (Hdom1 : dom occ1 = dom occ).
    { unfold occ1. rewrite dom_insert_L. apply subseteq_union_1_L.
      by apply singleton_subseteq_l. }
    assert (Hsize1 : size occ1 = size occ).
    { by rewrite <- !size_dom, Hdom1. }
    destruct (first_free_candidate occ1 orig (S c) (size occ1))
      as [Hall|(k & Hk & Hin & Hout)].
    { exfalso. apply (candidates_run_out occ1 orig (S c)); [|done].
      by rewrite Hdom1. }
    assert (Hloop :
      slug_loop (S (size occ)) occ orig orig
      = Some (numbered orig (S c + k),
              <[numbered orig (S c + k) := O]> (<[orig := (S c + k)%nat]> occ1))).
    { rewrite slug_loop_unfold, Hc. rewrite (lookup_total_correct occ orig c Hc).
      fold occ1. apply slug_loop_numbered; try done.
      - apply lookup_insert_eq.
      - lia. }
    rewrite Hloop. eexists _, _. split; [done|]. split; [done|].
    split; [by rewrite <- Hdom1|]. split.
    + rewrite dom_insert_L. f_equal. rewrite dom_insert_L, Hdom1.
      apply subseteq_union_1_L. by apply singleton_subseteq_l.
    + right. split; [done|]. exists (S c + k)%nat. split; [lia|done].
  - assert (Horig : orig ∉ dom occ) by (by apply not_elem_of_dom).
    rewrite slug_loop_unfold, Hc. eexists _, _. split; [done|]. split; [done|].
    split; [done|]. split; [by rewrite dom_insert_L|]. by left.
Qed.

End SluggerFacts.

(** ** The table of contents *)

Module TocFacts.
Import TocSpec.




Lemma extractToc_step_spec state line :
  step_inv state ->
  step_inv (Toc.extractToc_step state line) /\
  List.map level_text (snd (Toc.extractToc_step state line))
  = List.map level_text (snd state) ++ option_list (heading_of_line line).
Proof.
  destruct state as [occ items]. intros [Hdom Hslug].
  unfold Toc.extractToc_step, heading_of_line. simpl in Hdom, Hslug.
  destruct (Toc.heading line) as [[level raw]|]; [|by rewrite app_nil_r].
  fold (heading_text raw).
  destruct (SluggerFacts.slug_spec occ (heading_text raw))
    as (id & occ' & -> & _ & Hfresh & Hdom' & Hid).
  unfold step_inv. simpl. split; [split|].
  - rewrite Hdom', Hdom, map_app. simpl.
    rewrite list_to_set_app_L. simpl.
    rewrite (right_id_L ∅ (∪)). apply (comm_L (∪)).
  - apply Slugged_snoc; [done|]. unfold fresh_id. simpl.
    rewrite Hdom in Hfresh, Hid.
    rewrite !elem_of_list_to_set in Hid. rewrite elem_of_list_to_set in Hfresh.
    split; [done|]. exact Hid.
  - by rewrite map_app.
Qed.

Lemma extractToc_fold_spec (lines : list string) state :
  step_inv state ->
  step_inv (List.fold_left Toc.extractToc_step lines state) /\
  List.map level_text (snd (List.fold_left Toc.extractToc_step lines state))
  = List.map level_text (snd state) ++ omap heading_of_line lines.
Proof.
  revert state. induction lines as [|line lines IH]; intros state Hinv.
  - simpl. by rewrite app_nil_r.
  - simpl. destruct (extractToc_step_spec state line Hinv) as [Hinv' Hmap].
    destruct (IH _ Hinv') as [Hinv'' Hmap'].
    split; [done|]. rewrite Hmap', Hmap, <- app_assoc. f_equal.
    by destruct (heading_of_line line).
Qed.

Lemma step_inv_reset : step_inv (GithubSlugger.reset, []).
Proof. split; [apply dom_empty_L|constructor]. Qed.

Lemma extractToc_headings (body : string) :
  List.map level_text (Toc.extractToc body) = headings body.
Proof.
  unfold Toc.extractToc, headings.
  by destruct (extractToc_fold_spec (Toc.split_lines body) _ step_inv_reset)
    as [_ ->].
Qed.



End TocFacts.



(** C10. [extractToc] keeps no code-fence state: for every body, every line
    that matches the level-2 or level-3 heading pattern gives an item with
    its level and its text, wherever the line stands; a body whose only
    [## Example] line stands between two fences gives the item with the
    text [Example]. *)
Theorem extractToc_ignores_fences :
  (forall body line level raw,
     In line (Toc.split_lines body) ->
     Toc.heading line = Some (level, raw) ->
     exists item,
       In item (Toc.extractToc body) /\
       toc_level item = level /\
       toc_text item = TocSpec.heading_text raw) /\
  Toc.extractToc Sample.fenced_heading
  = [ {| toc_id := "example"; toc_text := "Example"; toc_level := 2 |} ].
Proof.
  split; [|vm_compute; reflexivity].
  intros body line level raw Hline Hheading.
  assert (Hin : In (level, TocSpec.heading_text raw) (TocSpec.headings body)).
  { unfold TocSpec.headings. apply list_elem_of_In, list_elem_of_omap.
    exists line. split; [by apply list_elem_of_In|].
    unfold TocSpec.heading_of_line. by rewrite Hheading. }
  rewrite <- TocFacts.extractToc_headings in Hin.
  apply in_map_iff in Hin as (item & [= <- <-] & Hitem).
  by exists item.
Qed.

Lemma extractToc_ignores_fences_witness :
  exists item,
    In item (Toc.extractToc Sample.fenced_heading) /\
    toc_level item = 2%nat /\
    toc_text item = TocSpec.heading_text "Example".
Proof.
  apply (proj1 extractToc_ignores_fences Sample.fenced_heading "## Example").
  - vm_compute. auto.
  - reflexivity.
Defined.

(** ** Numbers *)

Module NumberFacts.

Lemma compare_of_Z (x y : Z) :
  Number.compare (Number.of_Z x) (Number.of_Z y) = Some (x ?= y).
Proof.
  unfold Number.of_Z, Number.compare, Qcompare. simpl.
  by rewrite !Z.mul_1_r.
Qed.

Lemma compare_ordered (a b : number) :
  a <> NaN -> b <> NaN -> exists c, Number.compare a b = Some c.
Proof. destruct a, b; simpl; intros; eauto; done. Qed.

Lemma compare_antisym (a b : number) (c : comparison) :
  Number.compare a b = Some c -> Number.compare b a = Some (CompOpp c).
Proof.
  destruct a as [|s|p], b as [|t|q]; simpl; try done.
  - intros [= <-]. by destruct s, t.
  - intros [= <-]. by destruct s.
  - intros [= <-]. by destruct t.
  - intros [= <-]. by rewrite Qcompare_antisym.
Qed.

(** The difference of two numbers that are not equal has the sign of their
    comparison. *)
Lemma compare_sub (a b : number) (c : comparison) :
  Number.compare a b = Some c -> c <> Eq ->
  Number.compare (Number.sub a b) (Number.of_Z 0) = Some c.
Proof.
  destruct a as [|s|p], b as [|t|q]; simpl; try done.
  - intros [= <-] Hne. by destruct s, t.
  - intros [= <-] _. by destruct t.
  - intros [= <-] _. f_equal. unfold Qcompare, Qminus, Qplus, Qopp. simpl.
    rewrite Z.mul_1_r, (Z.compare_sub (Qnum p * _)). f_equal. lia.
Qed.

End NumberFacts.

(** ** The sidebar *)

Module NavFacts.
Import NavSpec.

(** Induction on an item and, below it, on the items of its children. *)
Lemma NavItem_nested_ind (P : NavItem -> Prop) :
  (forall title href order children segment,
     (forall items, children = Some items -> Forall P items) ->
     P (Build_NavItem title href order children segment)) ->
  forall item, P item.
Proof.
  intros H. fix IH 1. intros [title href order children segment].
  apply H. destruct children as [l|]; [|intros items E; discriminate E].
  assert (HF : Forall P l).
  { induction l as [|x l IHl]; constructor; [apply IH|exact IHl]. }
  intros items E. injection E as <-. exact HF.
Qed.

Section Sorting.

Variable lc : string -> string -> Z.

(** What the sort reads of the comparator when both orders are numbers of
    the order: the sign of the difference, and that of the comparison of
    the titles for equal orders. *)
Lemma SortCompare_sign (a b : NavItem) (c : comparison) :
  Number.compare (nav_order a) (nav_order b) = Some c ->
  Number.compare (SortCompare lc a b) 0
  = Some (match c with
          | Eq => lc (nav_title a) (nav_title b) ?= 0
          | _ => c
          end).
Proof.
  intros Hc. unfold SortCompare, compareNav, Number.strict_eq. rewrite Hc.
  destruct c; cbn [negb]; [apply NumberFacts.compare_of_Z| |].
  - pose proof (NumberFacts.compare_sub _ _ Lt Hc ltac:(done)) as Hsub.
    by destruct (Number.sub _ _).
  - pose proof (NumberFacts.compare_sub _ _ Gt Hc ltac:(done)) as Hsub.
    by destruct (Number.sub _ _).
Qed.

Lemma SortCompare_before (a b : NavItem) :
  nav_order a <> NaN -> nav_order b <> NaN ->
  Number.le (SortCompare lc a b) 0 = true <-> before lc a b.
Proof.
  intros Ha Hb.
  destruct (NumberFacts.compare_ordered _ _ Ha Hb) as [c Hc].
  unfold Number.le. rewrite (SortCompare_sign a b c Hc).
  unfold before, Number.lt, Number.strict_eq. rewrite Hc.
  destruct c.
  - destruct (Z.compare_spec (lc (nav_title a) (nav_title b)) 0).
    + split; [intros _; right; split; [done|lia]|done].
    + split; [intros _; right; split; [done|lia]|done].
    + split; [done|]. intros [?|[_ ?]]; [done|lia].
  - split; [by left|done].
  - split; [done|]. by intros [?|[? _]].
Qed.

Lemma SortCompare_swap (a b : NavItem) :
  antisymmetric lc ->
  nav_order a <> NaN -> nav_order b <> NaN ->
  Number.le (SortCompare lc a b) 0 = false -> before lc b a.
Proof.
  intros Hanti Ha Hb.
  destruct (NumberFacts.compare_ordered _ _ Ha Hb) as [c Hc].
  unfold Number.le. rewrite (SortCompare_sign a b c Hc).
  unfold before, Number.lt, Number.strict_eq.
  rewrite (NumberFacts.compare_antisym _ _ c Hc).
  destruct c; cbn [CompOpp].
  - destruct (Z.compare_spec (lc (nav_title a) (nav_title b)) 0); [done|done|].
    intros _. right. split; [done|].
    pose proof (Hanti (nav_title a) (nav_title b)) as Hs. lia.
  - done.
  - intros _. by left.
Qed.

Lemma sort_insert_perm (x : NavItem) (l : list NavItem) :
  Permutation (sort_insert lc x l) (x :: l).
Proof.
  induction l as [|y l IH]; simpl; [done|].
  destruct (Number.le _ _); [done|]. rewrite IH. apply perm_swap.
Qed.

Lemma array_sort_perm (l : list NavItem) : Permutation (array_sort lc l) l.
Proof.
  induction l as [|x l IH]; simpl; [done|].
  rewrite sort_insert_perm. by constructor.
Qed.

Lemma sort_insert_sorted (x : NavItem) (l : list NavItem) :
  antisymmetric lc ->
  nav_order x <> NaN -> Forall (fun y => nav_order y <> NaN) l ->
  Sorted (before lc) l -> Sorted (before lc) (sort_insert lc x l).
Proof.
  intros Hanti Hx. induction l as [|y l IH]; intros Hnum Hl; simpl.
  - repeat constructor.
  - apply Forall_cons in Hnum as [Hy Hnum].
    destruct (Number.le (SortCompare lc x y) 0) eqn:Hxy.
    + apply SortCompare_before in Hxy; [|done|done].
      constructor; [done|by constructor].
    + apply Sorted_inv in Hl as [Hl Hhd].
      constructor; [by apply IH|].
      destruct l as [|z l]; simpl.
      * constructor. by apply SortCompare_swap.
      * destruct (Number.le (SortCompare lc x z) 0).
        -- constructor. by apply SortCompare_swap.
        -- constructor. by apply HdRel_inv in Hhd.
Qed.

Lemma array_sort_sorted (l : list NavItem) :
  antisymmetric lc ->
  Forall (fun y => nav_order y <> NaN) l ->
  Sorted (before lc) (array_sort lc l).
Proof.
  intros Hanti. induction l as [|x l IH]; intros Hnum; simpl; [constructor|].
  apply Forall_cons in Hnum as [Hx Hnum].
  apply sort_insert_sorted; [done|done| |by apply IH].
  by rewrite array_sort_perm.
Qed.

Lemma sortNode_title (item : NavItem) :
  nav_title (sortNode lc item) = nav_title item.
Proof. by destruct item. Qed.

Lemma sortNode_order (item : NavItem) :
  nav_order (sortNode lc item) = nav_order item.
Proof. by destruct item. Qed.

Lemma compareNav_sortNode (a b : NavItem) :
  compareNav lc (sortNode lc a) (sortNode lc b) = compareNav lc a b.
Proof. unfold compareNav. by rewrite !sortNode_title, !sortNode_order. Qed.

Lemma sort_insert_sortNode (x : NavItem) (l : list NavItem) :
  sort_insert lc (sortNode lc x) (List.map (sortNode lc) l)
  = List.map (sortNode lc) (sort_insert lc x l).
Proof.
  induction l as [|y l IH]; [done|].
  cbn [List.map sort_insert]. unfold SortCompare.
  rewrite compareNav_sortNode.
  destruct (Number.le _ _); [done|]. cbn [List.map]. by rewrite IH.
Qed.

(** Sorting the children first or the list first gives the same tree. *)
Lemma sortTree_sort_first (items : list NavItem) :
  sortTree lc items = List.map (sortNode lc) (array_sort lc items).
Proof.
  unfold sortTree. induction items as [|x items IH]; [done|].
  cbn [List.map array_sort]. rewrite IH. apply sort_insert_sortNode.
Qed.

Lemma comparable_inv (item : NavItem) :
  Comparable item ->
  nav_order item <> NaN /\
  (forall items, nav_children item = Some items -> Forall Comparable items).
Proof. by intros [item' Horder Hchildren]. Qed.

Lemma comparable_orders (items : list NavItem) :
  Forall Comparable items ->
  Forall (fun y => nav_order y <> NaN) (List.map (sortNode lc) items).
Proof.
  intros Hitems. apply Forall_map. eapply Forall_impl; [exact Hitems|].
  intros item [Horder _]%comparable_inv. by rewrite sortNode_order.
Qed.

Lemma sortNode_deep_sorted (item : NavItem) :
  antisymmetric lc -> Comparable item -> DeepSorted lc (sortNode lc item).
Proof.
  intros Hanti. induction item as [title href order children segment IH]
    using NavItem_nested_ind.
  intros [_ Hchildren]%comparable_inv.
  constructor. simpl. intros sorted Hsorted.
  destruct children as [items|]; [|done]. injection Hsorted as <-.
  pose proof (Hchildren items eq_refl) as Hitems.
  split; [by apply array_sort_sorted, comparable_orders|].
  rewrite array_sort_perm. apply Forall_map.
  pose proof (IH items eq_refl) as IHitems.
  clear -IHitems Hitems. induction Hitems as [|x items Hx _ IHl]; [constructor|].
  apply Forall_cons in IHitems as [IHx IHitems].
  constructor; [by apply IHx|by apply IHl].
Qed.

Lemma sortTree_deep_sorted (items : list NavItem) :
  antisymmetric lc -> Forall Comparable items ->
  Sorted (before lc) (sortTree lc items) /\
  Forall (DeepSorted lc) (sortTree lc items).
Proof.
  intros Hanti Hitems. unfold sortTree.
  split; [by apply array_sort_sorted, comparable_orders|].
  rewrite array_sort_perm. apply Forall_map.
  eapply Forall_impl; [exact Hitems|].
  intros item. by apply sortNode_deep_sorted.
Qed.

End Sorting.

Section Tree.

Variable lc : string -> string -> Z.
Variable locale : Locale.

Lemma sidebar_step_home (root : NavItem) (home : option NavItem) (doc : DocMeta) :
  snd (sidebar_step locale (root, home) doc)
  = if is_home doc then Some (home_item locale doc) else home.
Proof.
  unfold sidebar_step, is_home.
  destruct (bool_decide (head (meta_slug doc) = Some "intro")) eqn:Hintro.
  - apply bool_decide_eq_true in Hintro.
    destruct (meta_slug doc); [done|].
    by rewrite bool_decide_eq_false_2.
  - by destruct (_ && _).
Qed.

Lemma sidebar_fold_home (docs : list DocMeta) (root : NavItem)
    (home : option NavItem) :
  snd (List.fold_left (sidebar_step locale) docs (root, home))
  = match last (List.filter is_home docs) with
    | Some doc => Some (home_item locale doc)
    | None => home
    end.
Proof.
  revert root home. induction docs as [|doc docs IH]; intros root home; [done|].
  cbn [List.fold_left List.filter].
  pose proof (sidebar_step_home root home doc) as Hstep.
  destruct (sidebar_step locale (root, home) doc) as [root' home'].
  simpl in Hstep. rewrite IH, Hstep.
  destruct (is_home doc); [|done].
  destruct (List.filter is_home docs) as [|d ds] eqn:Hf; [done|].
  rewrite !last_cons. by destruct (last ds).
Qed.

(** The sidebar is the home node, when there is one, and then the sorted
    tree. *)
Lemma getSidebar_tree (docs : list DocMeta) :
  getSidebar lc locale docs
  = option_list (home_of locale docs) ++
    sortTree lc
      (default []
         (nav_children
            (fst (List.fold_left (sidebar_step locale) docs
                    (sidebar_root, None))))).
Proof.
  unfold getSidebar, home_of.
  pose proof (sidebar_fold_home docs (sidebar_root) None) as Hhome.
  destruct (List.fold_left _ docs _) as [root home]. simpl in Hhome.
  rewrite Hhome. by destruct (last _).
Qed.

End Tree.

End NavFacts.


(** ** No empty node in the sidebar *)

Module ValidFacts.
Import NavSpec.

Section Walk.

Variable locale : Locale.
Variable doc : DocMeta.

Lemma valid_children (item : NavItem) (items : list NavItem) :
  Valid item -> nav_children item = Some items -> Forall Valid items.
Proof. intros [item' _ H]. apply H. Qed.

Lemma valid_inv (item : NavItem) :
  Valid item ->
  claimed item /\
  (forall items, nav_children item = Some items -> Forall Valid items).
Proof. by intros [item' Hclaimed Hchildren]. Qed.

Lemma place_valid (current : NavItem) :
  (forall items, nav_children current = Some items -> Forall Valid items) ->
  Valid (place locale doc current).
Proof.
  intros Hchildren. unfold place. destruct (meta_isIndex doc).
  - constructor; [by left|]. exact Hchildren.
  - constructor.
    + right. simpl. destruct (default [] (nav_children current)); simpl; eauto.
    + simpl. intros items [= <-]. apply Forall_app. split.
      * destruct (nav_children current) as [l|]; [by apply Hchildren|constructor].
      * constructor; [|constructor].
        constructor; [by left|]. intros items H. discriminate H.
Qed.

Lemma ensure_children_children (current : NavItem) :
  nav_children (ensure_children current)
  = Some (default [] (nav_children current)).
Proof.
  unfold ensure_children.
  destruct (nav_children current) as [l|] eqn:E; simpl; [exact E|done].
Qed.

Lemma update_first_spec p f (items items' : list NavItem) :
  update_first p f items = Some items' ->
  exists pre x post, items = pre ++ x :: post /\ items' = pre ++ f x :: post.
Proof.
  revert items'. induction items as [|y items IH]; intros items'; [done|].
  simpl. destruct (p y).
  - intros [= <-]. by exists [], y, items.
  - destruct (update_first p f items) as [rest|]; [|done].
    intros [= <-]. destruct (IH rest eq_refl) as (pre & x & post & -> & ->).
    by exists (y :: pre), x, post.
Qed.

Lemma walk_valid (segments : list string) :
  forall current,
    (forall items, nav_children current = Some items -> Forall Valid items) ->
    Valid (walk locale doc segments current).
Proof.
  induction segments as [|segment rest IH]; intros current Hchildren.
  - by apply place_valid.
  - cbn [walk].
    assert (Hensured :
      forall items, nav_children (ensure_children current) = Some items ->
                    Forall Valid items).
    { intros items. rewrite ensure_children_children. intros [= <-].
      destruct (nav_children current) as [l|]; [by apply Hchildren|constructor]. }
    destruct (_ && _); [by apply place_valid|].
    rewrite ensure_children_children.
    change (default [] (Some (default [] (nav_children current))))
      with (default [] (nav_children current)).
    set (children := default [] (nav_children current)).
    assert (Hvalid : Forall Valid children).
    { apply Hensured. by rewrite ensure_children_children. }
    destruct (update_first _ _ children) as [children'|] eqn:Hupdate.
    + apply update_first_spec in Hupdate as (pre & x & post & Hsplit & ->).
      rewrite Hsplit in Hvalid.
      apply Forall_app in Hvalid as [Hpre Hxpost].
      apply Forall_cons in Hxpost as [Hx Hpost].
      constructor.
      * right. simpl. destruct pre; simpl; eauto.
      * simpl. intros items [= <-]. apply Forall_app. split; [done|].
        constructor; [|done]. apply IH. intros items. by apply valid_children.
    + constructor.
      * right. simpl. destruct children; simpl; eauto.
      * simpl. intros items [= <-]. apply Forall_app. split; [done|].
        constructor; [|constructor]. apply IH.
        intros items [= <-]. constructor.
Qed.

End Walk.

Lemma sidebar_step_valid locale state doc :
  (forall items, nav_children (fst state) = Some items -> Forall Valid items) ->
  forall items,
    nav_children (fst (sidebar_step locale state doc)) = Some items ->
    Forall Valid items.
Proof.
  destruct state as [root home]. intros Hroot. unfold sidebar_step.
  destruct (bool_decide _); [exact Hroot|].
  destruct (_ && _); [exact Hroot|]. simpl.
  intros items. apply valid_children. by apply walk_valid.
Qed.

Lemma sidebar_fold_valid locale docs state :
  (forall items, nav_children (fst state) = Some items -> Forall Valid items) ->
  forall items,
    nav_children (fst (List.fold_left (sidebar_step locale) docs state))
    = Some items ->
    Forall Valid items.
Proof.
  revert state. induction docs as [|doc docs IH]; intros state Hstate; [done|].
  simpl. apply IH. by apply sidebar_step_valid.
Qed.

Lemma sortNode_valid lc (item : NavItem) :
  Valid item -> Valid (sortNode lc item).
Proof.
  induction item as [title href order children segment IH]
    using NavFacts.NavItem_nested_ind.
  intros [Hclaimed Hchildren]%valid_inv. unfold claimed in Hclaimed.
  simpl in *.
  assert (Hsorted : forall items, children = Some items ->
            Forall Valid (array_sort lc (List.map (sortNode lc) items))).
  { intros items ->. rewrite NavFacts.array_sort_perm. apply Forall_map.
    pose proof (IH items eq_refl) as IHitems.
    pose proof (Hchildren items eq_refl) as Hitems.
    clear -IHitems Hitems. induction Hitems as [|x items Hx _ IHl];
      [constructor|].
    apply Forall_cons in IHitems as [IHx IHitems].
    constructor; [by apply IHx|by apply IHl]. }
  constructor.
  - unfold claimed.
    destruct Hclaimed as [Hhref|(child & rest & ->)]; [by left|].
    right. cbn [nav_children].
    pose proof (NavFacts.array_sort_perm lc
                  (List.map (sortNode lc) (child :: rest))) as Hperm.
    destruct (array_sort lc (List.map (sortNode lc) (child :: rest)))
      as [|c cs]; [|eauto].
    by apply Permutation_nil in Hperm.
  - simpl. intros items Hitems. destruct children as [l|]; [|done].
    injection Hitems as <-. by apply Hsorted.
Qed.

End ValidFacts.

(** C9. For every locale and every list of documents, every item at every
    depth of the list that [getSidebar] returns has a link or at least one
    child. *)
Theorem getSidebar_emits_no_empty_node (localeCompare : string -> string -> Z)
    (locale : Locale) (docs : list DocMeta) :
  Forall NavSpec.Valid (getSidebar localeCompare locale docs).
Proof.
  unfold getSidebar.
  pose proof (ValidFacts.sidebar_fold_valid locale docs (sidebar_root, None))
    as Hroot.
  destruct (List.fold_left _ docs _) as [root home] eqn:Hfold.
  simpl in Hroot.
  assert (Hhome : forall h, home = Some h -> NavSpec.Valid h).
  { intros h Hh.
    pose proof (NavFacts.sidebar_fold_home locale docs sidebar_root None) as E.
    rewrite Hfold in E. simpl in E. rewrite Hh in E.
    destruct (last _) as [doc|]; [|done]. injection E as ->.
    constructor; [by left|]. intros items H. discriminate H. }
  assert (Htree : Forall NavSpec.Valid
                    (sortTree localeCompare (default [] (nav_children root)))).
  { unfold sortTree. rewrite NavFacts.array_sort_perm. apply Forall_map.
    assert (Hitems : Forall NavSpec.Valid (default [] (nav_children root))).
    { destruct (nav_children root) as [l|] eqn:E; [|constructor].
      apply Hroot; [|done]. intros items [= <-]. constructor. }
    eapply Forall_impl; [exact Hitems|].
    intros item. apply ValidFacts.sortNode_valid. }
  destruct home as [h|]; [|done]. constructor; [by apply Hhome|done].
Qed.
(** ** The order of the sidebar *)

Module ComparableFacts.
Import NavSpec.

Section Walk.

Variable locale : Locale.
Variable doc : DocMeta.
Hypothesis doc_order : meta_order doc <> NaN.

Lemma comparable_children (item : NavItem) (items : list NavItem) :
  Comparable item -> nav_children item = Some items -> Forall Comparable items.
Proof. intros [item' _ H]. apply H. Qed.

Lemma comparable_default_children (item : NavItem) :
  Comparable item -> Forall Comparable (default [] (nav_children item)).
Proof.
  intros Hitem. destruct (nav_children item) as [items|] eqn:E; [|constructor].
  by apply (comparable_children item).
Qed.

Lemma ensure_children_comparable (current : NavItem) :
  Comparable current -> Comparable (ensure_children current).
Proof.
  intros Hcurrent. unfold ensure_children.
  destruct (nav_children current) eqn:E; [done|].
  apply NavFacts.comparable_inv in Hcurrent as [Horder _].
  constructor; [done|]. simpl. intros items [= <-]. constructor.
Qed.

Lemma set_children_comparable (current : NavItem) (items : list NavItem) :
  Comparable current -> Forall Comparable items ->
  Comparable (set_children current items).
Proof.
  intros [Horder _]%NavFacts.comparable_inv Hitems.
  constructor; [done|]. simpl. by intros ? [= <-].
Qed.

Lemma place_comparable (current : NavItem) :
  Comparable current -> Comparable (place locale doc current).
Proof.
  intros Hcurrent. unfold place. destruct (meta_isIndex doc).
  - constructor; [done|]. simpl. intros items.
    by apply comparable_children.
  - apply set_children_comparable; [done|]. apply Forall_app. split.
    + by apply comparable_default_children.
    + constructor; [|constructor].
      constructor; [done|]. intros items H. discriminate H.
Qed.

Lemma new_section_comparable (segment : string) :
  Comparable (new_section segment).
Proof. constructor; [done|]. simpl. intros items [= <-]. constructor. Qed.

Lemma walk_comparable (segments : list string) :
  forall current,
    Comparable current -> Comparable (walk locale doc segments current).
Proof.
  induction segments as [|segment rest IH]; intros current Hcurrent.
  - by apply place_comparable.
  - cbn [walk]. apply ensure_children_comparable in Hcurrent.
    destruct (_ && _); [by apply place_comparable|].
    pose proof (comparable_default_children _ Hcurrent) as Hchildren.
    destruct (update_first _ _ _) as [children'|] eqn:Hupdate.
    + apply ValidFacts.update_first_spec in Hupdate
        as (pre & x & post & Hsplit & ->).
      rewrite Hsplit in Hchildren.
      apply Forall_app in Hchildren as [Hpre Hxpost].
      apply Forall_cons in Hxpost as [Hx Hpost].
      apply set_children_comparable; [done|].
      apply Forall_app. split; [done|]. constructor; [by apply IH|done].
    + apply set_children_comparable; [done|].
      apply Forall_app. split; [done|].
      constructor; [|constructor]. apply IH, new_section_comparable.
Qed.

End Walk.

Lemma sidebar_fold_comparable (locale : Locale) (docs : list DocMeta) :
  Forall (fun doc => NavTreeSpec.placed doc = true -> meta_order doc <> NaN)
    docs ->
  forall state,
    Comparable (fst state) ->
    Comparable (fst (List.fold_left (sidebar_step locale) docs state)).
Proof.
  induction 1 as [|doc docs Hdoc _ IH]; intros [root home] Hroot; [done|].
  cbn [List.fold_left]. apply IH. unfold sidebar_step.
  destruct (bool_decide _) eqn:Hintro; [done|].
  destruct (_ && _) eqn:Hhome; [done|].
  apply walk_comparable; [|done]. apply Hdoc.
  unfold NavTreeSpec.placed, NavTreeSpec.is_intro, is_home.
  by rewrite Hintro, Hhome.
Qed.

Lemma sidebar_root_comparable : Comparable sidebar_root.
Proof. constructor; [done|]. simpl. intros items [= <-]. constructor. Qed.

End ComparableFacts.

(** C2, the input at which the claim as first stated fails: the pages [a],
    [b] and [c] with the orders 2, [NaN] and 1. A front matter with
    [sidebar_position: .nan] is kept, [NaN] being a number for [typeof],
    and the difference of [NaN] and any order is [NaN], which the sort
    takes for zero. Every comparison of two neighbours answers zero, the
    list stays as it is, and the page of order 2 stands before the page of
    order 1. *)
Lemma getSidebar_keeps_nan_order :
  getSidebar Sample.compare_code_units en
    [Sample.page "a" 2; Sample.page "b" NaN; Sample.page "c" 1]
  = [Sample.item "a" 2; Sample.item "b" NaN; Sample.item "c" 1] /\
  ~ Sorted (NavSpec.before Sample.compare_code_units)
      (getSidebar Sample.compare_code_units en
         [Sample.page "a" 2; Sample.page "b" NaN; Sample.page "c" 1]) /\
  ~ NavSpec.before Sample.compare_code_units
      (Sample.item "a" 2) (Sample.item "c" 1).
Proof.
  assert (E : getSidebar Sample.compare_code_units en
                [Sample.page "a" 2; Sample.page "b" NaN; Sample.page "c" 1]
              = [Sample.item "a" 2; Sample.item "b" NaN; Sample.item "c" 1])
    by (vm_compute; reflexivity).
  split; [exact E|]. split.
  - rewrite E. intros Hsorted.
    apply Sorted_inv in Hsorted as [_ Hhd]. apply HdRel_inv in Hhd.
    by destruct Hhd as [Hlt|[Heq _]].
  - by intros [Hlt|[Heq _]].
Qed.

(** C2. For every locale and every list of documents in which no document
    with a place in the tree has the order [NaN], with a consistent
    comparison of titles, the list that [getSidebar] returns is the home
    node, when there is one, whatever its order, followed by a list that is
    sorted by order and then title; every list of children at every depth
    is sorted in the same way. Items with the orders 9999, 2, 2, 1 and the
    titles Zebra, Banana, Apple, Intro come out as Intro, Apple, Banana,
    Zebra. *)
Theorem getSidebar_sorted (localeCompare : string -> string -> Z) :
  NavSpec.antisymmetric localeCompare ->
  (forall locale docs,
     Forall (fun doc =>
               NavTreeSpec.placed doc = true -> meta_order doc <> NaN)
       docs ->
     exists rest,
       getSidebar localeCompare locale docs
       = option_list (NavSpec.home_of locale docs) ++ rest /\
       Sorted (NavSpec.before localeCompare) rest /\
       Forall (NavSpec.DeepSorted localeCompare)
         (getSidebar localeCompare locale docs)) /\
  (localeCompare "Apple" "Banana" < 0 ->
   sortTree localeCompare
     [Sample.item "Zebra" 9999; Sample.item "Banana" 2;
      Sample.item "Apple" 2; Sample.item "Intro" 1]
   = [Sample.item "Intro" 1; Sample.item "Apple" 2;
      Sample.item "Banana" 2; Sample.item "Zebra" 9999]).
Proof.
  intros Hanti. split.
  - intros locale docs Hdocs.
    pose proof (ComparableFacts.sidebar_fold_comparable locale docs Hdocs
                  (sidebar_root, None) ComparableFacts.sidebar_root_comparable)
      as Hroot.
    rewrite (NavFacts.getSidebar_tree localeCompare locale docs).
    set (root := fst (List.fold_left (sidebar_step locale) docs
                        (sidebar_root, None))) in *.
    destruct (NavFacts.sortTree_deep_sorted localeCompare
                (default [] (nav_children root)) Hanti
                (ComparableFacts.comparable_default_children root Hroot))
      as [Hsorted Hdeep].
    exists (sortTree localeCompare (default [] (nav_children root))).
    split; [done|]. split; [done|].
    apply Forall_app. split; [|done].
    unfold NavSpec.home_of. destruct (last _) as [doc|]; [|constructor].
    constructor; [|constructor]. constructor. intros ch Hch.
    discriminate Hch.
  - intros Hlt.
    pose proof (Hanti "Apple" "Banana") as Hswap.
    assert (E : (inject_Z (localeCompare "Banana" "Apple") ?= inject_Z 0)%Q
                = Gt).
    { unfold Qcompare. simpl. rewrite Z.mul_1_r. apply Z.compare_gt_iff. lia. }
    unfold sortTree. simpl.
    unfold SortCompare, compareNav, Number.le. simpl.
    rewrite E. simpl.
    unfold SortCompare, compareNav, Number.le. simpl. reflexivity.
Qed.

Lemma compare_code_units_antisym :
  NavSpec.antisymmetric Sample.compare_code_units.
Proof.
  intros a b. unfold Sample.compare_code_units.
  rewrite (String.compare_antisym a b).
  by destruct (String.compare b a).
Qed.

Lemma getSidebar_sorted_witness :
  (exists rest,
     getSidebar Sample.compare_code_units zh Sample.pages
     = option_list (NavSpec.home_of zh Sample.pages) ++ rest /\
     Sorted (NavSpec.before Sample.compare_code_units) rest /\
     Forall (NavSpec.DeepSorted Sample.compare_code_units)
       (getSidebar Sample.compare_code_units zh Sample.pages)) /\
  sortTree Sample.compare_code_units
    [Sample.item "Zebra" 9999; Sample.item "Banana" 2;
     Sample.item "Apple" 2; Sample.item "Intro" 1]
  = [Sample.item "Intro" 1; Sample.item "Apple" 2;
     Sample.item "Banana" 2; Sample.item "Zebra" 9999].
Proof.
  destruct (getSidebar_sorted Sample.compare_code_units
              compare_code_units_antisym) as [Hall Hexample].
  split.
  - apply Hall. unfold Sample.pages, Sample.page.
    repeat (constructor;
            [intros Hplaced; first [discriminate Hplaced|discriminate]|]).
    constructor.
  - apply Hexample. reflexivity.
Defined.
(** ** Titles *)

Module TitleFacts.

Import TitleSpec.

Lemma or_string_nonempty (a : option string) (b : string) :
  b <> "" -> or_string a b <> "".
Proof.
  intros Hb. unfold or_string. destruct a as [s|]; [|done].
  destruct s; simpl; done.
Qed.

Lemma prefix_app (p tail : string) : Str.prefix p (p +:+ tail) = true.
Proof.
  induction p as [|c p IH]; simpl; [reflexivity|].
  by rewrite Ascii.eqb_refl.
Qed.

Lemma replaceAll_from_skip (a tail p r : string) :
  Str.replaceAll_from (Str.len a) p r (a +:+ tail) = Str.replaceAll_from O p r tail.
Proof.
  induction a as [|c a IH]; simpl; [reflexivity|].
  exact IH.
Qed.

Lemma replaceAll_miss (p r : string) (c : ascii) (s : string) :
  Str.prefix p (String c s) = false ->
  Str.replaceAll p r (String c s) = String c (Str.replaceAll p r s).
Proof. unfold Str.replaceAll. simpl. by intros ->. Qed.

Lemma replaceAll_hit (p r tail : string) :
  p <> "" ->
  Str.replaceAll p r (p +:+ tail) = r +:+ Str.replaceAll p r tail.
Proof.
  intros Hp. destruct p as [|c p]; [done|].
  unfold Str.replaceAll.
  change (String c p +:+ tail) with (String c (p +:+ tail)).
  cbn [Str.replaceAll_from].
  change (String c (p +:+ tail)) with (String c p +:+ tail) at 1.
  rewrite prefix_app. f_equal.
  replace (String.length (String c p) - 1)%nat with (Str.len p)
    by (simpl; lia).
  apply replaceAll_from_skip.
Qed.

Lemma replaceAll_absent (a : ascii) (p r s : string) :
  free_of a s = true -> Str.replaceAll (String a p) r s = s.
Proof.
  induction s as [|c s IH]; [reflexivity|].
  unfold free_of. simpl. intros [Hc Hs]%andb_true_iff.
  rewrite replaceAll_miss.
  - f_equal. by apply IH.
  - simpl. by destruct (Ascii.eqb a c).
Qed.

Lemma replaceAll_nonempty (p r s : string) :
  r <> "" -> s <> "" -> Str.replaceAll p r s <> "".
Proof.
  intros Hr Hs. destruct s as [|c s]; [done|].
  unfold Str.replaceAll. cbn [Str.replaceAll_from].
  destruct (Str.prefix p (String c s)); [|done].
  destruct r; [done|]. done.
Qed.

Lemma replaceAll_char (a b : ascii) (s : string) :
  Str.replaceAll (String a "") (String b "") s
  = Str.map (fun c => if Ascii.eqb a c then b else c) s.
Proof.
  induction s as [|c s IH]; [reflexivity|].
  unfold Str.replaceAll in *. simpl.
  rewrite andb_true_r. destruct (Ascii.eqb a c); simpl; by rewrite IH.
Qed.

Lemma unescapeTitle_nonempty (value : string) :
  value <> "" -> Toc.unescapeTitle value <> "".
Proof.
  intros Hv. unfold Toc.unescapeTitle.
  repeat (apply replaceAll_nonempty; [done|]). exact Hv.
Qed.

Lemma capitalize_words_len (after_word : bool) (s : string) :
  Str.len (capitalize_words after_word s) = Str.len s.
Proof.
  revert after_word. induction s as [|c s IH]; intros after_word; simpl;
    [reflexivity|].
  by rewrite IH.
Qed.

Lemma titleFromSlug_len (slug : list string) :
  Str.len (titleFromSlug slug) = Str.len (List.last slug "Home").
Proof.
  unfold titleFromSlug.
  by rewrite capitalize_words_len, !replaceAll_char, !StrFacts.len_map.
Qed.

Lemma last_Forall {A} (P : A -> Prop) (l : list A) (d : A) :
  Forall P l -> P d -> P (List.last l d).
Proof.
  intros Hl Hd. induction Hl as [|x l Hx Hl IH]; simpl; [done|].
  destruct l; [done|]. exact IH.
Qed.

Lemma titleFromSlug_nonempty (slug : list string) :
  Forall (fun segment => segment <> "") slug -> titleFromSlug slug <> "".
Proof.
  intros Hslug Htitle.
  pose proof (titleFromSlug_len slug) as Hlen. rewrite Htitle in Hlen.
  assert (List.last slug "Home" <> "") as Hlast.
  { by apply (last_Forall (fun segment => segment <> "")). }
  destruct (List.last slug "Home"); [done|]. simpl in Hlen. lia.
Qed.

Lemma resolveTitle_nonempty (data : FrontMatterData) (content : string)
    (slug : list string) :
  Forall (fun segment => segment <> "") slug ->
  resolveTitle data content slug <> "".
Proof.
  intros Hslug. unfold resolveTitle.
  apply unescapeTitle_nonempty.
  do 3 apply or_string_nonempty.
  by apply titleFromSlug_nonempty.
Qed.

(** One replacement of [unescapeTitle] takes one character out of the set
    of escaped ones. *)
Lemma unescape_stage (x : ascii) (E : list ascii) (t : string) :
  x <> backslash -> ~ In x E ->
  free_of backslash t = true ->
  Str.replaceAll (String backslash (String x "")) (String x "") (escape (x :: E) t)
  = escape E t.
Proof.
  intros Hx HxE. induction t as [|c t IH]; [reflexivity|].
  unfold free_of. simpl Str.all. intros [Hc Ht]%andb_true_iff.
  specialize (IH Ht).
  assert (Ascii.eqb backslash c = false) as Hbc by by destruct (Ascii.eqb backslash c).
  cbn [escape List.existsb].
  destruct (Ascii.eqb_spec x c) as [<-|Hxc]; cbn [orb].
  - assert (List.existsb (fun e => Ascii.eqb e x) E = false) as ->.
    { apply not_true_is_false. intros (e & He & Heq)%existsb_exists.
      apply Ascii.eqb_eq in Heq. by subst. }
    change (String backslash (String x (escape (x :: E) t)))
      with (String backslash (String x "") +:+ escape (x :: E) t).
    rewrite replaceAll_hit by done. simpl. by rewrite IH.
  - destruct (List.existsb (fun e => Ascii.eqb e c) E).
    + rewrite replaceAll_miss.
      2:{ simpl. by destruct (Ascii.eqb_spec x c). }
      rewrite replaceAll_miss.
      2:{ simpl. by rewrite Hbc. }
      by rewrite IH.
    + rewrite replaceAll_miss.
      2:{ simpl. by rewrite Hbc. }
      by rewrite IH.
Qed.

Lemma escape_nil (t : string) : escape [] t = t.
Proof. induction t as [|c t IH]; simpl; [reflexivity|]. by rewrite IH. Qed.

Lemma free_of_encode (c : ascii) (amp lt gt : bool) (s : string) :
  free_of c "&amp;lt;gt;" = true ->
  free_of c s = true -> free_of c (encode amp lt gt s) = true.
Proof.
  intros Hc. unfold free_of in *.
  induction s as [|d s IH]; [done|].
  simpl Str.all. intros [Hd Hs]%andb_true_iff. specialize (IH Hs).
  simpl in Hc.
  repeat (apply andb_true_iff in Hc as [? Hc]).
  cbn [encode].
  repeat (match goal with |- context [if ?b then _ else _] => destruct b end);
    simpl; rewrite ?IH; repeat (apply andb_true_iff; split); done.
Qed.

Lemma decode_lt (gt : bool) (s : string) :
  Str.replaceAll "&lt;" "<" (encode true true gt s) = encode true false gt s.
Proof.
  induction s as [|c s IH]; [reflexivity|].
  cbn [encode]. rewrite !andb_true_r, andb_false_r.
  destruct (Ascii.eqb_spec "&" c) as [<-|Hamp].
  - change ("&amp;" +:+ encode true true gt s)
      with (String "&" ("amp;" +:+ encode true true gt s)).
    rewrite replaceAll_miss by done.
    simpl. rewrite !replaceAll_miss by done. by rewrite IH.
  - destruct (Ascii.eqb_spec "<" c) as [<-|Hlt].
    + rewrite replaceAll_hit by done. by rewrite IH.
    + destruct (Ascii.eqb ">" c && gt).
      * change ("&gt;" +:+ encode true true gt s)
          with (String "&" ("gt;" +:+ encode true true gt s)).
        rewrite replaceAll_miss by done.
        simpl. rewrite !replaceAll_miss by done. by rewrite IH.
      * rewrite replaceAll_miss; [by rewrite IH|].
        simpl. by destruct (Ascii.eqb_spec "&" c).
Qed.

Lemma decode_gt (s : string) :
  Str.replaceAll "&gt;" ">" (encode true false true s) = encode true false false s.
Proof.
  induction s as [|c s IH]; [reflexivity|].
  cbn [encode]. rewrite !andb_true_r, !andb_false_r.
  destruct (Ascii.eqb_spec "&" c) as [<-|Hamp].
  - change ("&amp;" +:+ encode true false true s)
      with (String "&" ("amp;" +:+ encode true false true s)).
    rewrite replaceAll_miss by done.
    simpl. rewrite !replaceAll_miss by done. by rewrite IH.
  - destruct (Ascii.eqb_spec ">" c) as [<-|Hgt].
    + rewrite replaceAll_hit by done. by rewrite IH.
    + rewrite replaceAll_miss; [by rewrite IH|].
      simpl. by destruct (Ascii.eqb_spec "&" c).
Qed.

Lemma decode_amp (s : string) :
  Str.replaceAll "&amp;" "&" (encode true false false s) = s.
Proof.
  induction s as [|c s IH]; [reflexivity|].
  cbn [encode]. rewrite !andb_true_r, !andb_false_r.
  destruct (Ascii.eqb_spec "&" c) as [<-|Hamp].
  - rewrite replaceAll_hit by done. by rewrite IH.
  - rewrite replaceAll_miss; [by rewrite IH|].
    simpl. by destruct (Ascii.eqb_spec "&" c).
Qed.

Lemma free_of_trimStart_run (s : string) :
  Str.run Char.is_space (Str.trimStart s) = O.
Proof.
  unfold Str.trimStart. induction s as [|c s IH]; [reflexivity|].
  simpl. destruct (Char.is_space c) eqn:E; simpl; [exact IH|by rewrite E].
Qed.

Lemma take_drop_id (n : nat) (s : string) : Str.take n s +:+ Str.drop n s = s.
Proof.
  revert n. induction s as [|c s IH]; intros [|n]; simpl; try reflexivity.
  by rewrite IH.
Qed.

Lemma all_take_run p (s : string) : Str.all p (Str.take (Str.run p s) s) = true.
Proof.
  induction s as [|c s IH]; [reflexivity|].
  simpl. destruct (p c) eqn:E; simpl; [by rewrite E|reflexivity].
Qed.

Lemma run_all p (s : string) : Str.all p s = true -> Str.run p s = Str.len s.
Proof.
  induction s as [|c s IH]; [reflexivity|].
  simpl. intros [-> Hs]%andb_true_iff. by rewrite IH.
Qed.

Lemma greedy_head (n : nat) : Re.greedy (S n) 1 = S n :: Re.greedy n 1.
Proof. reflexivity. Qed.

(** The expression of [extractTitle] at a hash sign that is followed by
    white space and a text [u] up to the end of a line. *)
Lemma title_here_spec (W u tail : string) :
  W <> "" -> Str.all Char.is_space W = true ->
  u <> "" -> Str.run Char.is_space u = O -> Str.all Char.is_dot u = true ->
  Str.run Char.is_dot tail = O ->
  Toc.title_here (String Toc.hash (W +:+ u +:+ tail)) = Some u.
Proof.
  intros HW HWs Hu Hu0 Hud Htail.
  unfold Toc.title_here.
  assert (Toc.is_hash Toc.hash = true) as -> by reflexivity.
  assert (Str.run Char.is_space (W +:+ u +:+ tail) = Str.len W) as ->.
  { rewrite StrFacts.run_app_all by done.
    destruct u as [|d u]; [done|]. simpl in Hu0 |- *.
    destruct (Char.is_space d); [done|]. lia. }
  destruct W as [|w W]; [done|].
  cbn [String.length]. rewrite greedy_head. cbn [Re.first_success].
  change (S (Str.len W)) with (Str.len (String w W)).
  rewrite StrFacts.drop_app_len.
  rewrite StrFacts.run_app_all by done. rewrite Htail, Nat.add_0_r.
  destruct u as [|d u]; [done|].
  change (1 <=? Str.len (String d u))%nat with true. cbn iota.
  by rewrite StrFacts.take_app_len.
Qed.

End TitleFacts.

(** X1. [unescapeTitle] undoes the escaping of a title: the backslashes that
    Markdown puts before angle and square brackets go, in a title that has
    no backslash and no ampersand of its own, and the character references
    of HTML for the ampersand and the angle brackets are decoded, in a title
    that has no backslash of its own. *)
Theorem unescapeTitle_undoes_escapes :
  (forall t,
     TitleSpec.free_of TitleSpec.backslash t = true ->
     TitleSpec.free_of "&" t = true ->
     Toc.unescapeTitle (TitleSpec.markdown_escape t) = t) /\
  (forall t,
     TitleSpec.free_of TitleSpec.backslash t = true ->
     Toc.unescapeTitle (TitleSpec.html_escape t) = t).
Proof.
  split; intros t Hb.
  - intros Hamp. unfold Toc.unescapeTitle, TitleSpec.markdown_escape.
    pose proof TitleFacts.unescape_stage as Hs. unfold TitleSpec.backslash in Hs.
    rewrite (Hs "<"%char), (Hs ">"%char), (Hs "["%char), (Hs "]"%char);
      try done; try (simpl; intuition discriminate).
    rewrite TitleFacts.escape_nil.
    rewrite (TitleFacts.replaceAll_absent "&" "lt;" "<" t) by done.
    rewrite (TitleFacts.replaceAll_absent "&" "gt;" ">" t) by done.
    by rewrite (TitleFacts.replaceAll_absent "&" "amp;" "&" t).
  - unfold Toc.unescapeTitle, TitleSpec.html_escape.
    assert (TitleSpec.free_of TitleSpec.backslash
              (TitleSpec.encode true true true t) = true) as Hfree.
    { by apply TitleFacts.free_of_encode. }
    unfold TitleSpec.backslash in Hfree.
    rewrite (TitleFacts.replaceAll_absent "\" "<" "<" _ Hfree).
    rewrite (TitleFacts.replaceAll_absent "\" ">" ">" _ Hfree).
    rewrite (TitleFacts.replaceAll_absent "\" "[" "[" _ Hfree).
    rewrite (TitleFacts.replaceAll_absent "\" "]" "]" _ Hfree).
    by rewrite TitleFacts.decode_lt, TitleFacts.decode_gt, TitleFacts.decode_amp.
Qed.

Lemma unescapeTitle_undoes_escapes_witness :
  Toc.unescapeTitle (TitleSpec.markdown_escape "Map<K, V>[]") = "Map<K, V>[]" /\
  Toc.unescapeTitle (TitleSpec.html_escape "a < b && c > d") = "a < b && c > d".
Proof.
  split.
  - apply (proj1 unescapeTitle_undoes_escapes); reflexivity.
  - apply (proj2 unescapeTitle_undoes_escapes); reflexivity.
Defined.

(** X2. A content that starts with a level-1 heading has the text of that
    heading as its title, without the white space around it: [extractTitle]
    of a hash sign, white space, a text [t] on one line that is not blank,
    and then the end of the content or of the line, is [t] trimmed. *)
Theorem extractTitle_reads_first_heading (ws t tail : string) :
  ws <> "" -> Str.all Char.is_space ws = true ->
  Str.all Char.is_dot t = true -> Str.trimStart t <> "" ->
  Str.run Char.is_dot tail = O ->
  Toc.extractTitle ("#" +:+ ws +:+ t +:+ tail) = Some (Str.trim t).
Proof.
  intros Hws Hspace Hdot Htext Htail.
  set (sp := Str.take (Str.run Char.is_space t) t).
  assert (t = sp +:+ Str.trimStart t) as Ht.
  { unfold sp, Str.trimStart. by rewrite TitleFacts.take_drop_id. }
  assert (Str.all Char.is_dot (Str.trimStart t) = true) as Hdot'.
  { rewrite Ht, StrFacts.all_app in Hdot. by apply andb_true_iff in Hdot as [_ ?]. }
  assert (Toc.title_here ("#" +:+ ws +:+ t +:+ tail) = Some (Str.trimStart t)) as Hhere.
  { rewrite Ht at 1.
    rewrite <- (TitleFacts.title_here_spec (ws +:+ sp) (Str.trimStart t) tail).
    - simpl. by rewrite !StrFacts.append_assoc.
    - destruct ws; done.
    - rewrite StrFacts.all_app, Hspace. apply TitleFacts.all_take_run.
    - done.
    - apply TitleFacts.free_of_trimStart_run.
    - done.
    - done. }
  unfold Toc.extractTitle.
  assert (Toc.title_search true ("#" +:+ ws +:+ t +:+ tail) = Some (Str.trimStart t)) as ->.
  { change ("#" +:+ ws +:+ t +:+ tail) with (String "#" (ws +:+ t +:+ tail)) in *.
    cbn [Toc.title_search]. by rewrite Hhere. }
  f_equal. unfold Str.trim. f_equal.
  unfold Str.trimStart at 1. by rewrite TitleFacts.free_of_trimStart_run.
Qed.

Lemma extractTitle_reads_first_heading_witness :
  Toc.extractTitle ("#" +:+ " " +:+ "Getting started " +:+ Sample.nl)
  = Some (Str.trim "Getting started ").
Proof.
  apply extractTitle_reads_first_heading; (done || reflexivity).
Defined.

(** X3. A document that [getDoc] returns has a title: for a slug without an
    empty segment the title is never the empty string, whatever the
    frontmatter and the content are. *)
Theorem getDoc_title_nonempty cwd fs matter (locale : Locale)
    (slug : list string) (doc : DocData) :
  Forall (fun segment => segment <> "") slug ->
  getDoc cwd fs matter locale slug = Normal (Some doc) ->
  doc_title doc <> "".
Proof.
  intros Hslug. unfold getDoc.
  destruct (isChangelogSlug slug).
  - destruct (readFileSyncSafe fs _) as [source|e]; simpl; [|done].
    intros [= <-]. simpl. by apply TitleFacts.resolveTitle_nonempty.
  - destruct (resolveDocPath cwd fs locale slug) as [filePath|]; [|done].
    destruct (readFileSyncSafe fs filePath) as [source|e]; simpl; [|done].
    destruct (matter source) as [parsed|e]; simpl; [|done].
    destruct (processIncludeDirectives cwd fs _ filePath) as [processed|e];
      simpl; [|done].
    intros [= <-]. simpl. by apply TitleFacts.resolveTitle_nonempty.
Qed.

Lemma getDoc_title_nonempty_witness :
  exists doc,
    getDoc Sample.cwd Sample.api_fs Sample.plain_matter en ["api"; "foo"]
    = Normal (Some doc) /\ doc_title doc <> "".
Proof.
  eexists. split; [vm_compute; reflexivity|].
  eapply (getDoc_title_nonempty Sample.cwd Sample.api_fs Sample.plain_matter
            en ["api"; "foo"]).
  - repeat constructor; done.
  - vm_compute. reflexivity.
Defined.

Module TitleShape.

Import TitleSpec.

Lemma to_upper_word_hyphen (c : ascii) :
  Ascii.eqb "-" (Char.to_upper_word c) = Ascii.eqb "-" c.
Proof.
  destruct c as [b0 b1 b2 b3 b4 b5 b6 b7].
  destruct b0, b1, b2, b3, b4, b5, b6, b7; reflexivity.
Qed.

Lemma to_upper_word_underscore (c : ascii) :
  Ascii.eqb "_" (Char.to_upper_word c) = Ascii.eqb "_" c.
Proof.
  destruct c as [b0 b1 b2 b3 b4 b5 b6 b7].
  destruct b0, b1, b2, b3, b4, b5, b6, b7; reflexivity.
Qed.

Lemma free_of_capitalize (x : ascii) (after_word : bool) (s : string) :
  (forall c, Ascii.eqb x (Char.to_upper_word c) = Ascii.eqb x c) ->
  free_of x s = true -> free_of x (capitalize_words after_word s) = true.
Proof.
  intros Hx. unfold free_of. revert after_word.
  induction s as [|c s IH]; intros after_word; [done|].
  simpl. intros [Hc Hs]%andb_true_iff.
  rewrite IH by done. rewrite andb_true_r.
  destruct (Char.is_word c && negb after_word); [by rewrite Hx|done].
Qed.

Lemma free_of_map (x : ascii) f (s : string) :
  (forall c, Ascii.eqb x (f c) = false) -> free_of x (Str.map f s) = true.
Proof.
  intros Hf. unfold free_of. induction s as [|c s IH]; [done|].
  simpl. by rewrite Hf, IH.
Qed.

Lemma free_of_map_keep (x : ascii) f (s : string) :
  (forall c, Ascii.eqb x c = false -> Ascii.eqb x (f c) = false) ->
  free_of x s = true -> free_of x (Str.map f s) = true.
Proof.
  intros Hf. unfold free_of. induction s as [|c s IH]; [done|].
  simpl. intros [Hc Hs]%andb_true_iff.
  rewrite IH by done. rewrite Hf; [done|]. by destruct (Ascii.eqb x c).
Qed.

End TitleShape.

(** X4. The title that [titleFromSlug] makes of a slug has the length of the
    last segment, or of [Home] for the empty slug, and neither a hyphen nor
    an underscore is left in it. *)
Theorem titleFromSlug_shape (slug : list string) :
  Str.len (titleFromSlug slug) = Str.len (List.last slug "Home") /\
  TitleSpec.free_of "-" (titleFromSlug slug) = true /\
  TitleSpec.free_of "_" (titleFromSlug slug) = true.
Proof.
  split; [apply TitleFacts.titleFromSlug_len|].
  unfold titleFromSlug. rewrite !TitleFacts.replaceAll_char. split.
  - apply TitleShape.free_of_capitalize; [apply TitleShape.to_upper_word_hyphen|].
    apply (TitleShape.free_of_map_keep "-"
             (fun c => if Ascii.eqb "_" c then " "%char else c));
      [intros c Hc; by destruct (Ascii.eqb "_" c)|].
    apply (TitleShape.free_of_map "-"
             (fun c => if Ascii.eqb "-" c then " "%char else c)).
    intros c. by destruct (Ascii.eqb "-" c) eqn:E.
  - apply TitleShape.free_of_capitalize; [apply TitleShape.to_upper_word_underscore|].
    apply (TitleShape.free_of_map "_"
             (fun c => if Ascii.eqb "_" c then " "%char else c)).
    intros c. by destruct (Ascii.eqb "_" c) eqn:E.
Qed.
(** ** The navigation groups *)

Module NavigationFacts.

Import Navigation.

Lemma remapHref_default (href : option string) :
  remapHref DEFAULT_LOCALE href = href.
Proof.
  destruct href as [h|]; simpl; [|reflexivity].
  by destruct (negb (RemarkLinks.truthy h)).
Qed.

Lemma remapHref_idem (locale : Locale) (href : option string) :
  remapHref locale (remapHref locale href) = remapHref locale href.
Proof.
  destruct href as [h|]; [|reflexivity].
  destruct (decide (locale = DEFAULT_LOCALE)) as [->|Hl].
  { by rewrite !remapHref_default. }
  assert (remapHref locale (Some h) = Some h \/
          remapHref locale (Some h) = Some (localeBasePath locale +:+ h) /\
          Str.startsWith h "/docs" = true) as [E | [E Hs]].
  { unfold remapHref. destruct (negb (RemarkLinks.truthy h)); [by left|].
    destruct (decide _); [by left|].
    destruct (Str.startsWith h "/docs"); [by right|by left]. }
  - by rewrite !E.
  - rewrite E. destruct h as [|c h]; [done|].
    destruct locale; [done| |]; reflexivity.
Qed.

Lemma localeBasePath_docs (locale : Locale) (rest : string) :
  Str.startsWith (localeBasePath locale +:+ "/docs" +:+ rest) "/docs"
  = bool_decide (locale = DEFAULT_LOCALE).
Proof. by destruct locale. Qed.

Lemma find_segment_is (segment : string) (items : list NavItem) :
  match List.find (segment_is segment) items with
  | Some item => In item items /\ nav_segment item = Some segment
  | None => List.existsb (segment_is segment) items = false
  end.
Proof.
  induction items as [|x items IH]; simpl; [done|].
  unfold segment_is at 1 3. case_bool_decide as Hx; simpl.
  - split; [by left|done].
  - destruct (List.find _ items); [|done].
    destruct IH as [? ?]. split; [by right|done].
Qed.

End NavigationFacts.

(** X5. Under the default locale [remapNavItem] changes nothing: an item
    comes back as it went in, with every item below it. *)
Theorem remapNavItem_default_is_identity (item : NavItem) :
  Navigation.remapNavItem DEFAULT_LOCALE item = item.
Proof.
  induction item as [title href order children segment IH]
    using NavFacts.NavItem_nested_ind.
  simpl Navigation.remapNavItem.
  rewrite NavigationFacts.remapHref_default.
  destruct children as [items|]; [|reflexivity].
  specialize (IH items eq_refl). f_equal. f_equal.
  induction IH as [|x l Hx _ IHl]; simpl; [reflexivity|].
  by rewrite Hx, IHl.
Qed.

(** X6. [remapNavItem] puts the locale prefix once: remapping a remapped
    item, at any depth, changes nothing more. *)
Theorem remapNavItem_idempotent (locale : Locale) (item : NavItem) :
  Navigation.remapNavItem locale (Navigation.remapNavItem locale item)
  = Navigation.remapNavItem locale item.
Proof.
  induction item as [title href order children segment IH]
    using NavFacts.NavItem_nested_ind.
  simpl Navigation.remapNavItem.
  rewrite NavigationFacts.remapHref_idem.
  destruct children as [items|]; [|reflexivity].
  specialize (IH items eq_refl). f_equal. f_equal.
  induction IH as [|x l Hx _ IHl]; simpl; [reflexivity|].
  by rewrite Hx, IHl.
Qed.

(** X7. Remapping the link of a document of the default locale gives the
    link that [docHref] makes for the same slug under the locale. *)
Theorem remapHref_follows_docHref (locale : Locale) (slug : list string) :
  Navigation.remapHref locale (Some (docHref DEFAULT_LOCALE slug))
  = Some (docHref locale slug).
Proof.
  destruct locale, slug; reflexivity.
Qed.

(** X8. The header of [buildNavigationGroups]: the groups are docs, then api
    exactly when the default sidebar has an item of segment [api], then
    benchmark and playground; the header has one entry for each, with the
    segment as its key and a link that is never empty. *)
Theorem buildNavigationGroups_header (locale : Locale)
    (items defaultItems : list NavItem) (ui : UiStrings) (slug : list string) :
  let data := Navigation.buildNavigationGroups locale items defaultItems ui slug in
  let keys :=
    Some "docs" ::
    (if List.existsb (Navigation.segment_is "api") defaultItems
     then [Some "api"] else []) ++
    [Some "benchmark"; Some "playground"] in
  List.map nav_segment (groups data) = keys /\
  List.map group_key (navGroups data) = keys /\
  List.map group_title (navGroups data) = List.map nav_title (groups data) /\
  Forall (fun group => group_href group <> "") (navGroups data).
Proof.
  cbv zeta. unfold Navigation.buildNavigationGroups. cbn [groups navGroups].
  pose proof (NavigationFacts.find_segment_is "api" defaultItems) as Hfind.
  destruct (List.find (Navigation.segment_is "api") defaultItems) as [source|].
  - destruct Hfind as [Hin Hseg].
    assert (List.existsb (Navigation.segment_is "api") defaultItems = true) as ->.
    { apply existsb_exists. exists source. split; [done|].
      unfold Navigation.segment_is. by apply bool_decide_eq_true. }
    assert (nav_segment (Navigation.remapNavItem locale source) = Some "api") as Hseg'.
    { by destruct source. }
    simpl. rewrite Hseg'. repeat split.
    repeat constructor; simpl;
      try (apply TitleFacts.or_string_nonempty; [by destruct locale || done]);
      try (by destruct locale).
    apply TitleFacts.or_string_nonempty.
    by apply TitleFacts.or_string_nonempty.
  - rewrite Hfind. simpl. repeat split.
    repeat constructor; simpl; by destruct locale.
Qed.

(** X9. The active group of [buildNavigationGroups] is the api group when
    the slug starts with [api] and the default sidebar has an api item, and
    the documentation group in every other case; it is one of the groups,
    and the sidebar shows that group alone. The documentation group links to
    the docs of the locale and holds the items of a segment other than the
    empty one and [api], in their order. *)
Theorem buildNavigationGroups_active (locale : Locale)
    (items defaultItems : list NavItem) (ui : UiStrings) (slug : list string) :
  let data := Navigation.buildNavigationGroups locale items defaultItems ui slug in
  let api :=
    bool_decide (head slug = Some "api") &&
    List.existsb (Navigation.segment_is "api") defaultItems in
  sidebarItems data = [activeGroup data] /\
  In (activeGroup data) (groups data) /\
  nav_segment (activeGroup data) = Some (if api then "api" else "docs") /\
  (api = true ->
   exists source,
     List.find (Navigation.segment_is "api") defaultItems = Some source /\
     activeGroup data
     = Navigation.with_title (Navigation.remapNavItem locale source) (ui_api ui)) /\
  (api = false ->
   activeGroup data
   = {| nav_title := ui_docs ui;
        nav_href := Some (docHref locale []);
        nav_order := 0;
        nav_children := Some (List.filter Navigation.isDocumentationItem items);
        nav_segment := Some "docs" |}).
Proof.
  cbv zeta. unfold Navigation.buildNavigationGroups.
  cbn [groups navGroups activeGroup sidebarItems].
  pose proof (NavigationFacts.find_segment_is "api" defaultItems) as Hfind.
  destruct (List.find (Navigation.segment_is "api") defaultItems) as [source|].
  - destruct Hfind as [Hin Hseg].
    assert (List.existsb (Navigation.segment_is "api") defaultItems = true) as ->.
    { apply existsb_exists. exists source. split; [done|].
      unfold Navigation.segment_is. by apply bool_decide_eq_true. }
    assert (nav_segment (Navigation.remapNavItem locale source) = Some "api") as Hseg'.
    { by destruct source. }
    assert (Navigation.segment_is "api"
              (Navigation.with_title (Navigation.remapNavItem locale source)
                 (ui_api ui)) = true) as Hapi.
    { unfold Navigation.segment_is. by apply bool_decide_eq_true. }
    rewrite andb_true_r.
    case_bool_decide as Hslug; simpl.
    + rewrite Hapi.
      split; [done|]. split; [by right; left|]. split; [done|].
      split; [|done]. intros _. by exists source.
    + split; [done|]. split; [by left|]. split; [done|]. split; [done|].
      intros _. reflexivity.
  - rewrite Hfind, andb_false_r.
    case_bool_decide as Hslug; simpl;
      (split; [done|]; split; [by left|]; split; [done|]; split; [done|];
       intros _; reflexivity).
Qed.

Lemma buildNavigationGroups_active_witness :
  let ui := {| ui_docs := "Documentation"; ui_api := "API";
               ui_benchmark := "Benchmark"; ui_playground := "Playground" |} in
  let source := Sample.item "api" 3 in
  activeGroup
    (Navigation.buildNavigationGroups zh [Sample.item "guides" 1] [source] ui
       ["api"; "classes"])
  = {| nav_title := "API"; nav_href := Some "/zh/docs/api"; nav_order := 3;
       nav_children := None; nav_segment := Some "api" |}.
Proof.
  cbv zeta.
  destruct (buildNavigationGroups_active zh [Sample.item "guides" 1]
              [Sample.item "api" 3]
              {| ui_docs := "Documentation"; ui_api := "API";
                 ui_benchmark := "Benchmark"; ui_playground := "Playground" |}
              ["api"; "classes"]) as (_ & _ & _ & Hapi & _).
  destruct (Hapi eq_refl) as (source & Hfind & ->).
  injection Hfind as <-. reflexivity.
Defined.
(** ** Locales and links *)

(** X10. A link of the sidebar leads to a page of its own locale: the locale
    that [getCurrentLocale] reads from the link that [docHref] makes for a
    locale, and from the link of the home item of that locale, is that
    locale. *)
Theorem getCurrentLocale_of_docHref (locale : Locale) :
  (forall slug, getCurrentLocale (Some (docHref locale slug)) = locale) /\
  (forall doc href,
     nav_href (home_item locale doc) = Some href ->
     getCurrentLocale (Some href) = locale).
Proof.
  split.
  - intros slug. unfold getCurrentLocale, docHref.
    destruct slug as [|s slug]; [by destruct locale|].
    set (rest := Str.join "/" (s :: slug)).
    destruct locale; simpl; reflexivity.
  - intros doc href [= <-]. by destruct locale.
Qed.

Lemma getCurrentLocale_of_docHref_witness :
  getCurrentLocale (Some "/ja/") = ja.
Proof.
  apply (proj2 (getCurrentLocale_of_docHref ja)
           {| meta_title := "Home"; meta_slug := []; meta_order := 0;
              meta_isIndex := true |}).
  reflexivity.
Defined.

(** X11. The API pages of a locale are those of the default locale: for a
    locale other than the default one and a slug under [api], the localized
    page shows the document of the default locale with the
    missing-translation notice and renders it as plain Markdown, also when
    the locale has a document of its own for that slug. *)
Theorem LocalePage_api_is_default_locale {ReactNode}
    (getDoc : Locale -> list string -> Completion (option DocData))
    (renderMdx : string -> RenderOptions -> Completion ReactNode)
    (locale : Locale) (slug : list string)
    (primaryDoc : option DocData) (fallbackDoc : DocData) (content : ReactNode) :
  locale <> DEFAULT_LOCALE ->
  head slug = Some "api" ->
  getDoc locale slug = Normal primaryDoc ->
  getDoc DEFAULT_LOCALE slug = Normal (Some fallbackDoc) ->
  renderMdx (doc_content fallbackDoc)
    {| render_basePath := "/" +:+ localeKey locale +:+ "/docs";
       render_slug := slug;
       render_isIndex := doc_isIndex fallbackDoc;
       render_useMarkdownOnly := true |} = Normal content ->
  LocalePage ReactNode getDoc renderMdx (localeKey locale) (Some slug)
  = Shell None
      {| shell_locale := locale;
         shell_toc := doc_toc fallbackDoc;
         shell_slug := slug;
         shell_notice := Some (missingTranslation locale);
         shell_children := content |}.
Proof.
  intros Hlocale Hapi Hprimary Hfallback Hrender.
  unfold LocalePage. rewrite isLocale_localeKey.
  destruct (decide (locale = DEFAULT_LOCALE)); [done|].
  destruct slug as [|s rest]; [done|]. injection Hapi as ->.
  change (default [] (Some ("api" :: rest))) with ("api" :: rest).
  assert (isIntroSlug ("api" :: rest) = false) as -> by by destruct rest.
  cbn [resolveSlug].
  assert (isApiSlug ("api" :: rest) = true) as -> by reflexivity.
  rewrite Hprimary, Hfallback. cbn [await orb]. by rewrite Hrender.
Qed.

Lemma LocalePage_api_is_default_locale_witness :
  exists primaryDoc fallbackDoc,
    getDoc Sample.cwd Site.api_translated_fs Sample.plain_matter zh ["api"; "foo"]
    = Normal (Some primaryDoc) /\
    getDoc Sample.cwd Site.api_translated_fs Sample.plain_matter en ["api"; "foo"]
    = Normal (Some fallbackDoc) /\
    LocalePage string
      (getDoc Sample.cwd Site.api_translated_fs Sample.plain_matter)
      Sample.render_source "zh" (Some ["api"; "foo"])
    = Shell None
        {| shell_locale := zh;
           shell_toc := doc_toc fallbackDoc;
           shell_slug := ["api"; "foo"];
           shell_notice := Some (missingTranslation zh);
           shell_children := doc_content fallbackDoc |}.
Proof.
  eexists. eexists. split; [vm_compute; reflexivity|].
  split; [vm_compute; reflexivity|].
  eapply (LocalePage_api_is_default_locale
            (getDoc Sample.cwd Site.api_translated_fs Sample.plain_matter)
            Sample.render_source zh ["api"; "foo"]).
  - discriminate.
  - reflexivity.
  - vm_compute. reflexivity.
  - vm_compute. reflexivity.
  - reflexivity.
Defined.

(** X12. A translated page is shown as it is: for a locale other than the
    default one and a slug that is not empty, not [intro] and not under
    [api], when the locale has a document for the slug the localized page
    shows that document without a notice, whether or not the default locale
    has one too. *)
Theorem LocalePage_shows_translation {ReactNode}
    (getDoc : Locale -> list string -> Completion (option DocData))
    (renderMdx : string -> RenderOptions -> Completion ReactNode)
    (locale : Locale) (slug : list string)
    (primaryDoc : DocData) (fallbackDoc : option DocData) (content : ReactNode) :
  locale <> DEFAULT_LOCALE ->
  slug <> [] -> slug <> ["intro"] -> head slug <> Some "api" ->
  getDoc locale slug = Normal (Some primaryDoc) ->
  getDoc DEFAULT_LOCALE slug = Normal fallbackDoc ->
  renderMdx (doc_content primaryDoc)
    {| render_basePath := "/" +:+ localeKey locale +:+ "/docs";
       render_slug := slug;
       render_isIndex := doc_isIndex primaryDoc;
       render_useMarkdownOnly := false |} = Normal content ->
  LocalePage ReactNode getDoc renderMdx (localeKey locale) (Some slug)
  = Shell None
      {| shell_locale := locale;
         shell_toc := doc_toc primaryDoc;
         shell_slug := slug;
         shell_notice := None;
         shell_children := content |}.
Proof.
  intros Hlocale Hne Hintro Hapi Hprimary Hfallback Hrender.
  unfold LocalePage. rewrite isLocale_localeKey.
  destruct (decide (locale = DEFAULT_LOCALE)); [done|].
  change (default [] (Some slug)) with slug.
  rewrite isIntroSlug_false by done.
  assert (resolveSlug slug = slug) as -> by by destruct slug.
  assert (isApiSlug slug = false) as ->.
  { unfold isApiSlug. by apply bool_decide_eq_false. }
  rewrite Hprimary, Hfallback. cbn [await or_doc orb].
  rewrite Hrender.
  by rewrite (bool_decide_eq_false_2 (Some primaryDoc = None)).
Qed.

Lemma LocalePage_shows_translation_witness :
  exists primaryDoc,
    getDoc Sample.cwd Site.translated_fs Sample.plain_matter zh ["guides"; "setup"]
    = Normal (Some primaryDoc) /\
    LocalePage string
      (getDoc Sample.cwd Site.translated_fs Sample.plain_matter)
      Sample.render_source "zh" (Some ["guides"; "setup"])
    = Shell None
        {| shell_locale := zh;
           shell_toc := doc_toc primaryDoc;
           shell_slug := ["guides"; "setup"];
           shell_notice := None;
           shell_children := doc_content primaryDoc |}.
Proof.
  eexists. split; [vm_compute; reflexivity|].
  eapply (LocalePage_shows_translation
            (getDoc Sample.cwd Site.translated_fs Sample.plain_matter)
            Sample.render_source zh ["guides"; "setup"]).
  - discriminate.
  - discriminate.
  - discriminate.
  - discriminate.
  - vm_compute. reflexivity.
  - vm_compute. reflexivity.
  - reflexivity.
Defined.
(** ** Paths under a root *)

Module PathFacts.

Import StrFacts LinkSpec SlugSpec SlugFacts ListingSpec.

Lemma go_proper_or_empty (allow : bool) (l : list string) :
  Forall (fun s => s = "" \/ proper s) l ->
  forall acc, Path.normalizeSegments_go allow acc l
              = List.rev acc ++ Str.filter_nonempty l.
Proof.
  induction 1 as [|s l Hs Hl IH]; intros acc.
  - simpl. by rewrite app_nil_r.
  - destruct Hs as [->|[[Hne _] [Hdot Hdots]]].
    + rewrite normalizeSegments_go_empty. by rewrite IH.
    + apply String.eqb_neq in Hne as Hne', Hdot, Hdots.
      simpl. rewrite Hne', Hdot, Hdots. simpl. rewrite IH.
      unfold Str.filter_nonempty. simpl. destruct s; [done|].
      simpl. by rewrite <- app_assoc.
Qed.

Lemma split_join_free (l : list string) :
  l <> [] -> Forall slash_free l ->
  Str.split Path.slash (Str.join "/" l) = l.
Proof.
  induction l as [|a l IH]; [done|]. intros _ Hall.
  apply Forall_cons in Hall as [Ha Hl].
  destruct l as [|b l].
  - simpl. by apply split_no_sep.
  - change (Str.join "/" (a :: b :: l))
      with (a +:+ String Path.slash (Str.join "/" (b :: l))).
    rewrite split_app_sep by done. f_equal. by apply IH.
Qed.

Lemma split_join_app (l : list string) (rest : string) :
  Forall slash_free l -> l <> [] ->
  Str.split Path.slash (Str.join "/" l +:+ "/" +:+ rest)
  = l ++ Str.split Path.slash rest.
Proof.
  induction l as [|a l IH]; [done|]. intros Hall _.
  apply Forall_cons in Hall as [Ha Hl].
  destruct l as [|b l].
  - change (Str.join "/" [a] +:+ "/" +:+ rest) with (a +:+ String Path.slash rest).
    by rewrite split_app_sep.
  - change (Str.join "/" (a :: b :: l))
      with (a +:+ String Path.slash (Str.join "/" (b :: l))).
    rewrite append_assoc.
    change (String Path.slash (Str.join "/" (b :: l)) +:+ "/" +:+ rest)
      with (String Path.slash (Str.join "/" (b :: l) +:+ "/" +:+ rest)).
    rewrite split_app_sep by done. rewrite IH by done. reflexivity.
Qed.

Lemma join_app (a b : list string) :
  a <> [] -> b <> [] ->
  Str.join "/" (a ++ b) = Str.join "/" a +:+ "/" +:+ Str.join "/" b.
Proof.
  intros Ha Hb. induction a as [|x a IH]; [done|].
  destruct a as [|y a].
  - destruct b; [done|]. reflexivity.
  - change (Str.join "/" ((x :: y :: a) ++ b))
      with (x +:+ "/" +:+ Str.join "/" ((y :: a) ++ b)).
    rewrite IH by done.
    change (Str.join "/" (x :: y :: a)) with (x +:+ "/" +:+ Str.join "/" (y :: a)).
    by rewrite !append_assoc.
Qed.

Lemma proper_free (l : list string) :
  Forall (fun s => s = "" \/ proper s) l -> Forall slash_free l.
Proof.
  intros H. eapply Forall_impl; [exact H|].
  intros s [->|[[_ ?] _]]; done.
Qed.

Lemma proper_or_empty (l : list string) :
  Forall proper l -> Forall (fun s => s = "" \/ proper s) l.
Proof. intros H. eapply Forall_impl; [exact H|]. by right. Qed.

(** The segments of an absolute path that is followed by relative ones. *)
Lemma split_absolute_app (l tail : list string) :
  Forall proper l -> Forall (fun s => s = "" \/ proper s) tail -> tail <> [] ->
  Str.filter_nonempty
    (Str.split Path.slash (absolute l +:+ "/" +:+ Str.join "/" tail))
  = l ++ Str.filter_nonempty tail /\
  Forall (fun s => s = "" \/ proper s)
    (Str.split Path.slash (absolute l +:+ "/" +:+ Str.join "/" tail)).
Proof.
  intros Hl Ht Hne.
  assert (Str.split Path.slash (Str.join "/" tail) = tail) as Htail.
  { apply split_join_free; [done|by apply proper_free]. }
  unfold absolute.
  change (("/" +:+ Str.join "/" l) +:+ "/" +:+ Str.join "/" tail)
    with (String Path.slash (Str.join "/" l +:+ "/" +:+ Str.join "/" tail)).
  cbn [Str.split]. rewrite Ascii.eqb_refl.
  destruct l as [|a l].
  - change (Str.join "/" [] +:+ "/" +:+ Str.join "/" tail)
      with (String Path.slash (Str.join "/" tail)).
    cbn [Str.split]. rewrite Ascii.eqb_refl, Htail. split.
    + reflexivity.
    + by do 2 (constructor; [by left|]).
  - rewrite split_join_app by (done || by apply proper_free, proper_or_empty).
    rewrite Htail. split.
    + change (Str.filter_nonempty ("" :: (a :: l) ++ tail))
        with (Str.filter_nonempty ((a :: l) ++ tail)).
      unfold Str.filter_nonempty. rewrite List.filter_app. f_equal.
      apply filter_nonempty_id. by apply proper_nonempty.
    + constructor; [by left|].
      apply Forall_app. split; [by apply proper_or_empty|done].
Qed.

Lemma endsWith_cons (c : ascii) (s p : string) :
  (Str.len p <= Str.len s)%nat ->
  Str.endsWith (String c s) p = Str.endsWith s p.
Proof.
  intros Hle. unfold Str.endsWith.
  assert ((Str.len p <=? Str.len (String c s))%nat = true) as ->.
  { apply Nat.leb_le. simpl. lia. }
  assert ((Str.len p <=? Str.len s)%nat = true) as -> by by apply Nat.leb_le.
  simpl andb. f_equal.
  cbn [String.length]. rewrite Nat.sub_succ_l by done.
  reflexivity.
Qed.

Lemma endsWith_app (a s p : string) :
  (Str.len p <= Str.len s)%nat ->
  Str.endsWith (a +:+ s) p = Str.endsWith s p.
Proof.
  intros Hle. induction a as [|c a IH]; [reflexivity|].
  change (String c a +:+ s) with (String c (a +:+ s)).
  rewrite endsWith_cons; [exact IH|]. rewrite len_app. lia.
Qed.

Lemma endsWith_self (s : string) : Str.endsWith s s = true.
Proof.
  unfold Str.endsWith. rewrite Nat.leb_refl, Nat.sub_diag. simpl.
  apply String.eqb_refl.
Qed.

Lemma endsWith_last_char (s : string) (c : ascii) (p : string) (d : ascii) :
  c <> d -> Str.endsWith (s +:+ String c "") (p +:+ String d "") = false.
Proof.
  intros Hcd. unfold Str.endsWith.
  destruct (Str.len (p +:+ String d "") <=? Str.len (s +:+ String c ""))%nat eqn:Hle;
    [|reflexivity].
  apply Nat.leb_le in Hle. rewrite !len_app in Hle. simpl in Hle.
  simpl andb. apply String.eqb_neq. intros E.
  pose proof (TitleFacts.take_drop_id
                (Str.len (s +:+ String c "") - Str.len (p +:+ String d ""))
                (s +:+ String c "")) as Hsplit.
  rewrite E in Hsplit.
  apply (f_equal String.rev) in Hsplit.
  rewrite !rev_app in Hsplit. simpl in Hsplit.
  injection Hsplit as E1 _. by subst.
Qed.

Lemma endsWith_no_slash (a n : string) :
  n <> "" -> Str.all not_slash n = true -> Str.endsWith (a +:+ n) "/" = false.
Proof.
  intros Hne Hn.
  assert (exists n' c, n = n' +:+ String c "" /\ c <> "/"%char) as (n' & c & -> & Hc).
  { clear a. induction n as [|x n IH]; [done|].
    simpl in Hn. apply andb_true_iff in Hn as [Hx Hn].
    destruct n as [|y n].
    - exists "", x. split; [done|]. intros ->. done.
    - destruct (IH ltac:(done) Hn) as (n' & c & E & Hc).
      exists (String x n'), c. split; [|done]. simpl. by rewrite <- E. }
  rewrite <- append_assoc.
  apply (endsWith_last_char (a +:+ n') c "" "/"). done.
Qed.

Lemma normalize_absolute_snoc (l : list string) (n : string) :
  Forall proper l -> proper n ->
  Path.normalize (absolute l +:+ "/" +:+ n) = absolute (l ++ [n]).
Proof.
  intros Hl Hn.
  destruct (split_absolute_app l [n]) as [Hsegs Hall];
    [done|by constructor; [right|]|done|].
  rewrite (filter_nonempty_id [n]) in Hsegs
    by (constructor; [by destruct Hn as [[? _] _]|done]).
  change (Str.join "/" [n]) with n in *.
  unfold Path.normalize.
  assert (Str.is_empty (absolute l +:+ "/" +:+ n) = false) as -> by reflexivity.
  assert (Str.startsWith (absolute l +:+ "/" +:+ n) "/" = true) as -> by reflexivity.
  assert (Str.endsWith (absolute l +:+ "/" +:+ n) "/" = false) as ->.
  { rewrite <- append_assoc. destruct Hn as [[? ?] _]. by apply endsWith_no_slash. }
  unfold Path.normalizeString, Path.normalizeSegments.
  rewrite go_proper_or_empty by done. rewrite Hsegs. simpl List.rev.
  cbn [negb app].
  assert (Str.is_empty (Str.join "/" (l ++ [n])) = false) as ->.
  { apply not_true_is_false. intros E%is_empty_true.
    revert E. apply LinkFacts.join_nonempty; [by destruct l|].
    apply proper_nonempty, Forall_app. split; [done|by constructor]. }
  by rewrite append_nil_r.
Qed.

(** [path.join] of a directory and the name of one of its entries. *)
Lemma join_under (l : list string) (n : string) :
  Forall proper l -> proper n ->
  Path.join [absolute l; n] = absolute (l ++ [n]).
Proof.
  intros Hl Hn. rewrite LinkFacts.join_two.
  - by apply normalize_absolute_snoc.
  - done.
  - by destruct Hn as [[? _] _].
Qed.

(** [path.resolve] of the working directory and two relative paths. *)
Lemma resolve_cwd_two (cs segs : list string) (a b : string) :
  Forall proper cs -> Forall proper segs -> segs <> [] ->
  a <> "" -> b <> "" ->
  Str.startsWith a "/" = false -> Str.startsWith b "/" = false ->
  a +:+ "/" +:+ b = Str.join "/" segs ->
  Path.resolve (absolute cs) [absolute cs; a; b] = absolute (cs ++ segs).
Proof.
  intros Hcs Hsegs Hne Ha Hb Hsa Hsb Hab.
  unfold Path.resolve.
  change (List.rev [absolute cs; absolute cs; a; b])
    with [b; a; absolute cs; absolute cs].
  cbn [Path.resolve_go].
  assert (Str.is_empty b = false) as -> by by destruct b.
  assert (Str.is_empty a = false) as -> by by destruct a.
  rewrite Hsa, Hsb.
  assert (Str.is_empty (absolute cs) = false) as -> by reflexivity.
  assert (Str.startsWith (absolute cs) "/" = true) as -> by reflexivity.
  cbv iota. unfold absolute at 2. f_equal.
  assert (absolute cs +:+ "/" +:+ a +:+ "/" +:+ b +:+ "/" +:+ ""
          = absolute cs +:+ "/" +:+ Str.join "/" (segs ++ [""])) as ->.
  { rewrite join_app by done. rewrite <- Hab.
    change (Str.join "/" [""]) with "". by rewrite !append_assoc. }
  destruct (split_absolute_app cs (segs ++ [""])) as [Hfilter Hall].
  { done. }
  { apply Forall_app. split; [by apply proper_or_empty|by constructor; [left|]]. }
  { by destruct segs. }
  unfold Path.normalizeString, Path.normalizeSegments. f_equal.
  rewrite go_proper_or_empty by done. rewrite Hfilter.
  unfold Str.filter_nonempty. rewrite List.filter_app. simpl.
  rewrite app_nil_r. f_equal. by apply filter_nonempty_id, proper_nonempty.
Qed.

End PathFacts.

(** ** The walk of [listDocFiles] *)

Module ListingFacts.

Import StrFacts LinkSpec SlugSpec SlugFacts PathFacts ListingSpec.

Lemma Dirent_nested_ind (P : Dirent -> Prop) :
  (forall name, P (DirentFile name)) ->
  (forall name entries, Forall P entries -> P (DirentDirectory name entries)) ->
  (forall name, P (DirentOther name)) ->
  forall entry, P entry.
Proof.
  intros Hfile Hdir Hother. fix IH 1.
  intros [name|name entries|name]; [apply Hfile| |apply Hother].
  apply Hdir. induction entries as [|e entries IHentries]; constructor.
  - apply IH.
  - exact IHentries.
Qed.

Lemma map_app (f : ascii -> ascii) (a b : string) :
  Str.map f (a +:+ b) = Str.map f a +:+ Str.map f b.
Proof. induction a as [|c a IH]; simpl; [reflexivity|]. by rewrite IH. Qed.

Lemma prefix_app_r (p s t : string) :
  Str.prefix p s = true -> Str.prefix p (s +:+ t) = true.
Proof.
  revert s. induction p as [|c p IH]; intros s; [done|].
  destruct s as [|d s]; [done|]. simpl.
  intros [-> Hp]%andb_true_iff. simpl. by apply IH.
Qed.

Lemma relativePath_map (segs : list string) :
  relativePath segs = Str.map unbackslash (Str.join "/" segs).
Proof. unfold relativePath. by rewrite TitleFacts.replaceAll_char. Qed.

Lemma relativePath_app (a b : list string) :
  a <> [] -> b <> [] ->
  relativePath (a ++ b) = relativePath a +:+ "/" +:+ relativePath b.
Proof.
  intros Ha Hb. rewrite !relativePath_map, join_app by done.
  by rewrite !map_app.
Qed.

Lemma to_lower_unbackslash (c : ascii) :
  Char.to_lower (unbackslash c) = unbackslash (Char.to_lower c).
Proof.
  destruct c as [b0 b1 b2 b3 b4 b5 b6 b7].
  destruct b0, b1, b2, b3, b4, b5, b6, b7; reflexivity.
Qed.

Lemma toLowerCase_unbackslash (s : string) :
  Str.toLowerCase (Str.map unbackslash s) = Str.map unbackslash (Str.toLowerCase s).
Proof.
  unfold Str.toLowerCase. induction s as [|c s IH]; [reflexivity|].
  simpl. by rewrite IH, to_lower_unbackslash.
Qed.

Lemma toLowerCase_app (a b : string) :
  Str.toLowerCase (a +:+ b) = Str.toLowerCase a +:+ Str.toLowerCase b.
Proof. apply map_app. Qed.

Lemma eqb_endsWith (s p : string) : String.eqb s p = true -> Str.endsWith s p = true.
Proof. intros ->%String.eqb_eq. apply endsWith_self. Qed.

(** A path that ends in a slash passes the README test. *)
Lemma readme_test_dir (d : string) :
  let normalized := Str.toLowerCase (d +:+ "/") in
  String.eqb normalized "readme.md" ||
  String.eqb normalized "readme.mdx" ||
  Str.endsWith normalized "/readme.md" ||
  Str.endsWith normalized "/readme.mdx" = false.
Proof.
  cbv zeta. rewrite toLowerCase_app.
  change (Str.toLowerCase "/") with "/".
  assert (forall lit,
            (exists p e, lit = p +:+ String e "" /\ e <> "/"%char) ->
            Str.endsWith (Str.toLowerCase d +:+ "/") lit = false) as Hend.
  { intros lit (p & e & -> & He). apply endsWith_last_char. congruence. }
  assert (forall lit,
            (exists p e, lit = p +:+ String e "" /\ e <> "/"%char) ->
            String.eqb (Str.toLowerCase d +:+ "/") lit = false) as Heq.
  { intros lit Hlit. apply not_true_is_false. intros E%eqb_endsWith.
    by rewrite Hend in E. }
  rewrite (Heq "readme.md") by (by exists "readme.m", "d"%char).
  rewrite (Heq "readme.mdx") by (by exists "readme.md", "x"%char).
  rewrite (Hend "/readme.md") by (by exists "/readme.m", "d"%char).
  rewrite (Hend "/readme.mdx") by (by exists "/readme.md", "x"%char).
  reflexivity.
Qed.

(** What is below an ignored directory is ignored. *)
Lemma ignored_dir_below (locale : Locale) (d more : string) :
  isIgnoredPath locale (d +:+ "/") = true ->
  isIgnoredPath locale (d +:+ "/" +:+ more) = true.
Proof.
  unfold isIgnoredPath. rewrite readme_test_dir.
  destruct (decide (locale = DEFAULT_LOCALE)); [|done].
  intros H.
  match goal with |- (if ?b then _ else _) = _ => destruct b end; [done|].
  unfold Str.startsWith in *.
  destruct (Str.prefix "i18n/" (d +:+ "/")) eqn:E1.
  { rewrite <- append_assoc. by rewrite (prefix_app_r _ _ _ E1). }
  destruct (Str.prefix "public/" (d +:+ "/")) eqn:E2; [|done].
  rewrite <- append_assoc. rewrite (prefix_app_r _ _ more E2).
  by destruct (Str.prefix "i18n/" ((d +:+ "/") +:+ more)).
Qed.

(** A README is ignored wherever it lies. *)
Lemma ignored_readme (locale : Locale) (dirs : list string) (name : string) :
  isReadme name = true ->
  isIgnoredPath locale (relativePath (dirs ++ [name])) = true.
Proof.
  intros Hname. unfold isIgnoredPath.
  assert (forall lit,
            Str.map unbackslash lit = lit ->
            String.eqb (Str.toLowerCase name) lit = true ->
            let normalized := Str.toLowerCase (relativePath (dirs ++ [name])) in
            String.eqb normalized lit = true \/
            Str.endsWith normalized ("/" +:+ lit) = true) as Hlit.
  { intros lit Hfix Hlow%String.eqb_eq. cbv zeta.
    destruct dirs as [|dir dirs].
    - left. simpl app. rewrite relativePath_map. simpl Str.join.
      rewrite toLowerCase_unbackslash, Hlow, Hfix. apply String.eqb_refl.
    - right. rewrite relativePath_app by done.
      rewrite (relativePath_map [name]). simpl Str.join.
      rewrite !toLowerCase_app, toLowerCase_unbackslash, Hlow, Hfix.
      change (Str.toLowerCase "/") with "/".
      rewrite endsWith_app by done.
      apply endsWith_self. }
  unfold isReadme in Hname. apply orb_true_iff in Hname as [Hmd|Hmdx].
  - destruct (Hlit "readme.md" eq_refl Hmd) as [E|E];
      change ("/" +:+ "readme.md") with "/readme.md" in E;
      rewrite E; by rewrite ?orb_true_r.
  - destruct (Hlit "readme.mdx" eq_refl Hmdx) as [E|E];
      change ("/" +:+ "readme.mdx") with "/readme.mdx" in E;
      rewrite E; by rewrite ?orb_true_r.
Qed.

Lemma filter_all_false {A} (p : A -> bool) (l : list A) :
  Forall (fun x => p x = false) l -> List.filter p l = [].
Proof. induction 1 as [|x l Hx _ IH]; simpl; [done|]. by rewrite Hx. Qed.

Lemma filter_map_cons {A B} (g : A -> A) (F : A -> B) (P : A -> bool) (l : list A) :
  List.map F (List.filter P (List.map g l))
  = List.map (fun x => F (g x)) (List.filter (fun x => P (g x)) l).
Proof.
  induction l as [|x l IH]; simpl; [done|].
  destruct (P (g x)); simpl; by rewrite IH.
Qed.

Lemma files_entry_nonempty (entry : Dirent) :
  Forall (fun segs => segs <> []) (files_entry entry).
Proof.
  destruct entry as [name|name entries|name]; simpl.
  - by constructor.
  - apply Forall_map. by apply Forall_true.
  - constructor.
Qed.

Lemma files_entry_proper (entry : Dirent) :
  Forall proper (names_entry entry) ->
  Forall (Forall proper) (files_entry entry).
Proof.
  induction entry as [name|name entries IH|name] using Dirent_nested_ind;
    simpl; intros Hnames.
  - by constructor.
  - apply Forall_cons in Hnames as [Hname Hnames].
    apply Forall_map.
    induction IH as [|e es He _ IHes]; simpl in *; [constructor|].
    apply Forall_app in Hnames as [Hne Hnes].
    apply Forall_app. split.
    + eapply Forall_impl; [exact (He Hne)|]. intros segs Hsegs. by constructor.
    + by apply IHes.
  - constructor.
Qed.

Section Walk.

Variable cwd : string.
Variable locale : Locale.
Variable rsegs : list string.
Hypothesis Hr : Forall proper rsegs.

Lemma walk_of_entries (entries : list Dirent) (dirs : list string) :
  Forall (fun entry =>
            listDocFiles_entry cwd locale (absolute rsegs)
              (absolute (rsegs ++ dirs)) entry
            = ListingSpec.pushed locale rsegs dirs (files_entry entry)) entries ->
  listDocFiles_walk cwd locale (absolute rsegs) (absolute (rsegs ++ dirs)) entries
  = ListingSpec.pushed locale rsegs dirs (List.flat_map files_entry entries).
Proof.
  unfold listDocFiles_walk, ListingSpec.pushed.
  induction 1 as [|e es He _ IH]; simpl; [done|].
  by rewrite He, IH, List.filter_app, List.map_app.
Qed.

Lemma listDocFiles_entry_spec (entry : Dirent) :
  Forall proper (names_entry entry) ->
  forall dirs, Forall proper dirs ->
  listDocFiles_entry cwd locale (absolute rsegs) (absolute (rsegs ++ dirs)) entry
  = ListingSpec.pushed locale rsegs dirs (files_entry entry).
Proof.
  induction entry as [name|name entries IH|name] using Dirent_nested_ind;
    intros Hnames dirs Hdirs; [| |reflexivity].
  - apply Forall_cons in Hnames as [Hname _].
    cbn [listDocFiles_entry dirent_name files_entry].
    rewrite join_under by (done || by apply Forall_app).
    rewrite <- app_assoc.
    rewrite relative_under
      by (done || (apply Forall_app; split; [done|by constructor])
          || by destruct dirs).
    fold (relativePath (dirs ++ [name])).
    unfold ListingSpec.pushed. cbn [List.filter List.map]. unfold listed.
    rewrite List.last_last.
    cbn [List.existsb MD_EXTENSIONS]. rewrite orb_false_r.
    fold (isMarkdown name).
    destruct (isIgnoredPath locale (relativePath (dirs ++ [name]))); [done|].
    by destruct (isMarkdown name).
  - apply Forall_cons in Hnames as [Hname Hnames].
    cbn [listDocFiles_entry dirent_name files_entry].
    rewrite join_under by (done || by apply Forall_app).
    rewrite <- app_assoc.
    rewrite relative_under
      by (done || (apply Forall_app; split; [done|by constructor])
          || by destruct dirs).
    fold (relativePath (dirs ++ [name])).
    destruct (isIgnoredPath locale (relativePath (dirs ++ [name]) +:+ "/")) eqn:Hign.
    + unfold ListingSpec.pushed. rewrite filter_all_false; [done|].
      apply Forall_map.
      assert (Forall (fun segs : list string => segs <> [])
                (List.flat_map files_entry entries)) as Hall.
      { apply Forall_flat_map, Forall_true. apply files_entry_nonempty. }
      eapply Forall_impl; [exact Hall|]. intros more Hne. simpl.
      unfold listed.
      change (dirs ++ name :: more) with (dirs ++ [name] ++ more).
      rewrite app_assoc, relativePath_app by (done || by destruct dirs).
      by rewrite (ignored_dir_below _ _ _ Hign).
    + fold (listDocFiles_walk cwd locale (absolute rsegs)
              (absolute (rsegs ++ dirs ++ [name])) entries).
      rewrite walk_of_entries.
      * unfold ListingSpec.pushed. rewrite filter_map_cons.
        rewrite (List.filter_ext
                   (fun segs => listed locale ((dirs ++ [name]) ++ segs))
                   (fun segs => listed locale (dirs ++ name :: segs)))
          by (intros segs; by rewrite <- app_assoc).
        apply List.map_ext. intros segs. by rewrite <- app_assoc.
      * assert (Forall (fun e => Forall proper (names_entry e)) entries) as Hes.
        { clear -Hnames. induction entries as [|e es IHes]; [constructor|].
          simpl in Hnames. apply Forall_app in Hnames as [? ?].
          constructor; [done|by apply IHes]. }
        clear -IH Hes Hdirs Hname.
        induction IH as [|e es He _ IHes]; [constructor|].
        apply Forall_cons in Hes as [Hne Hnes].
        constructor; [|by apply IHes].
        apply He; [done|]. apply Forall_app. split; [done|by constructor].
Qed.

Lemma listDocFiles_walk_spec (tree : list Dirent) :
  Forall proper (names tree) ->
  listDocFiles_walk cwd locale (absolute rsegs) (absolute rsegs) tree
  = List.map (fun segs => absolute (rsegs ++ segs))
      (List.filter (listed locale) (files tree)).
Proof.
  intros Hnames.
  pose proof (walk_of_entries tree []) as Hwalk.
  rewrite app_nil_r in Hwalk. unfold files. rewrite Hwalk; [reflexivity|].
  clear Hwalk. unfold names in Hnames.
  induction tree as [|e es IH]; [constructor|].
  simpl in Hnames. apply Forall_app in Hnames as [Hne Hnes].
  constructor; [|by apply IH].
  pose proof (listDocFiles_entry_spec e Hne [] ltac:(constructor)) as He.
  by rewrite app_nil_r in He.
Qed.

End Walk.

Lemma docsRoot_absolute (cs : list string) (locale : Locale) :
  Forall proper cs ->
  docsRoot (absolute cs) locale = absolute (rootSegments cs locale).
Proof.
  intros Hcs. unfold docsRoot, rootSegments.
  apply resolve_cwd_two; try done.
  - destruct locale; repeat constructor; done.
  - by destruct locale.
  - by destruct locale.
  - by destruct locale.
Qed.

Lemma rootSegments_proper (cs : list string) (locale : Locale) :
  Forall proper cs -> Forall proper (rootSegments cs locale).
Proof.
  intros Hcs. apply Forall_app. split; [done|].
  destruct locale; repeat constructor; done.
Qed.

(** [listDocFiles] lists the files that are documents, in the order of the
    walk. *)
Lemma listDocFiles_spec (cs : list string) (locale : Locale) (tree : list Dirent) :
  Forall proper cs -> Forall proper (names tree) ->
  listDocFiles (absolute cs) locale tree
  = List.map (fun segs => absolute (rootSegments cs locale ++ segs))
      (List.filter (listed locale) (files tree)).
Proof.
  intros Hcs Hnames. unfold listDocFiles.
  rewrite docsRoot_absolute by done.
  apply listDocFiles_walk_spec; [|done].
  by apply rootSegments_proper.
Qed.

End ListingFacts.

Module ListingMore.

Import StrFacts LinkSpec SlugSpec SlugFacts PathFacts ListingSpec ListingFacts.

Lemma files_proper (tree : list Dirent) :
  Forall proper (names tree) ->
  Forall (fun segs => Forall proper segs /\ segs <> []) (files tree).
Proof.
  unfold names, files. intros Hnames.
  apply Forall_flat_map. apply Forall_flat_map in Hnames.
  eapply Forall_impl; [exact Hnames|]. intros e He. simpl.
  pose proof (files_entry_proper e He) as H1.
  pose proof (files_entry_nonempty e) as H2.
  induction H1 as [|segs l Hs _ IH]; [constructor|].
  apply Forall_cons in H2 as [? ?]. constructor; [done|by apply IH].
Qed.

(** What is listed: the path and the segments below the root. *)
Lemma listed_inv (cs : list string) (locale : Locale) (tree : list Dirent)
    (p : string) :
  Forall proper cs -> Forall proper (names tree) ->
  In p (listDocFiles (absolute cs) locale tree) ->
  exists segs,
    p = absolute (rootSegments cs locale ++ segs) /\
    In segs (files tree) /\ listed locale segs = true /\
    Forall proper segs /\ segs <> [].
Proof.
  intros Hcs Hnames Hin. rewrite listDocFiles_spec in Hin by done.
  apply in_map_iff in Hin as (segs & <- & Hsegs).
  apply filter_In in Hsegs as [Hfile Hlisted].
  exists segs. repeat split; try done.
  all: pose proof (files_proper tree Hnames) as Hall;
    rewrite List.Forall_forall in Hall; by destruct (Hall segs Hfile).
Qed.

Lemma basename_absolute (l : list string) (n : string) :
  Forall proper l -> proper n ->
  Path.basename (absolute (l ++ [n])) = n.
Proof.
  intros Hl [[Hne Hn] _].
  assert (exists Y, absolute (l ++ [n]) = Y +:+ "/" +:+ n) as [Y ->].
  { unfold absolute. destruct l as [|a l].
    - by exists "".
    - exists ("/" +:+ Str.join "/" (a :: l)).
      rewrite join_app by done. by rewrite append_assoc. }
  unfold Path.basename.
  rewrite !rev_app. rewrite append_assoc.
  set (t := String.rev "/" +:+ String.rev Y).
  assert (Str.all not_slash (String.rev n) = true) as Hrev by by rewrite all_rev.
  assert (Str.run Path.is_slash (String.rev n +:+ t) = O) as ->.
  { destruct (String.rev n) as [|c r] eqn:E.
    - apply (f_equal String.rev) in E. rewrite rev_involutive in E. by subst.
    - simpl in Hrev |- *. apply andb_true_iff in Hrev as [Hc _].
      unfold not_slash in Hc. by destruct (Path.is_slash c). }
  cbn [Str.drop].
  change (fun c => negb (Path.is_slash c)) with not_slash.
  rewrite run_app_all by done.
  assert (Str.run not_slash t = O) as -> by reflexivity.
  rewrite Nat.add_0_r, take_app_len. apply rev_involutive.
Qed.

Lemma last_proper (segs : list string) :
  segs <> [] -> exists init, segs = init ++ [List.last segs ""].
Proof.
  intros Hne. exists (List.removelast segs). by apply app_removelast_last.
Qed.

Lemma prefix_cancel (a x y : string) :
  Str.prefix (a +:+ x) (a +:+ y) = Str.prefix x y.
Proof.
  induction a as [|c a IH]; [reflexivity|]. simpl.
  by rewrite Ascii.eqb_refl.
Qed.

Lemma prefix_app_l (a b s : string) :
  Str.prefix (a +:+ b) s = true -> Str.prefix a s = true.
Proof.
  revert s. induction a as [|c a IH]; intros s; [done|].
  destruct s as [|d s]; [done|]. simpl.
  intros [-> H]%andb_true_iff. simpl. by apply IH.
Qed.

Lemma prefix_map (f : ascii -> ascii) (p s : string) :
  Str.map f p = p -> Str.prefix p s = true -> Str.prefix p (Str.map f s) = true.
Proof.
  revert s. induction p as [|c p IH]; intros s; [done|].
  destruct s as [|d s]; [done|]. simpl.
  intros [= Hc Hp] [Hcd Hps]%andb_true_iff.
  apply Ascii.eqb_eq in Hcd as <-. rewrite Hc, Ascii.eqb_refl. simpl.
  by apply IH.
Qed.

Lemma mapM_Normal {A B} (f : A -> Completion B) (l : list A) (r : list B) :
  mapM f l = Normal r -> Forall2 (fun x y => f x = Normal y) l r.
Proof.
  revert r. induction l as [|x l IH]; intros r; simpl.
  - intros [= <-]. constructor.
  - destruct (f x) as [y|e] eqn:Ex; simpl; [|done].
    destruct (mapM f l) as [ys|e]; simpl; [|done].
    intros [= <-]. constructor; [done|]. by apply IH.
Qed.

Lemma mapM_Throw {A B} (f : A -> Completion B) (l : list A) (x : A) (e : JsError) :
  In x l -> f x = Throw e -> exists e', mapM f l = Throw e'.
Proof.
  induction l as [|y l IH]; [done|]. intros [->|Hin] Hx; simpl.
  - rewrite Hx. by exists e.
  - destruct (f y) as [b|e1]; simpl; [|by exists e1].
    destruct (IH Hin Hx) as [e' ->]. by exists e'.
Qed.

Lemma slugFromFile_nonempty cwd root filePath :
  Forall (fun segment => segment <> "") (slugFromFile cwd root filePath).
Proof.
  unfold slugFromFile.
  set (parts := Str.filter_nonempty _).
  assert (Forall (fun segment => segment <> "") parts) as Hparts.
  { unfold parts, Str.filter_nonempty. apply List.Forall_forall.
    intros s [_ Hs]%filter_In. by destruct s. }
  assert (Forall (fun segment => segment <> "") (List.removelast parts)) as Hinit.
  { clear -Hparts. induction Hparts as [|a l Ha Hl IH]; [constructor|].
    simpl. destruct l; [constructor|]. constructor; [done|exact IH]. }
  destruct (last parts) as [final|]; [|done].
  by destruct (String.eqb final "index").
Qed.

Lemma docMeta_inv cwd fs matter (locale : Locale) (root filePath : string)
    (meta : DocMeta) :
  docMeta cwd fs matter locale root filePath = Normal meta ->
  meta_slug meta = slugFromFile cwd root filePath /\
  meta_title meta <> "" /\
  (meta_slug meta = ["changelog"] -> meta_title meta = changelogTitles locale).
Proof.
  intros Hmeta. unfold docMeta in Hmeta.
  destruct (readFileSyncSafe fs filePath) as [source|e]; simpl in Hmeta; [|done].
  destruct (matter source) as [parsed|e]; simpl in Hmeta; [|done].
  destruct (isChangelogSlug _) eqn:Hchangelog;
    injection Hmeta as <-; simpl.
  - split; [done|]. split; [by destruct locale|]. intros _. by destruct locale.
  - split; [done|]. split.
    + apply TitleFacts.resolveTitle_nonempty, slugFromFile_nonempty.
    + intros E. rewrite E in Hchangelog. done.
Qed.

Lemma getDocMetaList_slugs cwd fs matter (locale : Locale) (tree : list Dirent)
    (metas : list DocMeta) :
  getDocMetaList cwd fs matter locale tree = Normal metas ->
  List.map meta_slug metas = getAllDocSlugs cwd locale tree.
Proof.
  unfold getDocMetaList, getAllDocSlugs. intros Hall%mapM_Normal.
  induction Hall as [|filePath meta files metas Hmeta _ IH]; [done|].
  apply docMeta_inv in Hmeta as (Hslug & _). simpl. by rewrite Hslug, IH.
Qed.

End ListingMore.

(** X13. [listDocFiles] lists the Markdown files that [isIgnoredPath] does
    not exclude, in the order of the walk, each under the root of the
    locale: a directory that the walk skips holds no such file. The working
    directory is an absolute path, and the names are those of a listing. *)
Theorem listDocFiles_lists_documents (cs : list string) (locale : Locale)
    (tree : list Dirent) :
  Forall SlugSpec.proper cs ->
  Forall SlugSpec.proper (ListingSpec.names tree) ->
  docsRoot (SlugSpec.absolute cs) locale
  = SlugSpec.absolute (ListingSpec.rootSegments cs locale) /\
  listDocFiles (SlugSpec.absolute cs) locale tree
  = List.map
      (fun segs => SlugSpec.absolute (ListingSpec.rootSegments cs locale ++ segs))
      (List.filter (ListingSpec.listed locale) (ListingSpec.files tree)).
Proof.
  intros Hcs Hnames. split.
  - by apply ListingFacts.docsRoot_absolute.
  - by apply ListingFacts.listDocFiles_spec.
Qed.

Lemma listDocFiles_lists_documents_witness :
  listDocFiles Sample.cwd en Site.tree
  = [ "/site/taffy-layout/docs/index.md";
      "/site/taffy-layout/docs/intro.md";
      "/site/taffy-layout/docs/guides/setup.mdx" ].
Proof.
  change Sample.cwd with (SlugSpec.absolute Site.cwd_segments).
  rewrite (proj2 (listDocFiles_lists_documents Site.cwd_segments en Site.tree
                    ltac:(repeat constructor; done)
                    ltac:(repeat constructor; done))).
  reflexivity.
Defined.

(** X14. The slugs of [getAllDocSlugs] are those of the listed files, each
    derived from the path of the file below the root: the extension goes,
    and a final [index]. *)
Theorem getAllDocSlugs_derives_slugs (cs : list string) (locale : Locale)
    (tree : list Dirent) :
  Forall SlugSpec.proper cs ->
  Forall SlugSpec.proper (ListingSpec.names tree) ->
  getAllDocSlugs (SlugSpec.absolute cs) locale tree
  = List.map (fun segs => SlugSpec.deriveSlug (Str.join "/" segs))
      (List.filter (ListingSpec.listed locale) (ListingSpec.files tree)).
Proof.
  intros Hcs Hnames. unfold getAllDocSlugs.
  rewrite ListingFacts.listDocFiles_spec, ListingFacts.docsRoot_absolute by done.
  rewrite List.map_map. apply List.map_ext_in.
  intros segs [Hfile _]%filter_In.
  pose proof (ListingMore.files_proper tree Hnames) as Hall.
  rewrite List.Forall_forall in Hall. destruct (Hall segs Hfile) as [Hsegs Hne].
  rewrite SlugFacts.slugFromFile_spec.
  rewrite SlugFacts.relative_under;
    [reflexivity|by apply ListingFacts.rootSegments_proper|done|done].
Qed.

Lemma getAllDocSlugs_derives_slugs_witness :
  getAllDocSlugs Sample.cwd en Site.tree = [ []; ["intro"]; ["guides"; "setup"] ].
Proof.
  change Sample.cwd with (SlugSpec.absolute Site.cwd_segments).
  rewrite (getAllDocSlugs_derives_slugs Site.cwd_segments en Site.tree
             ltac:(repeat constructor; done)
             ltac:(repeat constructor; done)).
  reflexivity.
Defined.

(** X15. Every path that [listDocFiles] lists names a Markdown file that is
    no README: its base name ends in [.md] or [.mdx] and is neither
    [readme.md] nor [readme.mdx], in any case of the letters and at any
    depth. *)
Theorem listDocFiles_only_markdown (cs : list string) (locale : Locale)
    (tree : list Dirent) (p : string) :
  Forall SlugSpec.proper cs ->
  Forall SlugSpec.proper (ListingSpec.names tree) ->
  In p (listDocFiles (SlugSpec.absolute cs) locale tree) ->
  ListingSpec.isMarkdown (Path.basename p) = true /\
  ListingSpec.isReadme (Path.basename p) = false.
Proof.
  intros Hcs Hnames Hin.
  destruct (ListingMore.listed_inv cs locale tree p Hcs Hnames Hin)
    as (segs & -> & Hfile & Hlisted & Hsegs & Hne).
  destruct (ListingMore.last_proper segs Hne) as [init Hinit].
  set (name := List.last segs "") in *.
  assert (Forall SlugSpec.proper init /\ SlugSpec.proper name) as [Hi Hn].
  { rewrite Hinit in Hsegs. apply Forall_app in Hsegs as [? Hlast].
    by apply Forall_cons in Hlast as [? _]. }
  rewrite Hinit, app_assoc.
  rewrite ListingMore.basename_absolute;
    [|apply Forall_app; split; [by apply ListingFacts.rootSegments_proper|done]
     |done].
  unfold ListingSpec.listed in Hlisted.
  apply andb_true_iff in Hlisted as [Hign Hmd]. split; [exact Hmd|].
  apply not_true_is_false. intros Hreadme.
  rewrite Hinit in Hign.
  by rewrite (ListingFacts.ignored_readme locale init name Hreadme) in Hign.
Qed.

Lemma listDocFiles_only_markdown_witness :
  ListingSpec.isMarkdown (Path.basename "/site/taffy-layout/docs/guides/setup.mdx") = true /\
  ListingSpec.isReadme (Path.basename "/site/taffy-layout/docs/guides/setup.mdx") = false.
Proof.
  apply (listDocFiles_only_markdown Site.cwd_segments en Site.tree).
  - repeat constructor; done.
  - repeat constructor; done.
  - vm_compute. right. right. by left.
Defined.

(** X16. The list of the default locale holds no file of a translation and
    no file of the [public] directory: no path that [listDocFiles] lists for
    the default locale lies below the root of another locale, or below
    [public] at the root. *)
Theorem listDocFiles_default_skips_translations (cs : list string)
    (tree : list Dirent) (p : string) :
  Forall SlugSpec.proper cs ->
  Forall SlugSpec.proper (ListingSpec.names tree) ->
  In p (listDocFiles (SlugSpec.absolute cs) DEFAULT_LOCALE tree) ->
  (forall locale, locale <> DEFAULT_LOCALE ->
     Str.startsWith p (docsRoot (SlugSpec.absolute cs) locale +:+ "/") = false) /\
  Str.startsWith p (docsRoot (SlugSpec.absolute cs) DEFAULT_LOCALE +:+ "/public/")
  = false.
Proof.
  intros Hcs Hnames Hin.
  destruct (ListingMore.listed_inv cs DEFAULT_LOCALE tree p Hcs Hnames Hin)
    as (segs & -> & Hfile & Hlisted & Hsegs & Hne).
  unfold ListingSpec.listed in Hlisted.
  apply andb_true_iff in Hlisted as [Hign _]. apply negb_true_iff in Hign.
  unfold isIgnoredPath in Hign.
  destruct (_ || _ || _ || _); [done|].
  destruct (decide (DEFAULT_LOCALE = DEFAULT_LOCALE)); [|done].
  destruct (Str.startsWith (ListingSpec.relativePath segs) "i18n/") eqn:Hi18n; [done|].
  destruct (Str.startsWith (ListingSpec.relativePath segs) "public/") eqn:Hpublic;
    [done|].
  set (root := ListingSpec.rootSegments cs DEFAULT_LOCALE) in *.
  assert (SlugSpec.absolute (root ++ segs)
          = SlugSpec.absolute root +:+ "/" +:+ Str.join "/" segs) as Hp.
  { unfold SlugSpec.absolute. rewrite PathFacts.join_app; [|by destruct cs|done].
    by rewrite StrFacts.append_assoc. }
  assert (forall lit rest,
            Str.map ListingSpec.unbackslash lit = lit ->
            Str.startsWith (ListingSpec.relativePath segs) lit = false ->
            Str.startsWith (SlugSpec.absolute (root ++ segs))
              (SlugSpec.absolute root +:+ "/" +:+ lit +:+ rest) = false) as Hbelow.
  { intros lit rest Hfix Hnot. apply not_true_is_false. intros Hstart.
    rewrite Hp in Hstart. unfold Str.startsWith in *.
    rewrite ListingMore.prefix_cancel in Hstart.
    change (Str.prefix ("/" +:+ lit +:+ rest) ("/" +:+ Str.join "/" segs))
      with (Str.prefix (lit +:+ rest) (Str.join "/" segs)) in Hstart.
    apply ListingMore.prefix_app_l in Hstart.
    apply (ListingMore.prefix_map ListingSpec.unbackslash) in Hstart; [|done].
    rewrite <- ListingFacts.relativePath_map in Hstart. congruence. }
  assert (forall tail,
            tail <> [] ->
            SlugSpec.absolute (root ++ tail) +:+ "/"
            = SlugSpec.absolute root +:+ "/" +:+ Str.join "/" tail +:+ "/") as Htail.
  { intros tail Htail. unfold SlugSpec.absolute.
    rewrite PathFacts.join_app; [|by destruct cs|done].
    by rewrite !StrFacts.append_assoc. }
  split.
  - intros locale Hlocale.
    rewrite !ListingFacts.docsRoot_absolute by done.
    destruct locale; [done| |].
    + replace (ListingSpec.rootSegments cs zh) with (root ++ ["i18n"; "zh-CN"])
        by (unfold root, ListingSpec.rootSegments; by rewrite <- app_assoc).
      rewrite Htail by done.
      exact (Hbelow "i18n/" "zh-CN/" eq_refl Hi18n).
    + replace (ListingSpec.rootSegments cs ja) with (root ++ ["i18n"; "ja-JP"])
        by (unfold root, ListingSpec.rootSegments; by rewrite <- app_assoc).
      rewrite Htail by done.
      exact (Hbelow "i18n/" "ja-JP/" eq_refl Hi18n).
  - rewrite ListingFacts.docsRoot_absolute by done.
    exact (Hbelow "public/" "" eq_refl Hpublic).
Qed.

Lemma listDocFiles_default_skips_translations_witness :
  Str.startsWith "/site/taffy-layout/docs/intro.md"
    (docsRoot Sample.cwd zh +:+ "/") = false.
Proof.
  apply (proj1 (listDocFiles_default_skips_translations Site.cwd_segments
                  Site.tree "/site/taffy-layout/docs/intro.md"
                  ltac:(repeat constructor; done)
                  ltac:(repeat constructor; done)
                  ltac:(vm_compute; right; by left))).
  done.
Defined.

(** X17. When [getDocMetaList] returns, it has one entry for each listed
    file, in order, with the slug of that file; no entry has an empty title
    or an empty slug segment, and the entry of the changelog has the
    changelog title of the locale, whatever its frontmatter says. *)
Theorem getDocMetaList_entries cwd fs matter (locale : Locale)
    (tree : list Dirent) (metas : list DocMeta) :
  getDocMetaList cwd fs matter locale tree = Normal metas ->
  List.map meta_slug metas = getAllDocSlugs cwd locale tree /\
  Forall (fun meta =>
            meta_title meta <> "" /\
            Forall (fun segment => segment <> "") (meta_slug meta) /\
            (meta_slug meta = ["changelog"] ->
             meta_title meta = changelogTitles locale)) metas.
Proof.
  intros Hlist. split; [by eapply ListingMore.getDocMetaList_slugs|].
  unfold getDocMetaList in Hlist. apply ListingMore.mapM_Normal in Hlist.
  induction Hlist as [|filePath meta files metas Hmeta _ IH]; [constructor|].
  apply ListingMore.docMeta_inv in Hmeta as (Hslug & Htitle & Hlog).
  constructor; [|done]. split; [done|]. split; [|done].
  rewrite Hslug. apply ListingMore.slugFromFile_nonempty.
Qed.

Lemma getDocMetaList_entries_witness :
  exists metas,
    getDocMetaList Sample.cwd Site.fs Sample.plain_matter en Site.tree
    = Normal metas /\
    List.map meta_slug metas = [ []; ["intro"]; ["guides"; "setup"] ] /\
    List.map meta_title metas = [ "Taffy"; "Introduction"; "Setup" ].
Proof.
  eexists. split; [vm_compute; reflexivity|].
  split; [|reflexivity].
  apply (getDocMetaList_entries Sample.cwd Site.fs Sample.plain_matter en Site.tree).
  vm_compute. reflexivity.
Defined.

(** X18. One listed file that cannot be read fails the whole list:
    [getDocMetaList] throws when [readFileSync] throws for a path that
    [listDocFiles] lists. *)
Theorem getDocMetaList_fails_on_unreadable cwd fs matter (locale : Locale)
    (tree : list Dirent) (p : string) (e : JsError) :
  In p (listDocFiles cwd locale tree) ->
  Fs.readFileSync fs p = Throw e ->
  exists e', getDocMetaList cwd fs matter locale tree = Throw e'.
Proof.
  intros Hin Hread. unfold getDocMetaList.
  apply (ListingMore.mapM_Throw _ _ p e Hin).
  unfold docMeta, readFileSyncSafe. by rewrite Hread.
Qed.

Lemma getDocMetaList_fails_on_unreadable_witness :
  exists e',
    getDocMetaList Sample.cwd Sample.empty_fs Sample.plain_matter en Site.tree
    = Throw e'.
Proof.
  apply (getDocMetaList_fails_on_unreadable Sample.cwd Sample.empty_fs
           Sample.plain_matter en Site.tree "/site/taffy-layout/docs/index.md"
           (ENOENT "/site/taffy-layout/docs/index.md")).
  - vm_compute. by left.
  - reflexivity.
Defined.
(** ** Static parameters and the sitemap *)

Module ParamsFacts.

Import ParamsSpec.

Lemma pushUnseen_fold (locale : Locale) (slugs : list (list string)) :
  forall (seen : gset string) (params : list LocaleParams),
  snd (List.fold_left (pushUnseen locale) slugs (seen, params))
  = params ++ List.map (Build_LocaleParams locale) (unseen seen slugs).
Proof.
  induction slugs as [|slug slugs IH]; intros seen params; simpl.
  - by rewrite app_nil_r.
  - fold (key slug). destruct (decide (key slug ∈ seen)).
    + apply IH.
    + rewrite IH. by rewrite <- app_assoc.
Qed.

Lemma unseen_sublist (slugs : list (list string)) (seen : gset string) :
  sublist (unseen seen slugs) slugs.
Proof.
  revert seen. induction slugs as [|slug slugs IH]; intros seen; simpl.
  - constructor.
  - destruct (decide _); [apply sublist_cons|apply sublist_skip]; apply IH.
Qed.

Lemma unseen_keys (slugs : list (list string)) (seen : gset string) (k : string) :
  k ∈ List.map key (unseen seen slugs)
  <-> (k ∈ List.map key slugs) /\ (k ∉ seen).
Proof.
  revert seen. induction slugs as [|slug slugs IH]; intros seen; simpl.
  - split; [by intros ?%elem_of_nil|by intros [?%elem_of_nil _]].
  - destruct (decide (key slug ∈ seen)) as [Hin|Hout].
    + rewrite IH. rewrite elem_of_cons. split.
      * intros [? ?]. split; [by right|done].
      * intros [[->|?] ?]; done.
    + simpl. rewrite !elem_of_cons, IH. rewrite elem_of_union, elem_of_singleton.
      split.
      * intros [->|[? ?]]; [by split; [left|]|]. split; [by right|]. tauto.
      * intros [[->|?] ?]; [by left|].
        destruct (decide (k = key slug)) as [->|?]; [by left|]. right. tauto.
Qed.

Lemma unseen_NoDup (slugs : list (list string)) (seen : gset string) :
  NoDup (List.map key (unseen seen slugs)).
Proof.
  revert seen. induction slugs as [|slug slugs IH]; intros seen; simpl.
  - constructor.
  - destruct (decide (key slug ∈ seen)); [apply IH|].
    simpl. constructor; [|apply IH].
    rewrite unseen_keys. intros [_ Hout]. apply Hout.
    apply elem_of_union_l. by apply elem_of_singleton.
Qed.

Lemma elem_of_keys (slugs : list (list string)) (k : string) :
  k ∈ List.map key slugs
  <-> exists j slug, slugs !! j = Some slug /\ key slug = k.
Proof.
  induction slugs as [|s slugs IH]; simpl.
  - split; [by intros ?%elem_of_nil|by intros (j & slug & ? & _)].
  - rewrite elem_of_cons, IH. split.
    + intros [->|(j & slug & Hj & Hk)]; [by exists 0%nat, s|].
      by exists (S j), slug.
    + intros ([|j] & slug & Hj & Hk); [left; by injection Hj as ->|].
      right. by exists j, slug.
Qed.

(** The slugs that the loop keeps after [pre], whose keys are the keys
    seen: the first of their key in the whole list, at positions that
    increase, and every slug after [pre] that is the first of its key. *)
Lemma unseen_firsts (slugs : list (list string)) :
  forall (pre : list (list string)) (seen : gset string),
    (forall k, k ∈ seen <-> k ∈ List.map key pre) ->
    exists positions,
      StronglySorted lt positions /\
      Forall (fun i => (length pre <= i)%nat) positions /\
      Forall2 (first_at (pre ++ slugs)) positions (unseen seen slugs) /\
      forall i slug,
        (length pre <= i)%nat -> first_at (pre ++ slugs) i slug ->
        i ∈ positions.
Proof.
  induction slugs as [|slug rest IH]; intros pre seen Hseen.
  - exists []. split; [constructor|]. split; [constructor|].
    split; [constructor|]. intros i slug Hi [Hlookup _].
    apply lookup_lt_Some in Hlookup. rewrite app_nil_r in Hlookup. lia.
  - replace (pre ++ slug :: rest) with ((pre ++ [slug]) ++ rest)
      by (by rewrite <- app_assoc).
    assert (Hhere : ((pre ++ [slug]) ++ rest) !! length pre = Some slug).
    { rewrite <- app_assoc. by apply list_lookup_middle. }
    assert (Hbefore : forall j earlier,
              (j < length pre)%nat ->
              ((pre ++ [slug]) ++ rest) !! j = Some earlier ->
              key earlier ∈ seen).
    { intros j earlier Hj Hlookup. apply Hseen, elem_of_keys.
      exists j, earlier. split; [|done].
      rewrite <- app_assoc, lookup_app_l in Hlookup; done. }
    cbn [unseen]. destruct (decide (key slug ∈ seen)) as [Hin|Hout].
    + destruct (IH (pre ++ [slug]) seen) as (positions & Hs & Hge & Hf & Hall).
      { intros k. rewrite List.map_app, elem_of_app, <- Hseen. simpl.
        rewrite list_elem_of_singleton. split; [by left|].
        by intros [?| ->]. }
      rewrite length_app in Hge, Hall. simpl in Hge, Hall.
      exists positions. split; [done|]. split.
      { eapply Forall_impl; [exact Hge|]. simpl. lia. }
      split; [done|]. intros i s Hi Hfirst.
      destruct (decide (i = length pre)) as [->|Hne].
      * destruct Hfirst as [Hlookup Hearlier].
        rewrite Hhere in Hlookup. injection Hlookup as <-.
        apply Hseen, elem_of_keys in Hin as (j & earlier & Hj & Hk).
        exfalso. apply (Hearlier j earlier); [by apply lookup_lt_Some in Hj| |done].
        rewrite <- app_assoc, lookup_app_l; [done|by apply lookup_lt_Some in Hj].
      * apply (Hall i s); [lia|done].
    + destruct (IH (pre ++ [slug]) ({[ key slug ]} ∪ seen))
        as (positions & Hs & Hge & Hf & Hall).
      { intros k. rewrite List.map_app, elem_of_app, <- Hseen. simpl.
        rewrite list_elem_of_singleton, elem_of_union, elem_of_singleton.
        tauto. }
      rewrite length_app in Hge, Hall. simpl in Hge, Hall.
      exists (length pre :: positions). split.
      { constructor; [done|]. eapply Forall_impl; [exact Hge|]. simpl. lia. }
      split.
      { constructor; [done|]. eapply Forall_impl; [exact Hge|]. simpl. lia. }
      split.
      { constructor; [|done]. split; [done|].
        intros j earlier Hj Hlookup Hk. apply Hout. rewrite <- Hk.
        by apply (Hbefore j). }
      intros i s Hi Hfirst.
      destruct (decide (i = length pre)) as [->|Hne]; [by left|].
      right. apply (Hall i s); [lia|done].
Qed.

Lemma unseen_first_occurrences (slugs : list (list string)) :
  first_occurrences slugs (unseen ∅ slugs).
Proof.
  destruct (unseen_firsts slugs [] ∅) as (positions & Hs & _ & Hf & Hall).
  { intros k. simpl. split; [by intros ?%not_elem_of_empty|by intros ?%elem_of_nil]. }
  exists positions. split; [done|]. split; [done|].
  intros i slug. apply Hall. simpl. lia.
Qed.

(** One list only holds the first occurrences of a list. *)
Lemma first_occurrences_unique (slugs kept kept' : list (list string)) :
  first_occurrences slugs kept -> first_occurrences slugs kept' ->
  kept = kept'.
Proof.
  intros (p & Hs & Hf & Hall) (p' & Hs' & Hf' & Hall').
  assert (Hincl : forall (q q' : list nat) (k : list (list string)),
            Forall2 (first_at slugs) q k ->
            (forall i slug, first_at slugs i slug -> i ∈ q') ->
            forall i, i ∈ q -> i ∈ q').
  { intros q q' k Hq Hq' i Hi.
    apply list_elem_of_lookup in Hi as [n Hn].
    destruct (Forall2_lookup_l _ _ _ _ _ Hq Hn) as (slug & _ & Hfirst).
    by apply (Hq' i slug). }
  assert (Hnodup : forall q : list nat, StronglySorted lt q -> NoDup q).
  { intros q Hq. induction Hq as [|x q _ IH Hx]; constructor; [|done].
    intros Hin. rewrite Forall_forall in Hx. specialize (Hx x Hin). lia. }
  assert (p = p') as <-.
  { apply (StronglySorted_unique_strong lt); [intros; lia|done|done|].
    apply NoDup_Permutation; [by apply Hnodup|by apply Hnodup|].
    intros i. split; [by apply (Hincl p p' kept)|by apply (Hincl p' p kept')]. }
  apply (Forall2_unique _ _ _ _ Hf Hf').
  intros i s s' [H1 _] [H2 _]. congruence.
Qed.

Lemma join_two_segments (a b : string) (rest : list string) (lit : string) :
  Str.all LinkSpec.not_slash lit = true ->
  Str.join "/" (a :: b :: rest) <> lit.
Proof.
  intros Hlit E. rewrite <- E in Hlit.
  change (Str.join "/" (a :: b :: rest))
    with (a +:+ String "/" (Str.join "/" (b :: rest))) in Hlit.
  rewrite StrFacts.all_app in Hlit. apply andb_true_iff in Hlit as [_ Hlit].
  done.
Qed.

Lemma sitemapDoc_url (clock : nat -> Z) (locale : Locale) (readings : nat)
    (slug : list string) :
  sitemap_url (sitemapDoc clock locale readings slug) = docUrl locale slug.
Proof.
  unfold sitemapDoc, docUrl. cbn [sitemap_url]. f_equal.
  destruct slug as [|a [|b rest]].
  - by destruct locale.
  - simpl Str.join. case_bool_decide as Hintro.
    + injection Hintro as ->. by destruct locale.
    + assert (String.eqb a "intro" = false) as ->.
      { apply String.eqb_neq. congruence. }
      rewrite bool_decide_eq_false_2 by done.
      unfold docHref. by rewrite !StrFacts.append_assoc.
  - assert (String.eqb (Str.join "/" (a :: b :: rest)) "intro" = false) as ->.
    { apply String.eqb_neq. by apply join_two_segments. }
    rewrite !bool_decide_eq_false_2 by done.
    unfold docHref. by rewrite !StrFacts.append_assoc.
Qed.

Lemma pushAll_cons {A} (entry : nat -> A -> SitemapEntry)
    (sitemap : list SitemapEntry) (item : A) (items : list A) :
  pushAll entry sitemap (item :: items)
  = pushAll entry (sitemap ++ [entry (List.length sitemap) item]) items.
Proof. reflexivity. Qed.

Lemma pushAll_urls {A} (entry : nat -> A -> SitemapEntry) (u : A -> string)
    (items : list A) :
  (forall readings item, sitemap_url (entry readings item) = u item) ->
  forall sitemap,
    List.map sitemap_url (pushAll entry sitemap items)
    = List.map sitemap_url sitemap ++ List.map u items.
Proof.
  intros Hu. induction items as [|item items IH]; intros sitemap.
  - simpl. by rewrite app_nil_r.
  - rewrite pushAll_cons, IH, List.map_app. simpl.
    by rewrite Hu, <- app_assoc.
Qed.

Lemma pushAll_timed {A} (clock : nat -> Z) (entry : nat -> A -> SitemapEntry)
    (items : list A) :
  (forall readings item, sitemap_lastModified (entry readings item) = clock readings) ->
  forall sitemap,
    List.map sitemap_lastModified sitemap
    = List.map clock (List.seq 0 (List.length sitemap)) ->
    List.map sitemap_lastModified (pushAll entry sitemap items)
    = List.map clock (List.seq 0 (List.length (pushAll entry sitemap items))).
Proof.
  intros Hclock. induction items as [|item items IH]; intros sitemap Htimed.
  - exact Htimed.
  - rewrite pushAll_cons. apply IH.
    rewrite List.map_app, List.length_app. simpl.
    rewrite Nat.add_1_r, List.seq_S, List.map_app. simpl.
    by rewrite Htimed, Hclock.
Qed.

End ParamsFacts.

(** X19. The static parameters of the localized page, when every list of
    slugs is there: for each locale other than the default one, in order,
    the slugs of the locale and then those of the default locale, each key
    once and in the place of its first occurrence, and then the empty slug.
    The slugs kept are those that stand first of their key in the combined
    list, taken from there in the order of their positions, and no other
    list is such. No parameter is for the default locale, no key is left
    out, and none comes twice before the empty slug. *)
Theorem localeStaticParams_covers_slugs
    (getAllDocSlugs : Locale -> Completion (list (list string)))
    (slugs : Locale -> list (list string)) :
  (forall locale, getAllDocSlugs locale = Normal (slugs locale)) ->
  exists perLocale : Locale -> list (list string),
    localeStaticParams getAllDocSlugs
    = Normal (List.flat_map
                (fun locale =>
                   List.map (Build_LocaleParams locale) (perLocale locale ++ [[]]))
                [zh; ja]) /\
    forall locale,
      let combined := slugs locale ++ slugs DEFAULT_LOCALE in
      ParamsSpec.first_occurrences combined (perLocale locale) /\
      (forall kept,
         ParamsSpec.first_occurrences combined kept -> kept = perLocale locale) /\
      sublist (perLocale locale) combined /\
      NoDup (List.map ParamsSpec.key (perLocale locale)) /\
      (forall k, k ∈ List.map ParamsSpec.key (perLocale locale)
                 <-> k ∈ List.map ParamsSpec.key combined).
Proof.
  intros Hslugs.
  exists (fun locale => ParamsSpec.unseen ∅ (slugs locale ++ slugs DEFAULT_LOCALE)).
  split.
  - unfold localeStaticParams. simpl. rewrite !Hslugs. simpl.
    unfold pushLocale. rewrite !ParamsFacts.pushUnseen_fold.
    f_equal. simpl. rewrite !List.map_app, !app_nil_r. simpl.
    by rewrite <- !app_assoc.
  - intros locale. cbv zeta.
    split; [apply ParamsFacts.unseen_first_occurrences|].
    split.
    { intros kept Hkept.
      apply (ParamsFacts.first_occurrences_unique _ _ _ Hkept).
      apply ParamsFacts.unseen_first_occurrences. }
    split; [apply ParamsFacts.unseen_sublist|].
    split; [apply ParamsFacts.unseen_NoDup|].
    intros k. rewrite ParamsFacts.unseen_keys.
    split; [by intros [? _]|]. intros Hk. split; [done|].
    apply not_elem_of_empty.
Qed.

(** The Chinese tree has a page and the introduction, which come again in
    the default tree, the other way round: each is kept once, where it
    comes first. *)
Lemma localeStaticParams_covers_slugs_witness :
  exists perLocale : Locale -> list (list string),
    localeStaticParams
      (fun locale =>
         Normal (match locale with
                 | zh => [["setup"]; ["intro"]]
                 | _ => [["intro"]; ["setup"]; ["guides"; "setup"]]
                 end))
    = Normal (List.flat_map
                (fun locale =>
                   List.map (Build_LocaleParams locale)
                     (perLocale locale ++ [[]]))
                [zh; ja]) /\
    perLocale zh = [["setup"]; ["intro"]; ["guides"; "setup"]].
Proof.
  destruct (localeStaticParams_covers_slugs
              (fun locale =>
                 Normal (match locale with
                         | zh => [["setup"]; ["intro"]]
                         | _ => [["intro"]; ["setup"]; ["guides"; "setup"]]
                         end))
              (fun locale =>
                 match locale with
                 | zh => [["setup"]; ["intro"]]
                 | _ => [["intro"]; ["setup"]; ["guides"; "setup"]]
                 end)
              ltac:(reflexivity)) as (perLocale & Hparams & Hall).
  exists perLocale. split; [exact Hparams|].
  destruct (Hall zh) as (_ & Hunique & _). symmetry. apply Hunique.
  exists [0; 1; 4]%nat. split; [repeat constructor; lia|].
  split.
  - repeat (constructor; [split; [done|];
      intros [|[|[|[|[|j]]]]] earlier Hj; simpl; try lia;
      intros [= <-]; done|]).
    constructor.
  - intros i slug [Hlookup Hearlier].
    destruct i as [|[|[|[|[|i]]]]]; simpl in Hlookup;
      [by left|by right; left| | |by do 2 right; left|done].
    + injection Hlookup as <-.
      by destruct (Hearlier 1%nat ["intro"]); [lia| |].
    + injection Hlookup as <-.
      by destruct (Hearlier 0%nat ["setup"]); [lia| |].
Defined.

(** X20. The addresses of the sitemap, when every list of slugs is there:
    the home page of each locale, and then the documents of each locale, the
    introduction at the root of the docs and every other document at the
    address of its link in the sidebar. The clock is read once for each
    entry, in the order of the entries. *)
Theorem sitemap_lists_documents
    (getAllDocSlugs : Locale -> Completion (list (list string)))
    (clock : nat -> Z) (slugs : Locale -> list (list string)) :
  (forall locale, getAllDocSlugs locale = Normal (slugs locale)) ->
  exists entries,
    sitemap getAllDocSlugs clock = Normal entries /\
    List.map sitemap_url entries
    = List.map ParamsSpec.homeUrl localeList ++
      List.flat_map
        (fun locale => List.map (ParamsSpec.docUrl locale) (slugs locale))
        localeList /\
    List.map sitemap_lastModified entries
    = List.map clock (List.seq 0 (List.length entries)).
Proof.
  intros Hslugs. unfold sitemap. simpl. rewrite !Hslugs. simpl.
  eexists. split; [reflexivity|]. split.
  - rewrite !(ParamsFacts.pushAll_urls _ _ _ (ParamsFacts.sitemapDoc_url clock _)).
    simpl. by rewrite app_nil_r, <- !app_assoc.
  - do 3 (apply ParamsFacts.pushAll_timed; [done|]). reflexivity.
Qed.

Lemma sitemap_lists_documents_witness :
  exists entries,
    sitemap (fun locale =>
               Normal (match locale with
                       | en => [["intro"]; ["guides"; "setup"]]
                       | _ => []
                       end))
      (fun readings => Z.of_nat readings) = Normal entries /\
    List.map sitemap_url entries
    = [ "https://taffylayout.com/";
        "https://taffylayout.com/zh";
        "https://taffylayout.com/ja";
        "https://taffylayout.com/docs";
        "https://taffylayout.com/docs/guides/setup" ].
Proof.
  destruct (sitemap_lists_documents
              (fun locale =>
                 Normal (match locale with
                         | en => [["intro"]; ["guides"; "setup"]]
                         | _ => []
                         end))
              (fun readings => Z.of_nat readings)
              (fun locale =>
                 match locale with
                 | en => [["intro"]; ["guides"; "setup"]]
                 | _ => []
                 end)
              ltac:(reflexivity)) as (entries & Hsitemap & Hurls & _).
  exists entries. split; [exact Hsitemap|]. exact Hurls.
Defined.
(** ** The link rewriter on a tree *)

Module LinkTreeFacts.

Import RemarkLinks LinkTreeSpec.

Lemma Node_nested_ind (P : Node -> Prop) :
  (forall type link children,
     Forall P children -> P (Build_Node type link children)) ->
  forall tree, P tree.
Proof.
  intros Hnode. fix IH 1. intros [type link children].
  apply Hnode. induction children as [|c children IHc]; constructor.
  - apply IH.
  - exact IHc.
Qed.

Lemma rooted_external (s : string) :
  Str.startsWith s "/" = true -> isExternal s = true.
Proof. intros H. unfold isExternal. rewrite H. by rewrite !orb_true_r. Qed.

Lemma rewriteUrl_external (options : Options) (u : string) :
  rooted options -> isExternal (rewriteUrl options u) = true.
Proof.
  intros Hrooted. apply rooted_external. unfold rewriteUrl.
  set (suffix := Re.remove_leading_slash _).
  destruct Hrooted as [-> | Hb].
  - by destruct (truthy suffix).
  - destruct (basePath options) as [|c b]; [done|].
    simpl in Hb |- *. destruct (Ascii.eqb_spec "/" c) as [<-|]; [|done].
    by destruct (truthy suffix).
Qed.

Lemma visitLink_settled (options : Options) (node : LinkNode) :
  rooted options ->
  Forall settled (option_list (url (visitLink options node))).
Proof.
  intros Hrooted. unfold visitLink.
  destruct node as [[u|]]; simpl; [|constructor].
  destruct u as [|c u]; simpl; [constructor; [by left|constructor]|].
  destruct (isExternal (String c u)) eqn:E; simpl.
  - constructor; [by right|constructor].
  - constructor; [|constructor]. right. by apply rewriteUrl_external.
Qed.

Lemma visitLink_idempotent (options : Options) (node : LinkNode) :
  rooted options ->
  visitLink options (visitLink options node) = visitLink options node.
Proof.
  intros Hrooted.
  pose proof (visitLink_settled options node Hrooted) as Hs.
  destruct (visitLink options node) as [[u|]]; [|reflexivity].
  apply Forall_cons in Hs as [[->|Hext] _]; [reflexivity|].
  unfold visitLink. simpl. rewrite Hext. by destruct (negb (truthy u)).
Qed.

Lemma visitLink_keeps_presence (options : Options) (node : LinkNode) :
  List.length (option_list (url (visitLink options node)))
  = List.length (option_list (url node)).
Proof.
  unfold visitLink. destruct node as [[u|]]; simpl; [|reflexivity].
  destruct (negb (truthy u)); [reflexivity|].
  by destruct (isExternal u).
Qed.

End LinkTreeFacts.

(** X21. Once [remarkRewriteLinks] has run with a base path that is empty or
    starts at the root, as that of every page is, no relative link is left
    in the tree, at any depth: every address is empty, or leaves the site,
    names an anchor or starts at the root. A second run changes nothing. No
    link is added and none is dropped, whatever the base path is. *)
Theorem remarkRewriteLinks_settles_links (options : RemarkLinks.Options)
    (tree : RemarkLinks.Node) :
  (LinkTreeSpec.rooted options ->
   Forall LinkTreeSpec.settled
     (LinkTreeSpec.link_urls (RemarkLinks.remarkRewriteLinks options tree)) /\
   RemarkLinks.remarkRewriteLinks options
     (RemarkLinks.remarkRewriteLinks options tree)
   = RemarkLinks.remarkRewriteLinks options tree) /\
  List.length (LinkTreeSpec.link_urls (RemarkLinks.remarkRewriteLinks options tree))
  = List.length (LinkTreeSpec.link_urls tree).
Proof.
  induction tree as [type link children IH] using LinkTreeFacts.Node_nested_ind.
  split.
  - intros Hrooted. split.
    + cbn [RemarkLinks.remarkRewriteLinks LinkTreeSpec.link_urls].
      apply Forall_app. split.
      * destruct (String.eqb type "link"); [|constructor].
        by apply LinkTreeFacts.visitLink_settled.
      * apply Forall_flat_map, Forall_map.
        eapply Forall_impl; [exact IH|]. intros child [Hchild _].
        by apply Hchild.
    + cbn [RemarkLinks.remarkRewriteLinks]. f_equal.
      * destruct (String.eqb type "link"); [|reflexivity].
        by apply LinkTreeFacts.visitLink_idempotent.
      * rewrite List.map_map. apply List.map_ext_Forall.
        eapply Forall_impl; [exact IH|]. intros child [Hchild _].
        by apply Hchild.
  - cbn [RemarkLinks.remarkRewriteLinks LinkTreeSpec.link_urls].
    rewrite !List.length_app. f_equal.
    + destruct (String.eqb type "link"); [|reflexivity].
      apply LinkTreeFacts.visitLink_keeps_presence.
    + induction IH as [|child children [_ Hchild] _ IHchildren]; [reflexivity|].
      simpl. rewrite !List.length_app. by rewrite Hchild, IHchildren.
Qed.

Lemma remarkRewriteLinks_settles_links_witness :
  LinkTreeSpec.link_urls
    (RemarkLinks.remarkRewriteLinks Sample.setup_options
       (RemarkLinks.Build_Node "paragraph" (Sample.link "")
          [ RemarkLinks.Build_Node "link" (Sample.link "../intro.md") [];
            RemarkLinks.Build_Node "link" (Sample.link "#anchor") [] ]))
  = [ "/docs/intro"; "#anchor" ] /\
  Forall LinkTreeSpec.settled [ "/docs/intro"; "#anchor" ].
Proof.
  split; [reflexivity|].
  apply (proj1 (remarkRewriteLinks_settles_links Sample.setup_options
                  (RemarkLinks.Build_Node "paragraph" (Sample.link "")
                     [ RemarkLinks.Build_Node "link" (Sample.link "../intro.md") [];
                       RemarkLinks.Build_Node "link" (Sample.link "#anchor") [] ]))).
  right. reflexivity.
Defined.
(** ** The links of the sidebar *)

Module NavTreeFacts.

Import NavSpec NavTreeSpec.

Lemma hrefs_unfold (item : NavItem) :
  hrefs item
  = option_list (nav_href item) ++ all_hrefs (default [] (nav_children item)).
Proof. destruct item as [t h o [c|] s]; reflexivity. Qed.

Lemma all_hrefs_app (a b : list NavItem) :
  all_hrefs (a ++ b) = all_hrefs a ++ all_hrefs b.
Proof. apply List.flat_map_app. Qed.

Lemma update_first_inv p f (items items' : list NavItem) :
  update_first p f items = Some items' ->
  exists pre x post,
    items = pre ++ x :: post /\ items' = pre ++ f x :: post /\ p x = true.
Proof.
  revert items'. induction items as [|y items IH]; intros items'; [done|].
  simpl. destruct (p y) eqn:Hy.
  - intros [= <-]. by exists [], y, items.
  - destruct (update_first p f items) as [rest|]; [|done].
    intros [= <-]. destruct (IH rest eq_refl) as (pre & x & post & -> & -> & ?).
    by exists (y :: pre), x, post.
Qed.

Lemma located_inv locale path item :
  Located locale path item ->
  (forall href, nav_href item = Some href -> href = docHref locale path) /\
  (forall items,
     nav_children item = Some items ->
     Forall (fun child =>
               Located locale (path ++ option_list (nav_segment child)) child)
       items).
Proof. by intros [path' item' H1 H2]. Qed.

Lemma ensure_children_hrefs (current : NavItem) :
  hrefs (ensure_children current) = hrefs current.
Proof. destruct current as [t h o [c|] s]; reflexivity. Qed.

Lemma ensure_children_located locale path (current : NavItem) :
  Located locale path current -> Located locale path (ensure_children current).
Proof.
  intros [Hhref Hchildren]%located_inv. unfold ensure_children.
  destruct (nav_children current) as [l|] eqn:E.
  - constructor; [done|]. intros items. rewrite E. intros [= <-]. by apply Hchildren.
  - constructor; [done|]. simpl. intros items [= <-]. constructor.
Qed.

Section Walk.

Variable locale : Locale.
Variable doc : DocMeta.

Lemma place_segment (current : NavItem) :
  nav_segment (place locale doc current) = nav_segment current.
Proof. unfold place. by destruct (meta_isIndex doc). Qed.

Lemma walk_segment (segments : list string) :
  forall current,
    nav_segment (walk locale doc segments current) = nav_segment current.
Proof.
  induction segments as [|segment rest IH]; intros current.
  - apply place_segment.
  - cbn [walk].
    assert (nav_segment (ensure_children current) = nav_segment current) as Hs.
    { unfold ensure_children. by destruct (nav_children current). }
    destruct (_ && _); [by rewrite place_segment|].
    by destruct (update_first _ _ _).
Qed.

Lemma place_hrefs (current : NavItem) :
  hrefs (place locale doc current)
  = if meta_isIndex doc
    then (docHref locale (meta_slug doc)) :: all_hrefs (default [] (nav_children current))
    else hrefs current ++ [(docHref locale (meta_slug doc))].
Proof.
  unfold place. destruct (meta_isIndex doc).
  - by rewrite hrefs_unfold.
  - rewrite (hrefs_unfold current), hrefs_unfold. simpl.
    rewrite all_hrefs_app. simpl. by rewrite app_assoc.
Qed.

Lemma place_href (current : NavItem) :
  meta_isIndex doc = false ->
  nav_href (place locale doc current) = nav_href current.
Proof. intros H. unfold place. by rewrite H. Qed.

(** The walk adds the link of the document, and no other link. *)
Lemma walk_adds (segments : list string) :
  forall current,
    In (docHref locale (meta_slug doc)) (hrefs (walk locale doc segments current)) /\
    (forall h, In h (hrefs (walk locale doc segments current)) ->
               h = (docHref locale (meta_slug doc)) \/ In h (hrefs current)).
Proof.
  induction segments as [|segment rest IH]; intros current.
  - cbn [walk]. rewrite place_hrefs. destruct (meta_isIndex doc).
    + split; [by left|]. intros h [<-|Hin]; [by left|]. right.
      rewrite hrefs_unfold. apply in_or_app. by right.
    + split; [apply in_or_app; right; by left|].
      intros h [Hin|[<-|[]]]%in_app_or; [by right|by left].
  - cbn [walk].
    destruct (_ && _).
    { rewrite place_hrefs, ensure_children_hrefs.
      destruct (meta_isIndex doc).
      - split; [by left|]. intros h [<-|Hin]; [by left|]. right.
        rewrite <- (ensure_children_hrefs current), hrefs_unfold.
        apply in_or_app. by right.
      - split; [apply in_or_app; right; by left|].
        intros h [Hin|[<-|[]]]%in_app_or; [by right|by left]. }
    rewrite <- (ensure_children_hrefs current).
    rewrite (hrefs_unfold (ensure_children current)).
    set (children := default [] (nav_children (ensure_children current))).
    destruct (update_first _ _ children) as [children'|] eqn:Hupdate.
    + apply update_first_inv in Hupdate as (pre & x & post & Hsplit & -> & _).
      rewrite Hsplit. rewrite hrefs_unfold. simpl.
      rewrite !all_hrefs_app. simpl.
      destruct (IH x) as [Htarget Hsound]. split.
      * apply in_or_app. right. apply in_or_app. right.
        apply in_or_app. by left.
      * intros h Hin. rewrite !in_app_iff in Hin |- *.
        destruct Hin as [?|[?|[Hx|?]]]; try tauto.
        destruct (Hsound h Hx); tauto.
    + rewrite hrefs_unfold. simpl. rewrite all_hrefs_app. simpl.
      rewrite app_nil_r.
      destruct (IH (new_section segment)) as [Htarget Hsound]. split.
      * apply in_or_app. right. apply in_or_app. by right.
      * intros h Hin. rewrite in_app_iff in Hin. rewrite in_app_iff in Hin.
        rewrite in_app_iff.
        destruct Hin as [?|[?|Hx]]; try tauto.
        destruct (Hsound h Hx) as [?|Hnew]; [tauto|]. done.
Qed.

Lemma walk_href (segments : list string) (current : NavItem) :
  segments <> [] \/ meta_isIndex doc = false ->
  nav_href (walk locale doc segments current) = nav_href current.
Proof.
  assert (nav_href (ensure_children current) = nav_href current) as He.
  { unfold ensure_children. by destruct (nav_children current). }
  destruct segments as [|segment rest].
  - intros [?|Hindex]; [done|]. by apply place_href.
  - intros _. cbn [walk].
    destruct (_ && _) eqn:Hleaf.
    + apply andb_true_iff in Hleaf as [_ Hindex%negb_true_iff].
      by rewrite place_href.
    + by destruct (update_first _ _ _).
Qed.

(** The walk keeps every item at its path and keeps the links that are
    there. [path] is the path of [current], and [segments] is what is left
    of the slug below it. *)
Lemma walk_keeps (segments : list string) :
  forall path current,
    Located locale path current ->
    path ++ segments = meta_slug doc ->
    (segments = [] -> meta_isIndex doc = true \/ meta_slug doc = []) ->
    Located locale path (walk locale doc segments current) /\
    (forall h, In h (hrefs current) ->
               In h (hrefs (walk locale doc segments current))).
Proof.
  induction segments as [|segment rest IH]; intros path current Hloc Hpath Hend.
  - rewrite app_nil_r in Hpath. cbn [walk].
    destruct (located_inv _ _ _ Hloc) as [Hhref Hchildren].
    rewrite place_hrefs. unfold place.
    destruct (meta_isIndex doc) eqn:Hindex.
    + split.
      * constructor; simpl; [|done]. intros href [= <-]. by rewrite Hpath.
      * intros h. rewrite hrefs_unfold.
        intros [Hh|Hh]%in_app_or; [|by right].
        destruct (nav_href current) as [h'|]; [|done].
        destruct Hh as [<-|[]]. left. rewrite <- Hpath. symmetry. by apply Hhref.
    + destruct (Hend eq_refl) as [?|Hslug]; [done|].
      split; [|intros h Hh; apply in_or_app; by left].
      constructor; simpl; [done|].
      intros items [= <-]. apply Forall_app. split.
      * destruct (nav_children current) as [l|]; [by apply Hchildren|constructor].
      * constructor; [|constructor]. simpl.
        rewrite Hslug in Hpath |- *. subst path. simpl.
        constructor; simpl; [by intros href [= <-]|done].
  - cbn [walk].
    pose proof (ensure_children_located _ _ _ Hloc) as Hloc'.
    destruct (located_inv _ _ _ Hloc') as [Hhref Hchildren].
    destruct (_ && _) eqn:Hleaf.
    { apply andb_true_iff in Hleaf as [Hrest Hindex%negb_true_iff].
      destruct rest; [|done].
      rewrite place_hrefs, ensure_children_hrefs. unfold place. rewrite Hindex.
      split; [|intros h Hh; apply in_or_app; by left].
      constructor; simpl; [done|].
      intros items [= <-]. apply Forall_app. split.
      - destruct (nav_children (ensure_children current)) as [l|];
          [by apply Hchildren|constructor].
      - constructor; [|constructor]. simpl.
        assert (last (meta_slug doc) = Some segment) as ->.
        { rewrite <- Hpath. by rewrite last_snoc. }
        simpl. rewrite Hpath.
        constructor; simpl; [by intros href [= <-]|done]. }
    assert (rest = [] -> meta_isIndex doc = true \/ meta_slug doc = []) as Hend'.
    { intros ->. simpl in Hleaf. left. by destruct (meta_isIndex doc). }
    rewrite <- (ensure_children_hrefs current).
    rewrite (hrefs_unfold (ensure_children current)).
    pose proof (ValidFacts.ensure_children_children current) as Hsome.
    set (children := default [] (nav_children (ensure_children current))).
    assert (Forall (fun child =>
                      Located locale (path ++ option_list (nav_segment child)) child)
              children) as Hall.
    { unfold children. rewrite Hsome. simpl. apply Hchildren. exact Hsome. }
    destruct (update_first _ _ children) as [children'|] eqn:Hupdate.
    + apply update_first_inv in Hupdate as (pre & x & post & Hsplit & -> & Hx).
      rewrite Hsplit in Hall |- *.
      apply Forall_app in Hall as [Hpre Hxpost].
      apply Forall_cons in Hxpost as [Hlocx Hpost].
      assert (nav_segment x = Some segment) as Hseg.
      { unfold has_segment in Hx. destruct (nav_segment x) as [s|]; [|done].
        by apply String.eqb_eq in Hx as ->. }
      rewrite Hseg in Hlocx. simpl in Hlocx.
      destruct (IH (path ++ [segment]) x Hlocx) as [Hlocw Hkeep];
        [by rewrite <- app_assoc|done|].
      split.
      * constructor; simpl; [done|].
        intros items [= <-]. apply Forall_app. split; [done|].
        constructor; [|done]. by rewrite walk_segment, Hseg.
      * intros h. rewrite (hrefs_unfold (set_children _ _)). simpl.
        rewrite !all_hrefs_app. simpl. rewrite !in_app_iff.
        intros [?|[?|[?|?]]]; auto.
    + split.
      * constructor; simpl; [done|].
        intros items [= <-]. apply Forall_app. split; [done|].
        constructor; [|constructor]. rewrite walk_segment. simpl.
        apply IH; [|by rewrite <- app_assoc|done].
        constructor; simpl; [done|]. intros items [= <-]. constructor.
      * intros h. rewrite (hrefs_unfold (set_children _ _)). simpl.
        rewrite !all_hrefs_app. rewrite !in_app_iff.
        intros [?|?]; auto.
Qed.

End Walk.

Section Fold.

Variable locale : Locale.

Lemma sidebar_step_links (state : NavItem * option NavItem) (doc : DocMeta) :
  Located locale [] (fst state) -> nav_href (fst state) = None ->
  let root' := fst (sidebar_step locale state doc) in
  Located locale [] root' /\ nav_href root' = None /\
  (forall h, In h (hrefs (fst state)) -> In h (hrefs root')) /\
  (placed doc = true -> In (docHref locale (meta_slug doc)) (hrefs root')) /\
  (forall h, In h (hrefs root') ->
             In h (hrefs (fst state)) \/ placed doc = true /\ h = docHref locale (meta_slug doc)).
Proof.
  destruct state as [root home]. cbn [fst]. intros Hloc Hhref.
  unfold sidebar_step, placed, is_intro, is_home.
  destruct (bool_decide (head (meta_slug doc) = Some "intro")).
  { cbn [fst]. do 4 (split; [done|]). intros h Hh. by left. }
  destruct (bool_decide (meta_slug doc = []) && meta_isIndex doc) eqn:Hhome.
  { cbn [fst]. do 4 (split; [done|]). intros h Hh. by left. }
  cbn [fst negb andb].
  destruct (walk_keeps locale doc (meta_slug doc) [] root Hloc eq_refl)
    as [Hloc' Hkeep]; [by right|].
  destruct (walk_adds locale doc (meta_slug doc) root) as [Htarget Hsound].
  split; [done|]. split.
  { rewrite walk_href; [done|].
    destruct (meta_slug doc); [right|by left].
    simpl in Hhome. by destruct (meta_isIndex doc). }
  split; [done|]. split; [done|].
  intros h Hh. destruct (Hsound h Hh); auto.
Qed.

Lemma sidebar_fold_links (docs : list DocMeta) :
  forall state,
    Located locale [] (fst state) -> nav_href (fst state) = None ->
    let root' := fst (List.fold_left (sidebar_step locale) docs state) in
    nav_href root' = None /\
    (forall h, In h (hrefs (fst state)) -> In h (hrefs root')) /\
    (forall doc, In doc docs -> placed doc = true -> In (docHref locale (meta_slug doc)) (hrefs root')) /\
    (forall h, In h (hrefs root') ->
               In h (hrefs (fst state)) \/
               exists doc, In doc docs /\ placed doc = true /\ h = docHref locale (meta_slug doc)).
Proof.
  induction docs as [|doc docs IH]; intros state Hloc Hhref.
  - cbn [List.fold_left]. do 2 (split; [done|]). split; [by intros doc []|].
    intros h Hh. by left.
  - cbn [List.fold_left].
    destruct (sidebar_step_links state doc Hloc Hhref)
      as (Hloc' & Hhref' & Hkeep & Hnew & Hsound).
    destruct (IH _ Hloc' Hhref') as (Hfinal & Hkeep' & Hall & Hsound').
    split; [done|]. split; [auto|]. split.
    + intros d [<-|Hd] Hplaced; auto.
    + intros h Hh. destruct (Hsound' h Hh) as [Hstep|(d & Hd & Hp & ->)].
      * destruct (Hsound h Hstep) as [?|[Hp ->]]; [by left|].
        right. exists doc. split; [by left|done].
      * right. exists d. split; [by right|done].
Qed.

End Fold.

Lemma all_hrefs_In (items : list NavItem) (h : string) :
  In h (all_hrefs items) <-> exists item, In item items /\ In h (hrefs item).
Proof. apply in_flat_map. Qed.

Lemma all_hrefs_sorted lc (items : list NavItem) (h : string) :
  Forall (fun item => In h (hrefs (sortNode lc item)) <-> In h (hrefs item)) items ->
  In h (all_hrefs (array_sort lc (List.map (sortNode lc) items)))
  <-> In h (all_hrefs items).
Proof.
  intros Hall. rewrite !all_hrefs_In. rewrite List.Forall_forall in Hall. split.
  - intros (x & Hx & Hh).
    apply (Permutation_in _ (NavFacts.array_sort_perm lc _)) in Hx.
    apply in_map_iff in Hx as (item & <- & Hitem).
    exists item. split; [done|]. by apply Hall.
  - intros (item & Hitem & Hh). exists (sortNode lc item). split.
    + apply (Permutation_in _ (Permutation_sym (NavFacts.array_sort_perm lc _))).
      by apply in_map.
    + by apply Hall.
Qed.

Lemma hrefs_sortNode lc (h : string) (item : NavItem) :
  In h (hrefs (sortNode lc item)) <-> In h (hrefs item).
Proof.
  induction item as [title href order children segment IH]
    using NavFacts.NavItem_nested_ind.
  cbn [sortNode hrefs]. rewrite !in_app_iff.
  destruct children as [items|]; [|done].
  fold (all_hrefs (array_sort lc (List.map (sortNode lc) items))).
  fold (all_hrefs items).
  by rewrite (all_hrefs_sorted lc items h (IH items eq_refl)).
Qed.

Lemma all_hrefs_sortTree lc (items : list NavItem) (h : string) :
  In h (all_hrefs (sortTree lc items)) <-> In h (all_hrefs items).
Proof.
  unfold sortTree. apply all_hrefs_sorted, Forall_true.
  intros item. apply hrefs_sortNode.
Qed.

Lemma located_root locale : Located locale [] sidebar_root.
Proof. constructor; simpl; [done|]. intros items [= <-]. constructor. Qed.

(** The links of the list that [getSidebar] returns. *)
Lemma getSidebar_links (localeCompare : string -> string -> Z)
    (locale : Locale) (docs : list DocMeta) (h : string) :
  In h (all_hrefs (getSidebar localeCompare locale docs))
  <-> (exists doc,
         In doc docs /\ placed doc = true /\
         h = docHref locale (meta_slug doc)) \/
      (exists home, home_of locale docs = Some home /\ nav_href home = Some h).
Proof.
  unfold getSidebar.
  pose proof (NavFacts.sidebar_fold_home locale docs sidebar_root None) as Hhome.
  destruct (sidebar_fold_links locale docs (sidebar_root, None)
              (located_root locale) eq_refl)
    as (Hhref & _ & Hall & Hsound).
  destruct (List.fold_left _ docs _) as [root home] eqn:Hfold.
  cbn [fst snd] in *.
  assert (forall x, In x (all_hrefs
                            (sortTree localeCompare (default [] (nav_children root))))
                    <-> In x (hrefs root)) as Htree.
  { intros x. rewrite all_hrefs_sortTree.
    by rewrite (hrefs_unfold root), Hhref. }
  assert (home = home_of locale docs) as ->.
  { rewrite Hhome. unfold home_of. by destruct (last _). }
  assert (In h (hrefs root)
          <-> exists doc,
                In doc docs /\ placed doc = true /\
                h = docHref locale (meta_slug doc)) as Hroot.
  { split.
    - intros Hh. by destruct (Hsound h Hh) as [[]|?].
    - intros (doc & Hdoc & Hplaced & ->). by apply Hall. }
  destruct (home_of locale docs) as [item|] eqn:Hitem.
  - change (all_hrefs (item :: ?l))
      with (hrefs item ++ all_hrefs l).
    rewrite in_app_iff, Htree, Hroot.
    assert (hrefs item = option_list (nav_href item)) as ->.
    { unfold home_of in Hitem. destruct (last _); [|done].
      by injection Hitem as <-. }
    split.
    + intros [Hh|?]; [|by left]. right. exists item. split; [done|].
      destruct (nav_href item); [|done]. by destruct Hh as [<-|[]].
    + intros [?|(item' & [= <-] & ->)]; [by right|]. left. by left.
  - rewrite Htree, Hroot. split; [by left|]. by intros [?|(? & ? & _)].
Qed.

Lemma sidebar_step_intro locale state doc :
  is_intro doc = true -> sidebar_step locale state doc = state.
Proof.
  destruct state as [root home]. unfold sidebar_step, is_intro. by intros ->.
Qed.

End NavTreeFacts.

(** X22. The links of the sidebar are the documents: a link stands in the
    list that [getSidebar] returns, at some depth, exactly when it is the
    link that [docHref] makes for one of the documents that is neither
    under [intro] nor the home document, or the link of the home item. No
    document is left out, and no link leads to anything else. *)
Theorem getSidebar_links_documents (localeCompare : string -> string -> Z)
    (locale : Locale) (docs : list DocMeta) (h : string) :
  In h (NavTreeSpec.all_hrefs (getSidebar localeCompare locale docs))
  <-> (exists doc,
         In doc docs /\ NavTreeSpec.placed doc = true /\
         h = docHref locale (meta_slug doc)) \/
      (exists home,
         NavSpec.home_of locale docs = Some home /\ nav_href home = Some h).
Proof.
  apply NavTreeFacts.getSidebar_links.
Qed.

Lemma getSidebar_links_documents_witness :
  In "/zh/docs/guides/setup"
    (NavTreeSpec.all_hrefs
       (getSidebar Sample.compare_code_units zh
          [ {| meta_title := "Setup"; meta_slug := ["guides"; "setup"];
               meta_order := 1; meta_isIndex := false |} ])).
Proof.
  apply (proj2 (getSidebar_links_documents Sample.compare_code_units zh
                  [ {| meta_title := "Setup"; meta_slug := ["guides"; "setup"];
                       meta_order := 1; meta_isIndex := false |} ]
                  "/zh/docs/guides/setup")).
  left. eexists. split; [by left|]. split; reflexivity.
Defined.

(** X23. The documents under [intro] leave no trace in the sidebar:
    [getSidebar] returns the same list with them and without them. *)
Theorem getSidebar_ignores_intro (localeCompare : string -> string -> Z)
    (locale : Locale) (docs : list DocMeta) :
  getSidebar localeCompare locale
    (List.filter (fun doc => negb (NavTreeSpec.is_intro doc)) docs)
  = getSidebar localeCompare locale docs.
Proof.
  unfold getSidebar.
  assert (forall state,
            List.fold_left (sidebar_step locale)
              (List.filter (fun doc => negb (NavTreeSpec.is_intro doc)) docs) state
            = List.fold_left (sidebar_step locale) docs state) as ->; [|done].
  induction docs as [|doc docs IH]; intros state; [done|].
  simpl. destruct (NavTreeSpec.is_intro doc) eqn:Hintro; simpl.
  - by rewrite NavTreeFacts.sidebar_step_intro.
  - apply IH.
Qed.

(** X24. Every listed document is in the sidebar: when [getDocMetaList]
    returns, the list that [getSidebar] makes of its entries holds, at some
    depth, the link of each slug of [getAllDocSlugs] that is not empty and
    not under [intro]. *)
Theorem sidebar_links_every_listed_document
    (localeCompare : string -> string -> Z) cwd fs matter (locale : Locale)
    (tree : list Dirent) (metas : list DocMeta) (slug : list string) :
  getDocMetaList cwd fs matter locale tree = Normal metas ->
  In slug (getAllDocSlugs cwd locale tree) ->
  slug <> [] -> head slug <> Some "intro" ->
  In (docHref locale slug)
    (NavTreeSpec.all_hrefs (getSidebar localeCompare locale metas)).
Proof.
  intros Hlist Hslug Hne Hintro.
  rewrite <- (ListingMore.getDocMetaList_slugs _ _ _ _ _ _ Hlist) in Hslug.
  apply in_map_iff in Hslug as (meta & <- & Hmeta).
  apply NavTreeFacts.getSidebar_links. left. exists meta.
  split; [done|]. split; [|done].
  unfold NavTreeSpec.placed, NavTreeSpec.is_intro, NavSpec.is_home.
  rewrite bool_decide_eq_false_2 by done.
  by rewrite (bool_decide_eq_false_2 (meta_slug meta = [])).
Qed.

Lemma sidebar_links_every_listed_document_witness :
  exists metas,
    getDocMetaList Sample.cwd Site.fs Sample.plain_matter en Site.tree
    = Normal metas /\
    In "/docs/guides/setup"
      (NavTreeSpec.all_hrefs (getSidebar Sample.compare_code_units en metas)).
Proof.
  eexists. split; [vm_compute; reflexivity|].
  apply (sidebar_links_every_listed_document Sample.compare_code_units
           Sample.cwd Site.fs Sample.plain_matter en Site.tree _
           ["guides"; "setup"]).
  - vm_compute. reflexivity.
  - vm_compute. right. right. by left.
  - done.
  - done.
Defined.
(** ** The file of a slug *)

Module ResolveFacts.

Import StrFacts LinkSpec SlugSpec SlugFacts PathFacts ListingSpec CandidateSpec.

Lemma absolute_app (l tail : list string) :
  l <> [] -> tail <> [] ->
  absolute (l ++ tail) = absolute l +:+ "/" +:+ Str.join "/" tail.
Proof.
  intros Hl Ht. unfold absolute. rewrite join_app by done.
  by rewrite append_assoc.
Qed.

Lemma last_Forall_ne {A} (P : A -> Prop) (l : list A) (d : A) :
  l <> [] -> Forall P l -> P (List.last l d).
Proof.
  intros Hne Hl. rewrite (app_removelast_last d Hne) in Hl.
  apply Forall_app in Hl as [_ Hlast]. by apply Forall_cons in Hlast as [? _].
Qed.

Lemma last_segment (tail : list string) :
  tail <> [] ->
  exists X, Str.join "/" tail = X +:+ List.last tail "" /\
            (X = "" \/ exists Y, X = Y +:+ "/").
Proof.
  intros Hne.
  assert (Str.join "/" tail
          = Str.join "/" (List.removelast tail ++ [List.last tail ""])) as ->.
  { by rewrite <- app_removelast_last. }
  rewrite join_snoc. destruct (List.removelast tail) as [|a l].
  - exists "". split; [done|by left].
  - exists (Str.join "/" (a :: l) +:+ "/"). split.
    + by rewrite append_assoc.
    + right. by exists (Str.join "/" (a :: l)).
Qed.

Lemma normalize_absolute_app (l tail : list string) :
  Forall proper l -> Forall proper tail -> tail <> [] ->
  Path.normalize (absolute l +:+ "/" +:+ Str.join "/" tail) = absolute (l ++ tail).
Proof.
  intros Hl Ht Hne.
  destruct (split_absolute_app l tail) as [Hsegs Hall];
    [done|by apply proper_or_empty|done|].
  rewrite (filter_nonempty_id tail) in Hsegs by by apply proper_nonempty.
  unfold Path.normalize.
  assert (Str.is_empty (absolute l +:+ "/" +:+ Str.join "/" tail) = false) as ->
    by reflexivity.
  assert (Str.startsWith (absolute l +:+ "/" +:+ Str.join "/" tail) "/" = true) as ->
    by reflexivity.
  assert (Str.endsWith (absolute l +:+ "/" +:+ Str.join "/" tail) "/" = false) as ->.
  { destruct (last_segment tail Hne) as (X & -> & _).
    rewrite <- !append_assoc.
    assert (proper (List.last tail "")) as [[? ?] _].
    { by apply last_Forall_ne. }
    by apply endsWith_no_slash. }
  unfold Path.normalizeString, Path.normalizeSegments.
  rewrite go_proper_or_empty by done. rewrite Hsegs. simpl List.rev.
  cbn [negb app].
  assert (Str.is_empty (Str.join "/" (l ++ tail)) = false) as ->.
  { apply not_true_is_false. intros E%is_empty_true.
    revert E. apply LinkFacts.join_nonempty; [by destruct l, tail|].
    apply proper_nonempty, Forall_app. by split. }
  by rewrite append_nil_r.
Qed.

Lemma normalize_absolute_id (l : list string) :
  Forall proper l -> l <> [] -> Path.normalize (absolute l) = absolute l.
Proof.
  intros Hl Hne. unfold Path.normalize.
  assert (Str.is_empty (absolute l) = false) as -> by reflexivity.
  assert (Str.startsWith (absolute l) "/" = true) as -> by reflexivity.
  assert (Str.endsWith (absolute l) "/" = false) as ->.
  { unfold absolute. destruct (last_segment l Hne) as (X & -> & _).
    rewrite <- append_assoc.
    assert (proper (List.last l "")) as [[? ?] _].
    { by apply last_Forall_ne. }
    by apply endsWith_no_slash. }
  unfold Path.normalizeString, Path.normalizeSegments, absolute.
  change (Str.split Path.slash ("/" +:+ Str.join "/" l))
    with ("" :: Str.split Path.slash (Str.join "/" l)).
  rewrite split_join by (done || by apply proper_ok).
  rewrite go_proper_or_empty
    by (constructor; [by left|by apply proper_or_empty]).
  change (Str.filter_nonempty ("" :: l)) with (Str.filter_nonempty l).
  rewrite filter_nonempty_id by by apply proper_nonempty.
  simpl List.rev. cbn [negb app].
  assert (Str.is_empty (Str.join "/" l) = false) as ->.
  { apply not_true_is_false. intros E%is_empty_true.
    revert E. apply LinkFacts.join_nonempty; [done|by apply proper_nonempty]. }
  by rewrite append_nil_r.
Qed.

(** [path.join] of a root and the path of a slug. *)
Lemma join_slug (l slug : list string) :
  Forall proper l -> l <> [] -> Forall proper slug ->
  Path.join [absolute l; Str.join "/" slug] = absolute (l ++ slug).
Proof.
  intros Hl Hne Hslug. destruct slug as [|s slug].
  - rewrite app_nil_r. unfold Path.join. simpl Str.join.
    change (Str.filter_nonempty [absolute l; ""]) with [absolute l].
    simpl Str.join. by apply normalize_absolute_id.
  - rewrite LinkFacts.join_two.
    + by apply normalize_absolute_app.
    + done.
    + apply LinkFacts.join_nonempty; [done|by apply proper_nonempty].
Qed.

Lemma absolute_snoc_ext (l : list string) (s e : string) :
  absolute (l ++ [s]) +:+ e = absolute (l ++ [s +:+ e]).
Proof.
  unfold absolute. rewrite !join_snoc. destruct l; by rewrite !append_assoc.
Qed.

(** The candidates of a slug, under the root of the locale. *)
Lemma docCandidates_spec (cs : list string) (locale : Locale) (slug : list string) :
  Forall proper cs -> Forall proper slug -> slug <> [] ->
  docCandidates (absolute cs) locale slug
  = List.map (fun tail => absolute (rootSegments cs locale ++ tail)) (candidates slug).
Proof.
  intros Hcs Hslug Hne. unfold docCandidates.
  rewrite ListingFacts.docsRoot_absolute by done.
  pose proof (ListingFacts.rootSegments_proper cs locale Hcs) as Hroot.
  set (root := rootSegments cs locale) in *.
  assert (root <> []) as Hrne by (unfold root, rootSegments; by destruct cs).
  rewrite join_slug by done.
  assert (Forall proper (root ++ slug)) as Hbase by by apply Forall_app.
  rewrite !join_under by (done || by repeat split).
  unfold candidates. cbn [List.map].
  rewrite (app_removelast_last "" Hne) at 3 4.
  rewrite (app_assoc root (List.removelast slug)).
  rewrite !absolute_snoc_ext.
  by rewrite <- !app_assoc.
Qed.

Lemma strip_md (stem : string) :
  strip_markdown_extension (stem +:+ ".md") = stem.
Proof.
  unfold strip_markdown_extension.
  rewrite ListingFacts.toLowerCase_app.
  change (Str.toLowerCase ".md") with ".md".
  assert (Str.endsWith (Str.toLowerCase stem +:+ ".md") ".mdx" = false) as ->.
  { replace (Str.toLowerCase stem +:+ ".md")
      with ((Str.toLowerCase stem +:+ ".m") +:+ "d")
      by (by rewrite append_assoc).
    by apply (endsWith_last_char (Str.toLowerCase stem +:+ ".m") "d" ".md" "x"). }
  rewrite endsWith_app by done. cbn [Str.endsWith]. simpl.
  rewrite len_app. simpl.
  replace (Str.len stem + 3 - 3)%nat with (Str.len stem) by lia.
  apply take_app_len.
Qed.

Lemma strip_mdx (stem : string) :
  strip_markdown_extension (stem +:+ ".mdx") = stem.
Proof.
  unfold strip_markdown_extension.
  rewrite ListingFacts.toLowerCase_app.
  change (Str.toLowerCase ".mdx") with ".mdx".
  rewrite endsWith_app by done. cbn [Str.endsWith]. simpl.
  rewrite len_app. simpl.
  replace (Str.len stem + 4 - 4)%nat with (Str.len stem) by lia.
  apply take_app_len.
Qed.

Lemma map_last_snoc (f : string -> string) (l : list string) (a : string) :
  map_last f (l ++ [a]) = l ++ [f a].
Proof.
  induction l as [|x l IH]; [reflexivity|].
  simpl. rewrite IH. by destruct l.
Qed.

Lemma proper_ext (stem ext : string) :
  proper stem -> ext = ".md" \/ ext = ".mdx" -> proper (stem +:+ ext).
Proof.
  intros [[Hne Hfree] _] Hext. repeat split.
  - by destruct stem.
  - rewrite all_app, Hfree. by destruct Hext as [-> | ->].
  - intros E. apply (f_equal Str.len) in E. rewrite len_app in E.
    destruct Hext as [-> | ->]; simpl in E; lia.
  - intros E. apply (f_equal Str.len) in E. rewrite len_app in E.
    destruct Hext as [-> | ->]; simpl in E; lia.
Qed.

Lemma free_of_join (c : ascii) (l : list string) :
  c <> "/"%char ->
  Forall (fun s => TitleSpec.free_of c s = true) l ->
  TitleSpec.free_of c (Str.join "/" l) = true.
Proof.
  intros Hc. induction 1 as [|a l Ha Hl IH]; [done|].
  destruct l as [|b l]; [done|].
  change (Str.join "/" (a :: b :: l))
    with (a +:+ String "/" (Str.join "/" (b :: l))).
  unfold TitleSpec.free_of in *. rewrite all_app, Ha.
  cbn [Str.all andb]. rewrite IH. by destruct (Ascii.eqb_spec c "/").
Qed.

(** The slug of a file, by its stem. *)
Lemma deriveSlug_stem (init : list string) (stem ext : string) :
  Forall plain init -> plain stem -> ext = ".md" \/ ext = ".mdx" ->
  deriveSlug (Str.join "/" (init ++ [stem +:+ ext]))
  = if String.eqb stem "index" then init else init ++ [stem].
Proof.
  intros Hinit [Hstem Hfree] Hext. unfold deriveSlug.
  assert (Forall proper init) as Hproper.
  { eapply Forall_impl; [exact Hinit|]. by intros s [? _]. }
  assert (Forall (fun s => TitleSpec.free_of "\" s = true) init) as Hplain.
  { eapply Forall_impl; [exact Hinit|]. by intros s [_ ?]. }
  change (TitleSpec.free_of "\" stem = true) in Hfree.
  assert (Forall proper (init ++ [stem +:+ ext])) as Hall.
  { apply Forall_app. split; [done|]. constructor; [|done]. by apply proper_ext. }
  rewrite <- split_path_replace.
  rewrite TitleFacts.replaceAll_absent.
  2:{ apply free_of_join; [done|]. apply Forall_app. split; [done|].
      constructor; [|done]. unfold TitleSpec.free_of in *.
      rewrite all_app, Hfree. destruct Hext as [-> | ->]; reflexivity. }
  rewrite split_join; [|by destruct init|by apply proper_ok].
  rewrite map_last_snoc.
  assert (strip_markdown_extension (stem +:+ ext) = stem) as ->.
  { destruct Hext as [-> | ->]; [apply strip_md|apply strip_mdx]. }
  rewrite filter_nonempty_id.
  2:{ apply proper_nonempty, Forall_app. split; [done|by constructor]. }
  unfold drop_index. rewrite last_snoc.
  destruct (String.eqb_spec stem "index") as [->|Hne].
  - rewrite bool_decide_eq_true_2 by done. by rewrite removelast_last.
  - rewrite bool_decide_eq_false_2; [done|]. congruence.
Qed.

Lemma plain_proper (l : list string) : Forall plain l -> Forall proper l.
Proof. intros H. eapply Forall_impl; [exact H|]. by intros s [? _]. Qed.

(** The file of a slug is among the candidates of the slug. *)
Lemma file_among_candidates (cs : list string) (locale : Locale)
    (init : list string) (stem ext : string) :
  Forall proper cs -> Forall plain init -> plain stem ->
  ext = ".md" \/ ext = ".mdx" ->
  let file := absolute (rootSegments cs locale ++ init ++ [stem +:+ ext]) in
  let slug := slugFromFile (absolute cs) (docsRoot (absolute cs) locale) file in
  slug = (if String.eqb stem "index" then init else init ++ [stem]) /\
  In file (docCandidates (absolute cs) locale slug).
Proof.
  intros Hcs Hinit Hstem Hext. cbv zeta.
  pose proof (plain_proper init Hinit) as Hproper.
  pose proof (ListingFacts.rootSegments_proper cs locale Hcs) as Hroot.
  assert (rootSegments cs locale <> []) as Hrne
    by (unfold rootSegments; by destruct cs).
  rewrite slugFromFile_spec, ListingFacts.docsRoot_absolute by done.
  rewrite relative_under; [|done| |by destruct init].
  2:{ apply Forall_app. split; [done|]. constructor; [|done].
      apply proper_ext; [by destruct Hstem|done]. }
  rewrite deriveSlug_stem by done. split; [reflexivity|].
  destruct (String.eqb_spec stem "index") as [->|Hne].
  - unfold docCandidates.
    rewrite ListingFacts.docsRoot_absolute, join_slug by done.
    rewrite !join_under by (by apply Forall_app || by repeat split).
    rewrite <- !app_assoc.
    destruct Hext as [-> | ->]; [by left|right; by left].
  - rewrite docCandidates_spec;
      [|done|apply Forall_app; split; [done|constructor; [by destruct Hstem|done]]
       |by destruct init].
    unfold candidates. cbn [List.map].
    rewrite removelast_last, List.last_last.
    destruct Hext as [-> | ->]; [right; right; by left|right; right; right; by left].
Qed.

Lemma getDoc_found cwd fs matter (locale : Locale) (slug : list string)
    (file : string) :
  In file (docCandidates cwd locale slug) ->
  Fs.existsSync fs file = true ->
  getDoc cwd fs matter locale slug <> Normal None.
Proof.
  intros Hin Hexists. unfold getDoc.
  destruct (isChangelogSlug slug).
  { by destruct (readFileSyncSafe fs _). }
  unfold resolveDocPath.
  destruct (List.find _ _) as [filePath|] eqn:Hfind.
  - destruct (readFileSyncSafe fs filePath) as [source|]; simpl; [|done].
    destruct (matter source) as [parsed|]; simpl; [|done].
    by destruct (processIncludeDirectives _ _ _ _).
  - apply (List.find_none _ _ Hfind) in Hin. congruence.
Qed.

End ResolveFacts.

(** X25. The changelog is the file [CHANGELOG.md] next to the docs, for
    every locale: [getDoc] reads it without the frontmatter parser, gives it
    the title [Changelog] and puts the notice of the locale before it; it
    is no index page. When the file is missing [getDoc] throws, where for
    any other slug it would return no document. *)
Theorem getDoc_changelog (cs : list string) fs matter (locale : Locale) :
  Forall SlugSpec.proper cs ->
  let path := SlugSpec.absolute (cs ++ ["taffy-layout"; "CHANGELOG.md"]) in
  getDoc (SlugSpec.absolute cs) fs matter locale ["changelog"]
  = match Fs.readFileSync fs path with
    | Normal source =>
        let content :=
          match getLocaleWarning locale with
          | Some warning =>
              warning +:+ Sample.nl +:+ Sample.nl +:+ "---" +:+
              Sample.nl +:+ Sample.nl +:+ source
          | None => source
          end in
        Normal (Some {| doc_title := "Changelog";
                        doc_slug := ["changelog"];
                        doc_content := content;
                        doc_data := {| fm_title := Some "Changelog";
                                       fm_sidebar_label := None;
                                       fm_sidebar_position := None |};
                        doc_toc := Toc.extractToc content;
                        doc_isIndex := false |})
    | Throw e => Throw e
    end.
Proof.
  intros Hcs. cbv zeta. unfold getDoc. cbn [isChangelogSlug String.eqb].
  change (String.eqb "changelog" "changelog") with true. cbv iota.
  rewrite (PathFacts.resolve_cwd_two cs ["taffy-layout"; "CHANGELOG.md"])
    by (done || by repeat constructor).
  unfold readFileSyncSafe.
  destruct (Fs.readFileSync fs _) as [source|e]; [|reflexivity].
  cbn [mbind Completion_bind mret Completion_ret].
  assert (isIndexFile (SlugSpec.absolute (cs ++ ["taffy-layout"; "CHANGELOG.md"]))
          = false) as ->.
  { unfold isIndexFile.
    change (cs ++ ["taffy-layout"; "CHANGELOG.md"])
      with (cs ++ ["taffy-layout"] ++ ["CHANGELOG.md"]).
    rewrite app_assoc, ListingMore.basename_absolute;
      [reflexivity| |by repeat split].
    apply Forall_app. split; [done|]. by repeat constructor. }
  destruct locale; reflexivity.
Qed.

Lemma getDoc_changelog_witness :
  getDoc Sample.cwd Sample.api_fs Sample.plain_matter zh ["changelog"]
  = Throw (ENOENT "/site/taffy-layout/CHANGELOG.md").
Proof.
  change Sample.cwd with (SlugSpec.absolute Site.cwd_segments).
  rewrite (getDoc_changelog Site.cwd_segments Sample.api_fs Sample.plain_matter zh
             ltac:(repeat constructor; done)).
  reflexivity.
Defined.

(** X26. For a slug that is not empty and whose segments are those of a
    normalized path, [resolveDocPath] finds a file below the root of the
    locale or none: it never leaves the root. *)
Theorem resolveDocPath_stays_under_root (cs : list string) fs (locale : Locale)
    (slug : list string) (filePath : string) :
  Forall SlugSpec.proper cs -> Forall SlugSpec.proper slug -> slug <> [] ->
  resolveDocPath (SlugSpec.absolute cs) fs locale slug = Some filePath ->
  Str.startsWith filePath (docsRoot (SlugSpec.absolute cs) locale +:+ "/") = true /\
  Fs.existsSync fs filePath = true.
Proof.
  intros Hcs Hslug Hne Hfind. unfold resolveDocPath in Hfind.
  apply List.find_some in Hfind as [Hin Hexists]. split; [|done].
  rewrite ResolveFacts.docCandidates_spec in Hin by done.
  apply in_map_iff in Hin as (tail & <- & Htail).
  rewrite ListingFacts.docsRoot_absolute by done.
  assert (tail <> []) as Htne.
  { unfold CandidateSpec.candidates in Htail. simpl in Htail.
    destruct Htail as [<-|[<-|[<-|[<-|[]]]]];
      intros E; apply (f_equal (@List.length string)) in E;
      rewrite List.length_app in E; simpl in E; lia. }
  rewrite ResolveFacts.absolute_app;
    [|unfold ListingSpec.rootSegments; by destruct cs|done].
  unfold Str.startsWith. rewrite <- StrFacts.append_assoc.
  apply TitleFacts.prefix_app.
Qed.

Lemma resolveDocPath_stays_under_root_witness :
  Str.startsWith "/site/taffy-layout/docs/api/foo.md"
    (docsRoot Sample.cwd en +:+ "/") = true /\
  Fs.existsSync Sample.api_fs "/site/taffy-layout/docs/api/foo.md" = true.
Proof.
  apply (resolveDocPath_stays_under_root Site.cwd_segments Sample.api_fs en
           ["api"; "foo"]).
  - repeat constructor; done.
  - repeat constructor; done.
  - done.
  - vm_compute. reflexivity.
Defined.

(** X27. The slug of a file leads back to the file: a file below the root
    of a locale whose name is a stem and [.md] or [.mdx] is among the
    candidates that [resolveDocPath] tries for the slug that [slugFromFile]
    derives from it, so that [getDoc] of that slug has a document when the
    file exists. The segments are those of a normalized path, without
    backslash. *)
Theorem slug_leads_back_to_file (cs : list string) (locale : Locale)
    (init : list string) (stem ext : string) :
  Forall SlugSpec.proper cs ->
  Forall CandidateSpec.plain init -> CandidateSpec.plain stem ->
  ext = ".md" \/ ext = ".mdx" ->
  let file :=
    SlugSpec.absolute (ListingSpec.rootSegments cs locale ++ init ++ [stem +:+ ext]) in
  let slug :=
    slugFromFile (SlugSpec.absolute cs) (docsRoot (SlugSpec.absolute cs) locale) file in
  In file (docCandidates (SlugSpec.absolute cs) locale slug) /\
  (forall fs matter,
     Fs.existsSync fs file = true ->
     getDoc (SlugSpec.absolute cs) fs matter locale slug <> Normal None).
Proof.
  intros Hcs Hinit Hstem Hext. cbv zeta.
  destruct (ResolveFacts.file_among_candidates cs locale init stem ext
              Hcs Hinit Hstem Hext) as [_ Hin].
  split; [exact Hin|].
  intros fs matter Hexists. by eapply ResolveFacts.getDoc_found.
Qed.

Lemma slug_leads_back_to_file_witness :
  In "/site/taffy-layout/docs/guides/setup.mdx"
    (docCandidates Sample.cwd en
       (slugFromFile Sample.cwd (docsRoot Sample.cwd en)
          "/site/taffy-layout/docs/guides/setup.mdx")).
Proof.
  apply (proj1 (slug_leads_back_to_file Site.cwd_segments en ["guides"] "setup" ".mdx"
                  ltac:(repeat constructor; done)
                  ltac:(repeat constructor; done)
                  ltac:(repeat constructor; done)
                  ltac:(by right))).
Defined.

(** X28. A document that is listed has its page: for a file of the default
    locale as above whose slug is not empty, the default page of that slug
    is never the not-found page when the file exists. *)
Theorem DefaultPage_finds_listed_document {ReactNode} (cs : list string)
    fs matter (renderMdx : string -> RenderOptions -> Completion ReactNode)
    (init : list string) (stem ext : string) :
  Forall SlugSpec.proper cs ->
  Forall CandidateSpec.plain init -> CandidateSpec.plain stem ->
  ext = ".md" \/ ext = ".mdx" ->
  let file :=
    SlugSpec.absolute
      (ListingSpec.rootSegments cs DEFAULT_LOCALE ++ init ++ [stem +:+ ext]) in
  let slug :=
    slugFromFile (SlugSpec.absolute cs)
      (docsRoot (SlugSpec.absolute cs) DEFAULT_LOCALE) file in
  slug <> [] ->
  Fs.existsSync fs file = true ->
  DefaultPage ReactNode (getDoc (SlugSpec.absolute cs) fs matter) renderMdx
    (Some slug) <> NotFound.
Proof.
  intros Hcs Hinit Hstem Hext. cbv zeta. intros Hne Hexists.
  destruct (ResolveFacts.file_among_candidates cs DEFAULT_LOCALE init stem ext
              Hcs Hinit Hstem Hext) as [_ Hin].
  pose proof (ResolveFacts.getDoc_found (SlugSpec.absolute cs) fs matter
                DEFAULT_LOCALE _ _ Hin Hexists) as Hdoc.
  unfold DefaultPage. cbn [default].
  destruct (isIntroSlug _); [done|].
  assert (forall s, s <> [] -> resolveSlug s = s) as Hresolve by by intros [|].
  rewrite Hresolve by done.
  destruct (getDoc _ _ _ _ _) as [[doc|]|e]; cbn [await]; [|done|done].
  by destruct (renderMdx _ _).
Qed.

Lemma DefaultPage_finds_listed_document_witness :
  DefaultPage string (getDoc Sample.cwd Site.fs Sample.plain_matter)
    Sample.render_source
    (Some (slugFromFile Sample.cwd (docsRoot Sample.cwd en)
             "/site/taffy-layout/docs/guides/setup.mdx"))
  <> NotFound.
Proof.
  apply (DefaultPage_finds_listed_document Site.cwd_segments Site.fs
           Sample.plain_matter Sample.render_source ["guides"] "setup" ".mdx"
           ltac:(repeat constructor; done)
           ltac:(repeat constructor; done)
           ltac:(repeat constructor; done)
           ltac:(by right)).
  - vm_compute. done.
  - vm_compute. reflexivity.
Defined.
